(** * DEFLATE compressor (LZ77 hash-chain matcher + fixed-Huffman block
      encoder): a shallow embedding of the C program and its properties.

    The C functions are embedded as functions into [option]: [None] stands
    for an execution that leaves defined behaviour (a load or store outside
    an array, a load from an uninitialised cell) or, in a fuelled loop, for
    exhausted fuel.  The theorems prove that neither happens.

    C [int] and [uint32_t] values are integers in [Z], with the conversions
    [to_int] and [to_uint32] written where the program converts or where its
    arithmetic can leave the type.  [size_t] values (buffer sizes and
    positions) are byte counts of objects in memory and stay in [Z]. *)

From Stdlib Require Import ZArith List Lia Bool.
From Stdlib Require Import Strings.Byte.
From stdpp Require Import base option list sorting.

Local Open Scope Z_scope.

(** ** C integer types *)

Definition INT_MAX : Z := 2147483647.

(** Conversion to a 32-bit two's-complement [int]. *)
Definition to_int (x : Z) : Z := (x + 2147483648) mod 4294967296 - 2147483648.

(** Conversion to [uint32_t]. *)
Definition to_uint32 (x : Z) : Z := x mod 4294967296.

(** The value of an [unsigned char]. *)
Definition Z_of_byte (b : byte) : Z := Z.of_N (Byte.to_N b).

(** Conversion to [unsigned char]: the low eight bits. *)
Definition byte_of_Z (z : Z) : byte :=
  match Byte.of_N (Z.to_N (Z.land z 255)) with
  | Some b => b
  | None => "000"%byte
  end.

(** ** C arrays: a list with checked indexing *)

Definition array_get {A : Type} (a : list A) (i : Z) : option A :=
  if i <? 0 then None else a !! Z.to_nat i.

Definition array_set {A : Type} (a : list A) (i : Z) (v : A) : option (list A) :=
  if (0 <=? i) && (i <? Z.of_nat (length a))
  then Some (<[Z.to_nat i := v]> a)
  else None.

(** ** DEFLATE constants *)

Definition WINDOW_SIZE : Z := 32768.
Definition MIN_MATCH : Z := 3.
Definition MAX_MATCH : Z := 258.
Definition HASH_BITS : Z := 15.
Definition HASH_SIZE : Z := Z.shiftl 1 HASH_BITS.
Definition HASH_MASK : Z := HASH_SIZE - 1.
Definition MAX_DIST : Z := 32768.
Definition LENGTH_CODES : Z := 29.
Definition DIST_CODES : Z := 30.

(** ** Bit buffer *)

(** [output] is the heap block of [capacity] bytes; the cells at and after
    [pos] hold indeterminate values, which are never read and are shown as
    zero bytes. *)
Record BitBuffer : Type := mkBitBuffer {
  bits : Z;
  count : Z;
  output : list byte;
  pos : Z;
  capacity : Z
}.

Definition init_bitbuffer (cap : Z) : BitBuffer :=
  {| bits := 0; count := 0;
     output := replicate (Z.to_nat cap) "000"%byte;
     pos := 0; capacity := cap |}.

(** [capacity *= 2; output = realloc(output, capacity)]: the old content is
    kept, the new cells are indeterminate. *)
Definition grow (bb : BitBuffer) : BitBuffer :=
  let cap := capacity bb * 2 in
  {| bits := bits bb; count := count bb;
     output := resize (Z.to_nat cap) "000"%byte (output bb);
     pos := pos bb; capacity := cap |}.

(** One iteration of the [while (bb->count >= 8)] loop of [write_bits]. *)
Definition emit_byte (bb : BitBuffer) : option BitBuffer :=
  let bb1 := if capacity bb <=? pos bb then grow bb else bb in
  out ← array_set (output bb1) (pos bb1) (byte_of_Z (Z.land (bits bb1) 255));
  Some {| bits := Z.shiftr (bits bb1) 8;
          count := count bb1 - 8;
          output := out;
          pos := pos bb1 + 1;
          capacity := capacity bb1 |}.

Fixpoint write_bits_loop (fuel : nat) (bb : BitBuffer) : option BitBuffer :=
  if 8 <=? count bb then
    match fuel with
    | O => None
    | S fuel' => bb' ← emit_byte bb; write_bits_loop fuel' bb'
    end
  else Some bb.

(** [write_bits(bb, bits, count)]; the parameter [v] is converted to
    [uint32_t], the shift and the [|=] are 32-bit unsigned operations. *)
Definition write_bits (bb : BitBuffer) (v : Z) (n : Z) : option BitBuffer :=
  let b := Z.lor (bits bb) (to_uint32 (Z.shiftl (to_uint32 v) (count bb))) in
  let c := to_int (count bb + n) in
  write_bits_loop (Z.to_nat c)
    {| bits := b; count := c; output := output bb;
       pos := pos bb; capacity := capacity bb |}.

(** [flush_bits]: the store is not guarded by a capacity test. *)
Definition flush_bits (bb : BitBuffer) : option BitBuffer :=
  if 0 <? count bb then
    out ← array_set (output bb) (pos bb) (byte_of_Z (Z.land (bits bb) 255));
    Some {| bits := bits bb; count := count bb; output := out;
            pos := pos bb + 1; capacity := capacity bb |}
  else Some bb.

(** The bytes the caller finally writes: [output[0 .. pos)]. *)
Definition written (bb : BitBuffer) : list byte :=
  take (Z.to_nat (pos bb)) (output bb).

(** ** LZ77 tokens and the hash-chain matcher *)

Module Token.
(** [literal] is [-1] for a length/distance pair. *)
Record LZ77Token : Type := mk {
  literal : Z;
  length : Z;
  distance : Z
}.
End Token.
Abbreviation LZ77Token := Token.LZ77Token.

(** [hash3(&data[p])]: reads [data[p]], [data[p+1]] and [data[p+2]]. *)
Definition hash3 (data : list byte) (p : Z) : option Z :=
  d0 ← array_get data p;
  d1 ← array_get data (p + 1);
  d2 ← array_get data (p + 2);
  Some (Z.land
          (Z.lxor (Z.lxor (Z.shiftl (Z_of_byte d0) 10) (Z.shiftl (Z_of_byte d1) 5))
                  (Z_of_byte d2))
          HASH_MASK).

(** [while (len < max_len && data[match_pos + len] == data[pos + len]) len++;] *)
Fixpoint match_length (fuel : nat) (data : list byte)
    (match_pos pos max_len len : Z) : option Z :=
  if len <? max_len then
    a ← array_get data (match_pos + len);
    b ← array_get data (pos + len);
    if Byte.eqb a b then
      match fuel with
      | O => None
      | S fuel' => match_length fuel' data match_pos pos max_len (len + 1)
      end
    else Some len
  else Some len.

(** The cells of [prev] are uninitialised ([None]) until stored to. *)
Definition load_prev (prev : list (option Z)) (i : Z) : option Z :=
  mjoin (array_get prev i).

(** The hash-chain walk [while (match_pos >= 0 && chain_len < 128)]; [links]
    is [128 - chain_len], the number of links that may still be followed. *)
Fixpoint search_chain (links : nat) (data : list byte) (prev : list (option Z))
    (size pos match_pos best_length best_distance : Z) : option (Z * Z) :=
  match links with
  | O => Some (best_length, best_distance)
  | S links' =>
    if 0 <=? match_pos then
      let distance := to_int (pos - match_pos) in
      if (MAX_DIST <? distance) || (distance <=? 0)
      then Some (best_length, best_distance)
      else
        let max_len := to_int (if size - pos <? MAX_MATCH then size - pos else MAX_MATCH) in
        len ← match_length (Z.to_nat max_len) data match_pos pos max_len 0;
        let best :=
          if (MIN_MATCH <=? len) && (best_length <? len)
          then (len, distance) else (best_length, best_distance) in
        next ← load_prev prev match_pos;
        search_chain links' data prev size pos next best.1 best.2
    else Some (best_length, best_distance)
  end.

(** [h = hash3(&data[p]); prev[p] = hash_table[h]; hash_table[h] = p;] *)
Definition insert_hash (data : list byte) (hash_table : list Z)
    (prev : list (option Z)) (p : Z) : option (list Z * list (option Z)) :=
  h ← hash3 data p;
  old ← array_get hash_table h;
  prev' ← array_set prev p (Some old);
  hash_table' ← array_set hash_table h (to_int p);
  Some (hash_table', prev').

(** [for (i = 0; i < best_length && pos + i + 2 < size; i++) ...] *)
Fixpoint insert_range (fuel : nat) (data : list byte) (hash_table : list Z)
    (prev : list (option Z)) (size pos best_length i : Z)
    : option (list Z * list (option Z)) :=
  if (i <? best_length) && (pos + i + 2 <? size) then
    match fuel with
    | O => None
    | S fuel' =>
      '(hash_table', prev') ← insert_hash data hash_table prev (pos + i);
      insert_range fuel' data hash_table' prev' size pos best_length (i + 1)
    end
  else Some (hash_table, prev).

(** The search for the best match at [pos]. *)
Definition find_match (data : list byte) (hash_table : list Z)
    (prev : list (option Z)) (size pos : Z) : option (Z * Z) :=
  if pos + MIN_MATCH <=? size then
    hash ← hash3 data pos;
    match_pos ← array_get hash_table hash;
    search_chain 128 data prev size pos match_pos 0 0
  else Some (0, 0).

(** The store of the next token and the increment of the token count, in a
    block of [2 * size] tokens. *)
Definition push_token (size : Z) (tokens : list LZ77Token) (t : LZ77Token)
    : option (list LZ77Token) :=
  if Z.of_nat (length tokens) <? size * 2 then Some (tokens ++ [t]) else None.

(** The variables of [lz77_compress] that live across iterations. *)
Record Matcher : Type := mkMatcher {
  m_hash_table : list Z;
  m_prev : list (option Z);
  m_pos : Z;
  m_tokens : list LZ77Token
}.

(** The body of the main loop [while (pos < size)]. *)
Definition lz77_step (data : list byte) (size : Z) (st : Matcher) : option Matcher :=
  let hash_table := m_hash_table st in
  let prev := m_prev st in
  let pos := m_pos st in
  '(best_length, best_distance) ← find_match data hash_table prev size pos;
  if MIN_MATCH <=? best_length then
    tokens' ← push_token size (m_tokens st) (Token.mk (-1) best_length best_distance);
    '(hash_table', prev') ←
      insert_range (Z.to_nat best_length) data hash_table prev size pos best_length 0;
    Some (mkMatcher hash_table' prev' (pos + best_length) tokens')
  else
    b ← array_get data pos;
    tokens' ← push_token size (m_tokens st) (Token.mk (Z_of_byte b) 0 0);
    '(hash_table', prev') ←
      (if pos + 2 <? size then insert_hash data hash_table prev pos
       else Some (hash_table, prev));
    Some (mkMatcher hash_table' prev' (pos + 1) tokens').

Fixpoint lz77_loop (fuel : nat) (data : list byte) (size : Z) (st : Matcher)
    : option (list LZ77Token) :=
  if m_pos st <? size then
    match fuel with
    | O => None
    | S fuel' => st' ← lz77_step data size st; lz77_loop fuel' data size st'
    end
  else Some (m_tokens st).

(** The state on entry to the main loop: every hash head is [-1], [prev] is
    uninitialised. *)
Definition lz77_init (data : list byte) : Matcher :=
  mkMatcher (replicate (Z.to_nat HASH_SIZE) (-1)) (replicate (length data) None) 0 [].

Definition lz77_compress (data : list byte) : option (list LZ77Token) :=
  lz77_loop (length data) data (Z.of_nat (length data)) (lz77_init data).

(** The states the main loop passes through at its head. *)
Inductive lz77_reach (data : list byte) : Matcher → Prop :=
  | reach_init : lz77_reach data (lz77_init data)
  | reach_step st st' :
      lz77_reach data st →
      m_pos st < Z.of_nat (length data) →
      lz77_step data (Z.of_nat (length data)) st = Some st' →
      lz77_reach data st'.

(** The state at the head of the main loop after [k] iterations (or at the
    end of the loop, when it ends before). *)
Fixpoint lz77_run (k : nat) (data : list byte) (st : Matcher) : Matcher :=
  match k with
  | O => st
  | S k' =>
    if m_pos st <? Z.of_nat (length data) then
      match lz77_step data (Z.of_nat (length data)) st with
      | Some st' => lz77_run k' data st'
      | None => st
      end
    else st
  end.

(** ** Code tables *)

Definition length_base : list Z :=
  [3; 4; 5; 6; 7; 8; 9; 10; 11; 13; 15; 17; 19; 23; 27; 31;
   35; 43; 51; 59; 67; 83; 99; 115; 131; 163; 195; 227; 258].

Definition length_extra : list Z :=
  [0; 0; 0; 0; 0; 0; 0; 0; 1; 1; 1; 1; 2; 2; 2; 2;
   3; 3; 3; 3; 4; 4; 4; 4; 5; 5; 5; 5; 0].

Definition dist_base : list Z :=
  [1; 2; 3; 4; 5; 7; 9; 13; 17; 25; 33; 49; 65; 97; 129; 193;
   257; 385; 513; 769; 1025; 1537; 2049; 3073; 4097; 6145;
   8193; 12289; 16385; 24577].

Definition dist_extra : list Z :=
  [0; 0; 0; 0; 1; 1; 2; 2; 3; 3; 4; 4; 5; 5; 6; 6;
   7; 7; 8; 8; 9; 9; 10; 10; 11; 11; 12; 12; 13; 13].

(** The loop shared by [get_length_code] and [get_distance_code]:
    [for (i = 0; i < ncodes; i++)
       if (base[i] <= value && (i == ncodes - 1 || value < base[i + 1]))
         { *code = first + i; *extra_bits = extra[i];
           *extra_value = value - base[i]; return; }]
    [out] holds the three output cells, unchanged when the loop falls
    through. *)
Fixpoint code_loop (fuel : nat) (base extra : list Z) (ncodes first value i : Z)
    (out : Z * Z * Z) : option (Z * Z * Z) :=
  if i <? ncodes then
    let continue :=
      match fuel with
      | O => None
      | S fuel' => code_loop fuel' base extra ncodes first value (i + 1) out
      end in
    b ← array_get base i;
    if b <=? value then
      below ← (if i =? ncodes - 1 then Some true
               else nxt ← array_get base (i + 1); Some (value <? nxt));
      if below : bool then
        e ← array_get extra i;
        Some (first + i, e, value - b)
      else continue
    else continue
  else Some out.

Definition get_length_code (length : Z) (out : Z * Z * Z) : option (Z * Z * Z) :=
  code_loop (Z.to_nat LENGTH_CODES) length_base length_extra LENGTH_CODES 257 length 0 out.

Definition get_distance_code (distance : Z) (out : Z * Z * Z) : option (Z * Z * Z) :=
  code_loop (Z.to_nat DIST_CODES) dist_base dist_extra DIST_CODES 0 distance 0 out.

(** ** Block encoder *)

(** [for (j = 0; j < 5; j++) if (dist_code & (1 << j)) reversed_dist |= (1 << (4 - j));] *)
Definition reversed_dist (dist_code : Z) : Z :=
  fold_left
    (fun r j => if Z.land dist_code (Z.shiftl 1 j) =? 0 then r
                else Z.lor r (Z.shiftl 1 (4 - j)))
    [0; 1; 2; 3; 4] 0.

(** The body of the token loop of [deflate_compress]. *)
Definition encode_token (bb : BitBuffer) (t : LZ77Token) : option BitBuffer :=
  if 0 <=? Token.literal t then
    let lit := Token.literal t in
    if lit <=? 143 then write_bits bb (48 + lit) 8
    else write_bits bb (400 + (lit - 144)) 9
  else
    '(len_code, len_extra_bits, len_extra_value) ←
      get_length_code (Token.length t) (0, 0, 0);
    bb ← (if len_code <=? 279 then write_bits bb (len_code - 256) 7
          else write_bits bb (192 + (len_code - 280)) 8);
    bb ← (if 0 <? len_extra_bits then write_bits bb len_extra_value len_extra_bits
          else Some bb);
    '(dist_code, dist_extra_bits, dist_extra_value) ←
      get_distance_code (Token.distance t) (0, 0, 0);
    bb ← write_bits bb (reversed_dist dist_code) 5;
    if 0 <? dist_extra_bits then write_bits bb dist_extra_value dist_extra_bits
    else Some bb.

Fixpoint encode_tokens (bb : BitBuffer) (tokens : list LZ77Token) : option BitBuffer :=
  match tokens with
  | [] => Some bb
  | t :: rest => bb' ← encode_token bb t; encode_tokens bb' rest
  end.

(** The bit-writing part of [deflate_compress] up to the end-of-block
    marker: buffer initialisation, block header, tokens, marker. *)
Definition write_block (input_size : Z) (tokens : list LZ77Token) : option BitBuffer :=
  let buffer_size := if 1024 <? input_size * 2 then input_size * 2 else 1024 in
  let bb := init_bitbuffer buffer_size in
  bb ← write_bits bb 1 1;
  bb ← write_bits bb 1 2;
  bb ← encode_tokens bb tokens;
  write_bits bb 0 7.

Definition encode_block (input_size : Z) (tokens : list LZ77Token) : option BitBuffer :=
  bb ← write_block input_size tokens;
  flush_bits bb.

(** The tokens [deflate_compress] works on: [lz77_compress] is called only
    for a non-empty input. *)
Definition deflate_tokens (input_data : list byte) : option (list LZ77Token) :=
  if 0 <? Z.of_nat (length input_data) then lz77_compress input_data else Some [].

(** [deflate_compress] between reading the input and opening the output.
    The symbol frequencies, Huffman trees and Huffman codes the function
    also computes are never read by the bit-writing part and are left out. *)
Definition deflate_bytes (input_data : list byte) : option (list byte) :=
  tokens ← deflate_tokens input_data;
  bb ← encode_block (Z.of_nat (length input_data)) tokens;
  Some (written bb).

(** ** Files *)

(** What the C library does for one run: [input_file] is the content of the
    input file ([None] when [fopen] fails), [fread_count] the number of
    bytes [fread] delivers, [output_opens] whether [fopen] of the output file
    succeeds, and [fwrite_count] the number of bytes [fwrite] manages to
    write. *)
Record Files : Type := mkFiles {
  input_file : option (list byte);
  fread_count : nat;
  output_opens : bool;
  fwrite_count : nat
}.

(** The exit code and the content of the output file ([None] when the file
    was never opened for writing). *)
Record Outcome : Type := mkOutcome {
  exit_code : Z;
  output_file : option (list byte)
}.

Definition deflate_compress (fs : Files) : option Outcome :=
  match input_file fs with
  | None => Some (mkOutcome 1 None)
  | Some content =>
    let input_size := length content in
    let bytes_read := if (0 <? input_size)%nat then Nat.min (fread_count fs) input_size
                      else input_size in
    if negb (bytes_read =? input_size)%nat then Some (mkOutcome 1 None)
    else
      out ← deflate_bytes content;
      if output_opens fs
      then Some (mkOutcome 0 (Some (take (fwrite_count fs) out)))
      else Some (mkOutcome 1 None)
  end.

(** ** Notions the properties are stated with *)

(** *** Replaying a token stream *)

(** Copy [len] bytes from [dist] bytes back, one byte at a time, so that the
    source may run into the bytes just written. *)
Fixpoint copy_match (len dist : nat) (out : list byte) : option (list byte) :=
  match len with
  | O => Some out
  | S len' =>
    if (1 <=? dist)%nat && (dist <=? length out)%nat then
      b ← out !! (length out - dist)%nat;
      copy_match len' dist (out ++ [b])
    else None
  end.

Definition is_literal (t : LZ77Token) : bool := 0 <=? Token.literal t.

Definition replay_token (out : list byte) (t : LZ77Token) : option (list byte) :=
  if is_literal t then Some (out ++ [byte_of_Z (Token.literal t)])
  else if 1 <=? Token.distance t
  then copy_match (Z.to_nat (Token.length t)) (Z.to_nat (Token.distance t)) out
  else None.

Fixpoint replay_from (out : list byte) (tokens : list LZ77Token) : option (list byte) :=
  match tokens with
  | [] => Some out
  | t :: rest => out' ← replay_token out t; replay_from out' rest
  end.

Definition replay (tokens : list LZ77Token) : option (list byte) :=
  replay_from [] tokens.

(** The number of input positions a token covers. *)
Definition advance (t : LZ77Token) : Z :=
  if is_literal t then 1 else Token.length t.

(** Each token with the stream position it is emitted at. *)
Fixpoint positions_from (p : Z) (tokens : list LZ77Token) : list (Z * LZ77Token) :=
  match tokens with
  | [] => []
  | t :: rest => (p, t) :: positions_from (p + advance t) rest
  end.

Definition token_positions (tokens : list LZ77Token) : list (Z * LZ77Token) :=
  positions_from 0 tokens.

(** A match token emitted at position [p] of the input [S]. *)
Definition valid_match (S : list byte) (p : Z) (t : LZ77Token) : Prop :=
  3 <= Token.length t <= 258 ∧
  1 <= Token.distance t <= Z.min 32768 p ∧
  copy_match (Z.to_nat (Token.length t)) (Z.to_nat (Token.distance t))
             (take (Z.to_nat p) S)
  = Some (take (Z.to_nat (p + Token.length t)) S).

(** *** The candidates of one hash-chain walk *)

(** The (distance, match length) pairs [search_chain] examines, in order. *)
Fixpoint chain_visits (links : nat) (data : list byte) (prev : list (option Z))
    (size pos match_pos : Z) : option (list (Z * Z)) :=
  match links with
  | O => Some []
  | S links' =>
    if 0 <=? match_pos then
      let distance := to_int (pos - match_pos) in
      if (MAX_DIST <? distance) || (distance <=? 0)
      then Some []
      else
        let max_len := to_int (if size - pos <? MAX_MATCH then size - pos else MAX_MATCH) in
        len ← match_length (Z.to_nat max_len) data match_pos pos max_len 0;
        next ← load_prev prev match_pos;
        rest ← chain_visits links' data prev size pos next;
        Some ((distance, len) :: rest)
    else Some []
  end.

(** The replacement rule: a candidate (distance, length) replaces the best
    (length, distance) only when it is at least [MIN_MATCH] long and
    strictly longer. *)
Definition update_best (best cand : Z * Z) : Z * Z :=
  if (MIN_MATCH <=? cand.2) && (best.1 <? cand.2) then (cand.2, cand.1) else best.

(** Distances grow strictly along the list. *)
Fixpoint nearest_first (visits : list (Z * Z)) : Prop :=
  match visits with
  | [] => True
  | v :: rest =>
    match rest with
    | [] => True
    | w :: _ => v.1 < w.1
    end ∧ nearest_first rest
  end.

(** *** The output as a stream of bits *)

(** Bit [i] of a byte sequence: bit [i mod 8] of byte [i / 8]. *)
Definition stream_bit (bs : list byte) (i : Z) : option bool :=
  b ← array_get bs (i / 8);
  Some (Z.testbit (Z_of_byte b) (i mod 8)).

(** The byte sequence read as one little-endian number. *)
Fixpoint le_value (bs : list byte) : Z :=
  match bs with
  | [] => 0
  | b :: rest => Z_of_byte b + 256 * le_value rest
  end.

(** A sequence of [write_bits] calls, each a pair (value, bit count). *)
Fixpoint write_all (bb : BitBuffer) (calls : list (Z * Z)) : option BitBuffer :=
  match calls with
  | [] => Some bb
  | (v, n) :: rest => bb' ← write_bits bb v n; write_all bb' rest
  end.

(** The number of bits a sequence of calls asks to write. *)
Definition total_bits (calls : list (Z * Z)) : Z :=
  fold_right (fun c acc => c.2 + acc) 0 calls.

(** The bits in the accumulator at or above the pending count are zero. *)
Definition high_bits_clear (bb : BitBuffer) : Prop :=
  ∀ j, count bb <= j → Z.testbit (bits bb) j = false.

(** *** The tables as the specification lists them *)

Definition spec_length_base : list Z :=
  [3;4;5;6;7;8;9;10;11;13;15;17;19;23;27;31;35;43;51;59;67;83;99;115;131;163;195;227;258].

Definition spec_length_extra : list Z :=
  [0;0;0;0;0;0;0;0;1;1;1;1;2;2;2;2;3;3;3;3;4;4;4;4;5;5;5;5;0].

Definition spec_dist_base : list Z :=
  [1;2;3;4;5;7;9;13;17;25;33;49;65;97;129;193;257;385;513;769;1025;1537;2049;3073;
   4097;6145;8193;12289;16385;24577].

Definition spec_dist_extra : list Z :=
  [0;0;0;0;1;1;2;2;3;3;4;4;5;5;6;6;7;7;8;8;9;9;10;10;11;11;12;12;13;13].

(** The range-lookup rule of the specification: [i] is an index with
    [base[i] <= value] and ([i] is the last index or [value < base[i+1]]). *)
Definition in_range (base : list Z) (value : Z) (i : nat) : Prop :=
  ∃ b, base !! i = Some b ∧ b <= value ∧
       (S i = length base ∨ ∃ nxt, base !! S i = Some nxt ∧ value < nxt).

(** *** The reference decoder *)

(** The stream of bits of a byte sequence, least significant bit of each
    byte first. *)
Definition byte_bits (b : byte) : list bool :=
  map (Z.testbit (Z_of_byte b)) [0; 1; 2; 3; 4; 5; 6; 7].

Definition bitstream (bs : list byte) : list bool := concat (map byte_bits bs).

(** A field of [n] bits, least significant bit first. *)
Fixpoint read_bits (n : nat) (s : list bool) : option (Z * list bool) :=
  match n with
  | O => Some (0, s)
  | S n' =>
    match s with
    | [] => None
    | b :: s' => '(v, r) ← read_bits n' s'; Some (Z.b2z b + 2 * v, r)
    end
  end.

(** [n] further bits of a Huffman code, most significant bit first. *)
Fixpoint read_code (n : nat) (acc : Z) (s : list bool) : option (Z * list bool) :=
  match n with
  | O => Some (acc, s)
  | S n' =>
    match s with
    | [] => None
    | b :: s' => read_code n' (2 * acc + Z.b2z b) s'
    end
  end.

(** One literal/length symbol of the fixed Huffman code: 7-bit codes
    0000000-0010111 are symbols 256-279, 8-bit codes 00110000-10111111 are
    0-143, 8-bit codes 11000000-11000111 are 280-287 and 9-bit codes
    110010000-111111111 are 144-255. *)
Definition decode_symbol (s : list bool) : option (Z * list bool) :=
  '(c7, s7) ← read_code 7 0 s;
  if c7 <=? 23 then Some (256 + c7, s7)
  else
    '(c8, s8) ← read_code 1 c7 s7;
    if c8 <=? 191 then Some (c8 - 48, s8)
    else if c8 <=? 199 then Some (280 + (c8 - 192), s8)
    else
      '(c9, s9) ← read_code 1 c8 s8;
      Some (144 + (c9 - 400), s9).

(** The symbols of one fixed-Huffman block up to its end-of-block symbol. *)
Fixpoint inflate_fixed (fuel : nat) (s : list bool) (out : list byte)
    : option (list byte * list bool) :=
  match fuel with
  | O => None
  | S fuel' =>
    '(sym, s) ← decode_symbol s;
    if sym <? 256 then inflate_fixed fuel' s (out ++ [byte_of_Z sym])
    else if sym =? 256 then Some (out, s)
    else
      base ← array_get spec_length_base (sym - 257);
      extra ← array_get spec_length_extra (sym - 257);
      '(ev, s) ← read_bits (Z.to_nat extra) s;
      '(dcode, s) ← read_code 5 0 s;
      dbase ← array_get spec_dist_base dcode;
      dextra ← array_get spec_dist_extra dcode;
      '(dv, s) ← read_bits (Z.to_nat dextra) s;
      out ← copy_match (Z.to_nat (base + ev)) (Z.to_nat (dbase + dv)) out;
      inflate_fixed fuel' s out
  end.

Fixpoint inflate_blocks (fuel : nat) (s : list bool) (out : list byte)
    : option (list byte) :=
  match fuel with
  | O => None
  | S fuel' =>
    '(bfinal, s) ← read_bits 1 s;
    '(btype, s) ← read_bits 2 s;
    if btype =? 1 then
      '(out, s) ← inflate_fixed (length s) s out;
      if bfinal =? 1 then Some out else inflate_blocks fuel' s out
    else None
  end.

(** The reference raw-DEFLATE inflate that the round-trip property is
    checked against.  The repository contains no decoder; this one follows
    RFC 1951 for streams of fixed-Huffman blocks (header bits BFINAL and
    BTYPE, Huffman codes packed most significant bit first, extra bits least
    significant bit first) and rejects stored and dynamic blocks, which the
    compressor never emits. *)
Definition inflate (bs : list byte) : option (list byte) :=
  inflate_blocks (length (bitstream bs)) (bitstream bs) [].

(** *** Bit buffer invariants *)

(** The heap block has [capacity] bytes, of which [pos] are written. *)
Definition buffer_ok (bb : BitBuffer) : Prop :=
  0 < capacity bb ∧ 0 <= pos bb <= capacity bb ∧
  length (output bb) = Z.to_nat (capacity bb) ∧ 0 <= bits bb.

(** The written bytes followed by the accumulator, as one number. *)
Definition stream_value (bb : BitBuffer) : Z :=
  le_value (written bb) + bits bb * 2 ^ (8 * pos bb).

(** The number of bits packed so far. *)
Definition bits_written (bb : BitBuffer) : Z := 8 * pos bb + count bb.


(** Between calls the accumulator holds fewer than eight bits, and nothing
    above them. *)
Definition pending_ok (bb : BitBuffer) : Prop :=
  0 <= count bb < 8 ∧ 0 <= bits bb < 2 ^ count bb.


(** *** Sequences of [write_bits] calls *)

(** The precondition of the contract: each value fits its bit count. *)
Definition calls_small (calls : list (Z * Z)) : Prop :=
  Forall (fun c => 0 <= c.1 < 2 ^ c.2) calls.

(** Each value fits its bit count, and the pending bits (the bits written so
    far, [written_before], modulo 8) together with the new ones fit the
    32-bit accumulator. *)
Fixpoint calls_fit (written_before : Z) (calls : list (Z * Z)) : Prop :=
  match calls with
  | [] => True
  | c :: rest =>
    0 <= c.1 < 2 ^ c.2 ∧ written_before mod 8 + c.2 <= 32 ∧
    calls_fit (written_before + c.2) rest
  end.

(** The values of a sequence of calls laid one after the other, least
    significant first. *)
Fixpoint packed (calls : list (Z * Z)) : Z :=
  match calls with
  | [] => 0
  | c :: rest => c.1 + 2 ^ c.2 * packed rest
  end.


(** *** Matcher invariants *)

(** The number of input positions a token stream covers. *)
Definition covered (tokens : list LZ77Token) : Z :=
  fold_right (fun t acc => advance t + acc) 0 tokens.

(** A chain entry [m] is the end marker [-1] or a position below [bound]
    whose [prev] cell has been stored to. *)
Definition chain_ok (prev : list (option Z)) (bound m : Z) : Prop :=
  m = -1 ∨ (0 <= m < bound ∧ ∃ v, load_prev prev m = Some v).

(** The hash heads and the [prev] links refer to positions below [bound],
    and every link leads strictly backwards. *)
Definition chains_ok (data : list byte) (hash_table : list Z)
    (prev : list (option Z)) (bound : Z) : Prop :=
  length hash_table = Z.to_nat HASH_SIZE ∧
  length prev = length data ∧
  (∀ h m, array_get hash_table h = Some m → chain_ok prev bound m) ∧
  (∀ p v, load_prev prev p = Some v → p < bound ∧ chain_ok prev p v).

(** A candidate (distance, length) at [pos]: the distance stays inside the
    window and the input, and [length] bytes at the candidate equal those at
    [pos]. *)
Definition visit_ok (data : list byte) (pos : Z) (v : Z * Z) : Prop :=
  1 <= v.1 <= 32768 ∧ v.1 <= pos ∧
  0 <= v.2 <= 258 ∧ pos + v.2 <= Z.of_nat (length data) ∧
  ∀ k, 0 <= k < v.2 →
       data !! Z.to_nat (pos - v.1 + k) = data !! Z.to_nat (pos + k).

(** The best (length, distance) is still the initial (0, 0) or a candidate
    of at least [MIN_MATCH] bytes. *)
Definition best_ok (data : list byte) (pos : Z) (best : Z * Z) : Prop :=
  best = (0, 0) ∨ (3 <= best.1 ∧ visit_ok data pos (best.2, best.1)).

(** What a token at position [p] of the input [S] must be. *)
Definition token_ok (S : list byte) (pt : Z * LZ77Token) : Prop :=
  if is_literal pt.2
  then ∃ b, array_get S pt.1 = Some b ∧ pt.2 = Token.mk (Z_of_byte b) 0 0
  else valid_match S pt.1 pt.2.

(** The invariant of the main loop of [lz77_compress]. *)
Definition matcher_ok (data : list byte) (st : Matcher) : Prop :=
  0 <= m_pos st <= Z.of_nat (length data) ∧
  chains_ok data (m_hash_table st) (m_prev st) (m_pos st) ∧
  Z.of_nat (length (m_tokens st)) <= m_pos st ∧
  covered (m_tokens st) = m_pos st ∧
  replay (m_tokens st) = Some (take (Z.to_nat (m_pos st)) data) ∧
  Forall (token_ok data) (token_positions (m_tokens st)).


(** *** The block encoder as the specification describes it *)

(** Bit [k] of the result is bit [4 - k] of [x]. *)
Definition spec_reverse5 (x : Z) : Z :=
  fold_right (fun k acc => Z.b2z (Z.testbit x (4 - k)) * 2 ^ k + acc) 0 [0; 1; 2; 3; 4].

(** The [pack] call of a literal byte. *)
Definition spec_literal_fields (b : Z) : list (Z * Z) :=
  if b <=? 143 then [(48 + b, 8)] else [(400 + (b - 144), 9)].

(** The [pack] call of a length code. *)
Definition spec_code_field (len_code : Z) : Z * Z :=
  if len_code <=? 279 then (len_code - 256, 7) else (192 + (len_code - 280), 8).

(** The [pack] call of the extra bits, if there are any. *)
Definition spec_extra_field (extra_bits extra_value : Z) : list (Z * Z) :=
  if 0 <? extra_bits then [(extra_value, extra_bits)] else [].

(** The [pack] calls of one token. *)
Inductive spec_token_fields : LZ77Token → list (Z * Z) → Prop :=
  | fields_literal t :
      is_literal t = true →
      spec_token_fields t (spec_literal_fields (Token.literal t))
  | fields_match t i b e j db de :
      is_literal t = false →
      in_range spec_length_base (Token.length t) i →
      spec_length_base !! i = Some b → spec_length_extra !! i = Some e →
      in_range spec_dist_base (Token.distance t) j →
      spec_dist_base !! j = Some db → spec_dist_extra !! j = Some de →
      spec_token_fields t
        ([spec_code_field (257 + Z.of_nat i)]
         ++ spec_extra_field e (Token.length t - b)
         ++ [(spec_reverse5 (Z.of_nat j), 5)]
         ++ spec_extra_field de (Token.distance t - db)).

(** The [pack] calls of a block: BFINAL, BTYPE, the tokens, end of block. *)
Definition spec_block_fields (fieldss : list (list (Z * Z))) : list (Z * Z) :=
  [(1, 1); (1, 2)] ++ concat fieldss ++ [(0, 7)].

(** Each range of a table is at most as wide as its extra bits can count. *)
Fixpoint widths_ok (base extra : list Z) : Prop :=
  match base, extra with
  | b :: (nxt :: _) as rest, e :: extra' => nxt - b <= 2 ^ e ∧ widths_ok rest extra'
  | _, _ => True
  end.

(** A [pack] call the encoder may make at any time: the value fits the bit
    count, and the bit count fits the accumulator above seven pending bits. *)
Definition field_ok (c : Z * Z) : Prop := 0 <= c.1 < 2 ^ c.2 ∧ c.2 <= 25.


(** *** Further notions for the matcher *)

(** A match token at [p] is extended as far as it goes: its length is the
    cap min(258, size - p), or the byte after the copy source differs from
    the byte after the match. *)
Definition match_maximal (data : list byte) (p : Z) (t : LZ77Token) : Prop :=
  Token.length t = Z.min 258 (Z.of_nat (length data) - p) ∨
  data !! Z.to_nat (p - Token.distance t + Token.length t)
  ≠ data !! Z.to_nat (p + Token.length t).


(** ** Symbol frequencies *)

Definition LITERALS : Z := 256.
Definition MAX_CODES : Z := LITERALS + 1 + LENGTH_CODES.

(** [freq[i]++] on a cell of an [int] array. *)
Definition bump (freq : list Z) (i : Z) : option (list Z) :=
  v ← array_get freq i;
  if v <? INT_MAX then array_set freq i (v + 1) else None.

(** The body of the frequency loop of [deflate_compress].  The cells
    [code], [extra_bits] and [extra_value] are set to zero for each match
    token and are shared by the two lookups. *)
Definition count_token (lit_freq dist_freq : list Z) (t : LZ77Token) :
    option (list Z * list Z) :=
  if 0 <=? Token.literal t then
    lit_freq ← bump lit_freq (Token.literal t);
    Some (lit_freq, dist_freq)
  else
    out ← get_length_code (Token.length t) (0, 0, 0);
    lit_freq ← bump lit_freq out.1.1;
    out ← get_distance_code (Token.distance t) out;
    dist_freq ← bump dist_freq out.1.1;
    Some (lit_freq, dist_freq).

Fixpoint count_tokens (lit_freq dist_freq : list Z) (tokens : list LZ77Token) :
    option (list Z * list Z) :=
  match tokens with
  | [] => Some (lit_freq, dist_freq)
  | t :: rest =>
      '(lit_freq, dist_freq) ← count_token lit_freq dist_freq t;
      count_tokens lit_freq dist_freq rest
  end.

(** [int lit_freq[MAX_CODES] = {0}; int dist_freq[DIST_CODES] = {0};], the
    token loop and [lit_freq[256]++]. *)
Definition count_frequencies (tokens : list LZ77Token) : option (list Z * list Z) :=
  '(lit_freq, dist_freq) ←
    count_tokens (replicate (Z.to_nat MAX_CODES) 0) (replicate (Z.to_nat DIST_CODES) 0)
                 tokens;
  lit_freq ← bump lit_freq 256;
  Some (lit_freq, dist_freq).

(** *** What the frequencies count *)

(** The literal/length symbol of a token: the byte of a literal, 257 plus
    the index of the length range of a match. *)
Definition lit_symbol (t : LZ77Token) (s : Z) : Prop :=
  if is_literal t then s = Token.literal t
  else ∃ i, in_range length_base (Token.length t) i ∧ s = 257 + Z.of_nat i.

(** The distance symbol of a match token. *)
Definition dist_symbol (t : LZ77Token) (s : Z) : Prop :=
  ∃ j, in_range dist_base (Token.distance t) j ∧ s = Z.of_nat j.

Definition match_tokens (tokens : list LZ77Token) : list LZ77Token :=
  List.filter (fun t => negb (is_literal t)) tokens.

(** [freq] has [n] cells, cell [s] holding the number of occurrences of [s]
    in [symbols], and every symbol has a cell. *)
Definition is_tally (n : Z) (symbols freq : list Z) : Prop :=
  Z.of_nat (length freq) = n ∧
  (∀ s, 0 <= s < n →
        freq !! Z.to_nat s = Some (Z.of_nat (count_occ Z.eq_dec symbols s))) ∧
  Forall (fun s => 0 <= s < n) symbols.


(** ** Huffman trees *)

(** A [HuffNode *]: [Null] or the node it points to.  Every node is a fresh
    heap block, so a tree shares nothing. *)
Inductive HuffNode : Type :=
  | Null : HuffNode
  | Node (freq symbol : Z) (left right : HuffNode) : HuffNode.

Module Huff.
Record HuffCode : Type := mk { code : Z; length : Z }.
End Huff.
Abbreviation HuffCode := Huff.HuffCode.

Definition INT_MIN : Z := -2147483648.

(** The result of an [int] addition or subtraction; overflow is undefined. *)
Definition int_checked (x : Z) : option Z :=
  if (INT_MIN <=? x) && (x <=? INT_MAX) then Some x else None.

(** [node->freq]. *)
Definition node_freq (node : HuffNode) : option Z :=
  match node with
  | Null => None
  | Node freq _ _ _ => Some freq
  end.

Definition compare_nodes (na nb : HuffNode) : option Z :=
  fa ← node_freq na;
  fb ← node_freq nb;
  int_checked (fa - fb).

(** The leaf loop of [build_huffman_tree]; [nodes] is the filled part
    [nodes[0 .. node_count)] of the array of [num_symbols * 2] pointers. *)
Fixpoint make_leaves (fuel : nat) (freqs : list Z) (num_symbols i : Z)
    (nodes : list HuffNode) : option (list HuffNode) :=
  if i <? num_symbols then
    match fuel with
    | O => None
    | S fuel' =>
        f ← array_get freqs i;
        if 0 <? f then
          if Z.of_nat (length nodes) <? num_symbols * 2
          then make_leaves fuel' freqs num_symbols (i + 1) (nodes ++ [Node f i Null Null])
          else None
        else make_leaves fuel' freqs num_symbols (i + 1) nodes
    end
  else Some nodes.

Section Build.
(** The library function [qsort] on an array of node pointers. *)
Variable qsort : (HuffNode → HuffNode → option Z) → list HuffNode → option (list HuffNode).

(** [while (node_count > 1) { qsort(...); ... node_count--; }] and the final
    [nodes[0]]. *)
Fixpoint build_loop (fuel : nat) (nodes : list HuffNode) : option HuffNode :=
  match nodes with
  | [] => None
  | [root] => Some root
  | _ :: _ :: _ =>
      match fuel with
      | O => None
      | S fuel' =>
          sorted ← qsort compare_nodes nodes;
          match sorted with
          | lchild :: rchild :: rest =>
              fl ← node_freq lchild;
              fr ← node_freq rchild;
              f ← int_checked (fl + fr);
              build_loop fuel' (Node f (-1) lchild rchild :: rest)
          | _ => None
          end
      end
  end.

Definition build_huffman_tree (freqs : list Z) (num_symbols : Z) : option HuffNode :=
  nodes ← make_leaves (Z.to_nat num_symbols) freqs num_symbols 0 [];
  match nodes with
  | [] => Some (Node 1 0 Null Null)
  | [node] => f ← node_freq node; Some (Node f (-1) node Null)
  | _ => build_loop (length nodes) nodes
  end.
End Build.

(** ** Huffman codes *)

Definition to_uint16 (x : Z) : Z := x mod 65536.
Definition to_uint8 (x : Z) : Z := x mod 256.

(** [1 << depth] on an [int]: undefined from 31 on. *)
Definition shl1 (depth : Z) : option Z :=
  if depth <? 31 then Some (Z.shiftl 1 depth) else None.

(** [code] is a [uint16_t] and [depth] a [uint8_t]; the shift is only
    evaluated when there is a right child. *)
Fixpoint generate_codes (node : HuffNode) (codes : list HuffCode) (code depth : Z) :
    option (list HuffCode) :=
  match node with
  | Null => Some codes
  | Node _ symbol lchild rchild =>
      match lchild, rchild with
      | Null, Null => array_set codes symbol (Huff.mk code depth)
      | _, _ =>
          codes ← match lchild with
                  | Null => Some codes
                  | Node _ _ _ _ => generate_codes lchild codes code (to_uint8 (depth + 1))
                  end;
          match rchild with
          | Null => Some codes
          | Node _ _ _ _ =>
              bit ← shl1 depth;
              generate_codes rchild codes (to_uint16 (Z.lor code bit)) (to_uint8 (depth + 1))
          end
      end
  end.

(** *** What the trees and codes are *)

(** The (symbol, frequency) pairs of the positive cells of [freqs], the
    first cell having index [i]. *)
Fixpoint symbols_from (i : Z) (freqs : list Z) : list (Z * Z) :=
  match freqs with
  | [] => []
  | f :: rest => (if 0 <? f then [(i, f)] else []) ++ symbols_from (i + 1) rest
  end.

Definition positive_symbols (freqs : list Z) (num_symbols : Z) : list (Z * Z) :=
  symbols_from 0 (take (Z.to_nat num_symbols) freqs).

(** The leaf the first loop of [build_huffman_tree] makes for a cell. *)
Definition leaf_of (sf : Z * Z) : HuffNode := Node sf.2 sf.1 Null Null.

Definition freq_of (node : HuffNode) : Z :=
  match node with
  | Null => 0
  | Node freq _ _ _ => freq
  end.

(** The (symbol, frequency) pairs of the leaves, left to right. *)
Fixpoint leaves (node : HuffNode) : list (Z * Z) :=
  match node with
  | Null => []
  | Node freq symbol lchild rchild =>
      match lchild, rchild with
      | Null, Null => [(symbol, freq)]
      | _, _ => leaves lchild ++ leaves rchild
      end
  end.

(** A tree of merged nodes: a leaf has a positive frequency; a parent has
    two children, the left one no more frequent than the right one, symbol
    [-1] and the sum of their frequencies. *)
Inductive huff_ok : HuffNode → Prop :=
  | ok_leaf freq symbol : 0 < freq → huff_ok (Node freq symbol Null Null)
  | ok_parent lchild rchild :
      huff_ok lchild → huff_ok rchild → freq_of lchild <= freq_of rchild →
      huff_ok (Node (freq_of lchild + freq_of rchild) (-1) lchild rchild).

(** The leaves with their paths from the root ([false] = left), left to
    right. *)
Fixpoint paths (node : HuffNode) : list (Z * list bool) :=
  match node with
  | Null => []
  | Node _ symbol lchild rchild =>
      match lchild, rchild with
      | Null, Null => [(symbol, [])]
      | _, _ => ((fun sp => (sp.1, false :: sp.2)) <$> paths lchild)
                ++ ((fun sp => (sp.1, true :: sp.2)) <$> paths rchild)
      end
  end.

(** The number whose bit [k] is the [k]-th step of the path. *)
Fixpoint path_value (p : list bool) : Z :=
  match p with
  | [] => 0
  | b :: rest => Z.b2z b + 2 * path_value rest
  end.

(** A sorting function that meets the contract of [qsort], to run the
    model with. *)
Fixpoint insert_sorted {A} (cmp : A → A → option Z) (x : A) (l : list A) :
    option (list A) :=
  match l with
  | [] => Some [x]
  | y :: rest =>
      c ← cmp x y;
      if c <=? 0 then Some (x :: l)
      else sorted ← insert_sorted cmp x rest; Some (y :: sorted)
  end.

Fixpoint insertion_sort {A} (cmp : A → A → option Z) (l : list A) : option (list A) :=
  match l with
  | [] => Some []
  | x :: rest => sorted ← insertion_sort cmp rest; insert_sorted cmp x sorted
  end.

(** The sum of the frequencies of (symbol, frequency) pairs. *)
Definition total_freq (symbols : list (Z * Z)) : Z :=
  fold_right (fun sf acc => sf.2 + acc) 0 symbols.

(** The contract of [qsort] for [compare_nodes]: when the comparison is
    defined on the whole array, the array is rearranged into ascending order. *)
Definition qsort_contract
    (qsort : (HuffNode → HuffNode → option Z) → list HuffNode → option (list HuffNode)) :
    Prop :=
  ∀ nodes,
    (∀ a b, a ∈ nodes → b ∈ nodes → is_Some (compare_nodes a b)) →
    ∃ sorted, qsort compare_nodes nodes = Some sorted ∧ sorted ≡ₚ nodes ∧
              StronglySorted (fun a b => ∃ c, compare_nodes a b = Some c ∧ c <= 0) sorted.

(** A tree of [n] parents, each with a leaf to the left and the rest to
    the right. *)
Fixpoint right_comb (n : nat) : HuffNode :=
  match n with
  | O => Node 1 0 Null Null
  | S n' => Node 1 (-1) (Node 1 0 Null Null) (right_comb n')
  end.


(** *** The hash chains, exactly *)

(** The positions below [n] with three bytes to hash and hash value [h],
    the most recent first. *)
Fixpoint bucket (data : list byte) (h : Z) (n : nat) : list Z :=
  match n with
  | O => []
  | S n' =>
      if decide (hash3 data (Z.of_nat n') = Some h)
      then Z.of_nat n' :: bucket data h n'
      else bucket data h n'
  end.

(** Following [prev] from [m] passes through the positions [l], in this
    order, and then reaches the end marker [-1]. *)
Inductive chain_is (prev : list (option Z)) : Z → list Z → Prop :=
  | chain_end : chain_is prev (-1) []
  | chain_link m next l :
      0 <= m → load_prev prev m = Some next → chain_is prev next l →
      chain_is prev m (m :: l).

(** Every hash head starts the chain of all earlier positions of its hash
    value. *)
Definition chains_exact (data : list byte) (hash_table : list Z)
    (prev : list (option Z)) (pos : Z) : Prop :=
  ∀ h m, array_get hash_table h = Some m →
         chain_is prev m (bucket data h (Z.to_nat pos)).

(** The candidates the search at [p] has to beat: the 128 most recent
    earlier positions with the hash value of [p] that are at most
    [MAX_DIST] back. *)
Definition candidates (data : list byte) (p : Z) : list Z :=
  match hash3 data p with
  | Some h => List.filter (fun q => p - q <=? MAX_DIST) (take 128 (bucket data h (Z.to_nat p)))
  | None => []
  end.

(** The token at [p] is a match at least as long as every repeat of three
    or more bytes (and no more than fit) that starts at a candidate. *)
Definition beats_candidates (data : list byte) (p : Z) (t : LZ77Token) : Prop :=
  ∀ q k, q ∈ candidates data p →
         3 <= k <= Z.min 258 (Z.of_nat (length data) - p) →
         (∀ j, 0 <= j < k → data !! Z.to_nat (q + j) = data !! Z.to_nat (p + j)) →
         is_literal t = false ∧ k <= Token.length t.

(** *** Calls that lose no bit *)

(** Each value fits its bit count and, shifted above the pending bits (the
    bits written so far, [written_before], modulo 8), the 32-bit
    accumulator; the [int] counter can take the bit count on top of the
    pending bits. *)
Fixpoint calls_kept (written_before : Z) (calls : list (Z * Z)) : Prop :=
  match calls with
  | [] => True
  | c :: rest =>
    0 <= c.1 < 2 ^ c.2 ∧
    c.1 * 2 ^ (written_before mod 8) < 2 ^ 32 ∧
    written_before mod 8 + c.2 <= INT_MAX ∧
    calls_kept (written_before + c.2) rest
  end.

(** *** The matcher on inputs of any size *)

(** What a hash head holds: the most recent earlier position of the hash
    value, converted to [int], or [-1]. *)
Definition head_value (data : list byte) (h pos : Z) : Z :=
  match bucket data h (Z.to_nat pos) with
  | [] => -1
  | q :: _ => to_int q
  end.

(** A cell value: [-1] or a hashed position below [bound] converted to
    [int]. *)
Definition stored_ok (data : list byte) (bound m : Z) : Prop :=
  m = -1 ∨ ∃ p, 0 <= p < bound ∧ p + 2 < Z.of_nat (length data) ∧ m = to_int p.

(** The cells as the main loop keeps them, whatever the size of the input:
    every head is the converted most recent position, every stored [prev]
    link is a cell value, and every hashed position below [bound] has its
    [prev] cell stored. *)
Definition cells_safe (data : list byte) (hash_table : list Z)
    (prev : list (option Z)) (bound : Z) : Prop :=
  length hash_table = Z.to_nat HASH_SIZE ∧
  length prev = length data ∧
  (∀ h m, array_get hash_table h = Some m → m = head_value data h bound) ∧
  (∀ q v, load_prev prev q = Some v → stored_ok data bound v) ∧
  (∀ q, 0 <= q < bound → q + 2 < Z.of_nat (length data) →
        ∃ v, load_prev prev q = Some v).

Definition matcher_safe (data : list byte) (st : Matcher) : Prop :=
  0 <= m_pos st <= Z.of_nat (length data) ∧
  cells_safe data (m_hash_table st) (m_prev st) (m_pos st) ∧
  Z.of_nat (length (m_tokens st)) <= m_pos st ∧
  covered (m_tokens st) = m_pos st.

(** An input of 2^32 + 4 bytes: zero bytes, but for a byte 1 at position
    2^31 - 1 and a byte 0x20 at position 2^32.  The three bytes at 2^32 and
    those at 2^32 + 1 have the hash value 0 of the first three bytes. *)
Definition wrap_front : list byte :=
  replicate (Z.to_nat 2147483647) "000"%byte ++ ["001"%byte]
  ++ replicate (Z.to_nat 2147483648) "000"%byte.

Definition wrap_input : list byte :=
  wrap_front ++ [" "; "000"; "000"; "000"]%byte.

(** * Properties *)

(** ** C integers, bytes and arrays *)

Lemma to_int_id x : -2147483648 <= x <= INT_MAX → to_int x = x.
Proof.
  unfold to_int, INT_MAX. intros Hx.
  rewrite Z.mod_small by lia. lia.
Qed.

Lemma to_uint32_range x : 0 <= to_uint32 x < 4294967296.
Proof. unfold to_uint32. apply Z.mod_pos_bound. lia. Qed.

Lemma to_uint32_id x : 0 <= x < 4294967296 → to_uint32 x = x.
Proof. unfold to_uint32. intros Hx. apply Z.mod_small. lia. Qed.

Lemma Z_of_byte_range b : 0 <= Z_of_byte b < 256.
Proof.
  unfold Z_of_byte. pose proof (Byte.to_N_bounded b) as Hb. lia.
Qed.

Lemma land_255_mod z : Z.land z 255 = z mod 256.
Proof. change 255 with (Z.ones 8). rewrite Z.land_ones by lia. reflexivity. Qed.

Lemma Z_of_byte_of_Z z : Z_of_byte (byte_of_Z z) = z mod 256.
Proof.
  unfold byte_of_Z, Z_of_byte. rewrite land_255_mod.
  pose proof (Z.mod_pos_bound z 256 ltac:(lia)) as Hr.
  destruct (Byte.of_N (Z.to_N (z mod 256))) as [b|] eqn:E.
  - apply Byte.to_of_N in E. rewrite E. lia.
  - apply Byte.of_N_None_iff in E. lia.
Qed.

Lemma byte_of_Z_of_byte b : byte_of_Z (Z_of_byte b) = b.
Proof.
  unfold byte_of_Z, Z_of_byte. rewrite land_255_mod.
  pose proof (Byte.to_N_bounded b) as Hb.
  rewrite Z.mod_small by lia. rewrite N2Z.id, Byte.of_to_N. reflexivity.
Qed.

Lemma byte_eqb_eq (a b : byte) : Byte.eqb a b = true ↔ a = b.
Proof.
  split.
  - intros H. apply Byte.byte_dec_bl. exact H.
  - intros ->. apply Byte.byte_dec_lb. reflexivity.
Qed.

Lemma array_get_Some {A} (a : list A) i x :
  array_get a i = Some x ↔ 0 <= i ∧ a !! Z.to_nat i = Some x.
Proof.
  unfold array_get. destruct (Z.ltb_spec i 0); split; intros H'.
  - discriminate.
  - lia.
  - split; [lia | exact H'].
  - apply H'.
Qed.

Lemma array_get_in_range {A} (a : list A) i :
  0 <= i < Z.of_nat (length a) → ∃ x, array_get a i = Some x.
Proof.
  intros Hi. destruct (lookup_lt_is_Some_2 a (Z.to_nat i)) as [x Hx]; [lia|].
  exists x. apply array_get_Some. split; [lia | exact Hx].
Qed.

Lemma array_get_bound {A} (a : list A) i x :
  array_get a i = Some x → 0 <= i < Z.of_nat (length a).
Proof.
  intros [H0 H]%array_get_Some. apply lookup_lt_Some in H. lia.
Qed.

Lemma array_set_in_range {A} (a : list A) i v :
  0 <= i < Z.of_nat (length a) →
  array_set a i v = Some (<[Z.to_nat i := v]> a).
Proof.
  intros Hi. unfold array_set.
  destruct (Z.leb_spec 0 i); [|lia].
  destruct (Z.ltb_spec i (Z.of_nat (length a))); [|lia]. reflexivity.
Qed.

Lemma array_set_Some {A} (a a' : list A) i v :
  array_set a i v = Some a' →
  0 <= i < Z.of_nat (length a) ∧ a' = <[Z.to_nat i := v]> a.
Proof.
  unfold array_set.
  destruct (Z.leb_spec 0 i); destruct (Z.ltb_spec i (Z.of_nat (length a)));
    simpl; intros H'; try discriminate.
  injection H' as <-. split; [lia | reflexivity].
Qed.

Lemma array_get_set_eq {A} (a : list A) i v :
  0 <= i < Z.of_nat (length a) →
  array_get (<[Z.to_nat i := v]> a) i = Some v.
Proof.
  intros Hi. apply array_get_Some. split; [lia|].
  apply list_lookup_insert_eq. lia.
Qed.

Lemma array_get_set_ne {A} (a : list A) i j v :
  0 <= i → i ≠ j →
  array_get (<[Z.to_nat i := v]> a) j = array_get a j.
Proof.
  intros Hi Hne. unfold array_get. destruct (Z.ltb_spec j 0); [reflexivity|].
  apply list_lookup_insert_ne. lia.
Qed.

(** ** Bit buffer *)

Lemma le_value_nonneg bs : 0 <= le_value bs.
Proof.
  induction bs as [|b bs IH]; simpl; [lia|].
  pose proof (Z_of_byte_range b). lia.
Qed.

Lemma le_value_bound bs : le_value bs < 2 ^ (8 * Z.of_nat (length bs)).
Proof.
  induction bs as [|b bs IH]; simpl length; [simpl; lia|].
  cbn [le_value]. pose proof (Z_of_byte_range b).
  replace (8 * Z.of_nat (S (length bs))) with (8 + 8 * Z.of_nat (length bs)) by lia.
  rewrite Z.pow_add_r by lia. change (2 ^ 8) with 256. lia.
Qed.

Lemma le_value_app l b :
  le_value (l ++ [b]) = le_value l + Z_of_byte b * 2 ^ (8 * Z.of_nat (length l)).
Proof.
  induction l as [|a l IH]; simpl length.
  - simpl. lia.
  - cbn [app le_value]. rewrite IH.
    replace (8 * Z.of_nat (S (length l))) with (8 + 8 * Z.of_nat (length l)) by lia.
    rewrite Z.pow_add_r by lia. change (2 ^ 8) with 256. lia.
Qed.

Lemma length_written bb :
  buffer_ok bb → Z.of_nat (length (written bb)) = pos bb.
Proof.
  intros (Hc & Hp & Hl & _). unfold written.
  rewrite length_take_le by lia. lia.
Qed.

Lemma emit_byte_spec bb :
  buffer_ok bb →
  ∃ bb', emit_byte bb = Some bb' ∧ buffer_ok bb' ∧
         capacity bb <= capacity bb' ∧ pos bb' = pos bb + 1 ∧
         count bb' = count bb - 8 ∧ bits bb' = bits bb / 256 ∧
         written bb' = written bb ++ [byte_of_Z (Z.land (bits bb) 255)].
Proof.
  intros (Hc & Hp & Hl & Hb).
  set (bb1 := if capacity bb <=? pos bb then grow bb else bb).
  assert (H1 : bits bb1 = bits bb ∧ count bb1 = count bb ∧ pos bb1 = pos bb ∧
               capacity bb <= capacity bb1 ∧ pos bb1 < capacity bb1 ∧
               length (output bb1) = Z.to_nat (capacity bb1) ∧
               take (Z.to_nat (pos bb)) (output bb1) = take (Z.to_nat (pos bb)) (output bb)).
  { subst bb1. destruct (Z.leb_spec (capacity bb) (pos bb)).
    - unfold grow; simpl. rewrite length_resize.
      repeat split; try lia.
      rewrite take_resize_le by lia. rewrite resize_le by lia. reflexivity.
    - repeat split; lia. }
  destruct H1 as (Eb & Ec & Ep & Hcap & Hlt & Hlen & Htake).
  unfold emit_byte. fold bb1.
  rewrite array_set_in_range by lia. simpl.
  eexists; split; [reflexivity|]. unfold buffer_ok. simpl.
  rewrite Eb, Ec, Ep. repeat split; try lia.
  - rewrite length_insert. exact Hlen.
  - apply Z.shiftr_nonneg. exact Hb.
  - apply Z.shiftr_div_pow2. lia.
  - unfold written; simpl.
    replace (Z.to_nat (pos bb + 1)) with (S (Z.to_nat (pos bb))) by lia.
    erewrite take_S_r; [|apply list_lookup_insert_eq; lia].
    rewrite take_insert_ge by lia. rewrite Htake. reflexivity.
Qed.

Lemma emit_byte_stream_value bb bb' :
  buffer_ok bb → emit_byte bb = Some bb' → stream_value bb' = stream_value bb.
Proof.
  intros Hok He. pose proof (length_written bb Hok) as Hlw.
  destruct (emit_byte_spec bb Hok) as (bb2 & He2 & Hok2 & _ & Hp & _ & Hb & Hw).
  rewrite He in He2. injection He2 as <-.
  unfold stream_value. rewrite Hw, le_value_app, Hlw, Hp, Hb.
  rewrite Z_of_byte_of_Z, land_255_mod, Z.mod_mod by lia.
  destruct Hok as (_ & Hpos & _ & _).
  replace (8 * (pos bb + 1)) with (8 + 8 * pos bb) by lia.
  rewrite Z.pow_add_r by lia. change (2 ^ 8) with 256.
  pose proof (Z.div_mod (bits bb) 256 ltac:(lia)). nia.
Qed.

Lemma write_bits_loop_spec fuel : ∀ bb,
  buffer_ok bb → 0 <= count bb → count bb / 8 <= Z.of_nat fuel →
  ∃ bb', write_bits_loop fuel bb = Some bb' ∧ buffer_ok bb' ∧
         capacity bb <= capacity bb' ∧
         pos bb' = pos bb + count bb / 8 ∧
         count bb' = count bb mod 8 ∧
         bits bb' = bits bb / 2 ^ (8 * (count bb / 8)) ∧
         stream_value bb' = stream_value bb.
Proof.
  induction fuel as [|fuel IH]; intros bb Hok Hc Hfuel.
  - assert (count bb < 8) by (pose proof (Z.div_le_lower_bound (count bb) 8 1); lia).
    exists bb. simpl. destruct (Z.leb_spec 8 (count bb)); [lia|].
    rewrite Z.div_small, Z.mod_small by lia. rewrite Z.mul_0_r, Z.div_1_r.
    repeat split; try lia; apply Hok.
  - cbn [write_bits_loop]. destruct (Z.leb_spec 8 (count bb)) as [Hge|Hlt].
    + destruct (emit_byte_spec bb Hok) as (bb1 & He & Hok1 & Hcap & Hp & Hcnt & Hb & Hw).
      pose proof (emit_byte_stream_value bb bb1 Hok He) as Hsv.
      rewrite He. simpl.
      assert (Hdiv : count bb / 8 = count bb1 / 8 + 1).
      { rewrite Hcnt. replace (count bb) with ((count bb - 8) + 1 * 8) at 1 by lia.
        rewrite Z.div_add by lia. reflexivity. }
      assert (Hmod : count bb mod 8 = count bb1 mod 8).
      { rewrite Hcnt. replace (count bb) with ((count bb - 8) + 1 * 8) at 1 by lia.
        rewrite Z.mod_add by lia. reflexivity. }
      destruct (IH bb1 Hok1 ltac:(lia) ltac:(lia))
        as (bb' & Hl & Hok' & Hcap' & Hp' & Hcnt' & Hb' & Hsv').
      exists bb'. split; [exact Hl|]. split; [exact Hok'|].
      assert (0 <= count bb1 / 8) by (apply Z.div_pos; lia).
      repeat split; try lia.
      * rewrite Hb', Hb, Hdiv.
        replace (8 * (count bb1 / 8 + 1)) with (8 + 8 * (count bb1 / 8)) by lia.
        rewrite Z.pow_add_r by lia. change (2 ^ 8) with 256.
        rewrite Z.div_div by lia. reflexivity.
    + exists bb. rewrite Z.div_small, Z.mod_small by lia.
      rewrite Z.mul_0_r, Z.div_1_r. repeat split; try lia; apply Hok.
Qed.

Lemma testbit_small a k i : 0 <= a < 2 ^ k → 0 <= k <= i → Z.testbit a i = false.
Proof.
  intros Ha Hk. rewrite <- (Z.mod_small a (2 ^ k)) by lia.
  apply Z.mod_pow2_bits_high. lia.
Qed.

Lemma small_of_testbit a k :
  0 <= a → 0 <= k → (∀ i, k <= i → Z.testbit a i = false) → a < 2 ^ k.
Proof.
  intros Ha Hk Hbits.
  assert (E : a = a mod 2 ^ k).
  { apply Z.bits_inj'. intros i Hi.
    destruct (Z.lt_ge_cases i k).
    - rewrite Z.mod_pow2_bits_low by lia. reflexivity.
    - rewrite Z.mod_pow2_bits_high by lia. apply Hbits. lia. }
  rewrite E. apply Z.mod_pos_bound. apply Z.pow_pos_nonneg; lia.
Qed.

Lemma lor_bound a b k :
  0 <= k → 0 <= a < 2 ^ k → 0 <= b < 2 ^ k → 0 <= Z.lor a b < 2 ^ k.
Proof.
  intros Hk Ha Hb. split; [apply Z.lor_nonneg; lia|].
  apply small_of_testbit; [apply Z.lor_nonneg; lia | lia |].
  intros i Hi. rewrite Z.lor_spec.
  rewrite (testbit_small a k i), (testbit_small b k i) by lia. reflexivity.
Qed.

Lemma lor_disjoint a v c :
  0 <= c → 0 <= a < 2 ^ c → Z.lor a (v * 2 ^ c) = a + v * 2 ^ c.
Proof.
  intros Hc Ha.
  assert (Hl : Z.land a (v * 2 ^ c) = 0).
  { apply Z.bits_inj'. intros i Hi. rewrite Z.land_spec, Z.bits_0.
    destruct (Z.lt_ge_cases i c).
    - rewrite Z.mul_pow2_bits_low by lia. apply andb_false_r.
    - rewrite (testbit_small a c i) by lia. reflexivity. }
  rewrite <- Z.lxor_lor by exact Hl. symmetry. apply Z.add_nocarry_lxor. exact Hl.
Qed.

(** The accumulator after the [|=] of [write_bits]. *)
Lemma accumulate_bound b c v n :
  0 <= c → 0 <= b < 2 ^ c → 0 <= v < 2 ^ n →
  0 <= Z.lor b (to_uint32 (Z.shiftl (to_uint32 v) c)) < 2 ^ (c + n).
Proof.
  intros Hc Hb Hv.
  assert (Hn : 0 <= n).
  { destruct (Z.lt_ge_cases n 0); [|assumption].
    rewrite Z.pow_neg_r in Hv by assumption. lia. }
  pose proof (to_uint32_range (Z.shiftl (to_uint32 v) c)) as Hx.
  destruct (Z.le_gt_cases 32 (c + n)) as [Hbig|Hsmall].
  - assert (H32 : 2 ^ 32 <= 2 ^ (c + n)) by (apply Z.pow_le_mono_r; lia).
    assert (Hcn : 2 ^ c <= 2 ^ (c + n)) by (apply Z.pow_le_mono_r; lia).
    destruct (Z.le_gt_cases c 32).
    + assert (Hc32 : 2 ^ c <= 2 ^ 32) by (apply Z.pow_le_mono_r; lia).
      pose proof (lor_bound b (to_uint32 (Z.shiftl (to_uint32 v) c)) 32 ltac:(lia)) as Hl.
      change (2 ^ 32) with 4294967296 in *. lia.
    + assert (Hc32 : 2 ^ 32 <= 2 ^ c) by (apply Z.pow_le_mono_r; lia).
      pose proof (lor_bound b (to_uint32 (Z.shiftl (to_uint32 v) c)) c ltac:(lia)) as Hl.
      change (2 ^ 32) with 4294967296 in *. lia.
  - assert (2 ^ n <= 2 ^ 32) by (apply Z.pow_le_mono_r; lia).
    assert (2 ^ (c + n) <= 2 ^ 32) by (apply Z.pow_le_mono_r; lia).
    change (2 ^ 32) with 4294967296 in *.
    rewrite (to_uint32_id v) by lia.
    rewrite Z.shiftl_mul_pow2 by lia.
    assert (Hvc : 0 <= v * 2 ^ c < 2 ^ (c + n)).
    { rewrite Z.pow_add_r by lia.
      assert (0 < 2 ^ c) by (apply Z.pow_pos_nonneg; lia). nia. }
    rewrite to_uint32_id by lia.
    assert (2 ^ c <= 2 ^ (c + n)) by (apply Z.pow_le_mono_r; lia).
    apply lor_bound; lia.
Qed.

(** Without overflow of the 32-bit accumulator the [|=] adds the value at
    the pending position. *)
Lemma accumulate_value b c v n :
  0 <= c → 0 <= b < 2 ^ c → 0 <= v < 2 ^ n → c + n <= 32 →
  Z.lor b (to_uint32 (Z.shiftl (to_uint32 v) c)) = b + v * 2 ^ c.
Proof.
  intros Hc Hb Hv Hcn.
  assert (Hn : 0 <= n).
  { destruct (Z.lt_ge_cases n 0); [|assumption].
    rewrite Z.pow_neg_r in Hv by assumption. lia. }
  assert (2 ^ n <= 2 ^ 32) by (apply Z.pow_le_mono_r; lia).
  assert (2 ^ (c + n) <= 2 ^ 32) by (apply Z.pow_le_mono_r; lia).
  change (2 ^ 32) with 4294967296 in *.
  rewrite (to_uint32_id v) by lia.
  rewrite Z.shiftl_mul_pow2 by lia.
  assert (Hvc : 0 <= v * 2 ^ c < 2 ^ (c + n)).
  { rewrite Z.pow_add_r by lia.
    assert (0 < 2 ^ c) by (apply Z.pow_pos_nonneg; lia). nia. }
  rewrite to_uint32_id by lia.
  apply lor_disjoint; lia.
Qed.

Lemma write_bits_shape bb v n :
  buffer_ok bb → 0 <= count bb < 8 → 0 <= n <= INT_MAX - 7 →
  ∃ bb', write_bits bb v n = Some bb' ∧ buffer_ok bb' ∧
         capacity bb <= capacity bb' ∧
         pos bb' = pos bb + (count bb + n) / 8 ∧
         count bb' = (count bb + n) mod 8 ∧
         bits bb' = Z.lor (bits bb) (to_uint32 (Z.shiftl (to_uint32 v) (count bb)))
                    / 2 ^ (8 * ((count bb + n) / 8)) ∧
         stream_value bb' =
           le_value (written bb)
           + Z.lor (bits bb) (to_uint32 (Z.shiftl (to_uint32 v) (count bb)))
             * 2 ^ (8 * pos bb).
Proof.
  intros Hok Hc Hn. unfold write_bits.
  rewrite to_int_id by (unfold INT_MAX in *; lia).
  set (acc := Z.lor (bits bb) (to_uint32 (Z.shiftl (to_uint32 v) (count bb)))).
  set (bb0 := {| bits := acc; count := count bb + n; output := output bb;
                 pos := pos bb; capacity := capacity bb |}).
  assert (Hacc : 0 <= acc).
  { apply Z.lor_nonneg. split; [apply Hok | apply to_uint32_range]. }
  assert (Hok0 : buffer_ok bb0).
  { destruct Hok as (H1 & H2 & H3 & H4). repeat split; simpl; lia. }
  assert (Hfuel : count bb0 / 8 <= Z.of_nat (Z.to_nat (count bb + n))).
  { simpl. pose proof (Z.div_le_upper_bound (count bb + n) 8 (count bb + n)). lia. }
  destruct (write_bits_loop_spec _ bb0 Hok0 ltac:(simpl; lia) Hfuel)
    as (bb' & Hl & Hok' & Hcap & Hp & Hcnt & Hb & Hsv).
  exists bb'. simpl in *. repeat split; try assumption; try apply Hok'.
Qed.

Lemma write_bits_spec bb v n :
  buffer_ok bb → pending_ok bb → 0 <= v < 2 ^ n → n <= INT_MAX - 7 →
  ∃ bb', write_bits bb v n = Some bb' ∧ buffer_ok bb' ∧ pending_ok bb' ∧
         capacity bb <= capacity bb' ∧
         bits_written bb' = bits_written bb + n ∧
         (count bb + n <= 32 →
          stream_value bb' = stream_value bb + v * 2 ^ bits_written bb).
Proof.
  intros Hok [Hc Hb] Hv Hn.
  assert (Hn0 : 0 <= n).
  { destruct (Z.lt_ge_cases n 0); [|assumption].
    rewrite Z.pow_neg_r in Hv by assumption. lia. }
  destruct (write_bits_shape bb v n Hok Hc ltac:(lia))
    as (bb' & Hw & Hok' & Hcap & Hp & Hcnt & Hbits & Hsv).
  exists bb'. split; [exact Hw|]. split; [exact Hok'|].
  pose proof (Z.div_mod (count bb + n) 8 ltac:(lia)) as Hdm.
  pose proof (Z.mod_pos_bound (count bb + n) 8 ltac:(lia)) as Hmod.
  assert (Hk : 0 <= (count bb + n) / 8) by (apply Z.div_pos; lia).
  split; [|split; [exact Hcap|split]].
  - split; [lia|]. rewrite Hbits, Hcnt.
    pose proof (accumulate_bound (bits bb) (count bb) v n ltac:(lia) Hb Hv) as Hacc.
    assert (Hpk : 0 < 2 ^ (8 * ((count bb + n) / 8))) by (apply Z.pow_pos_nonneg; lia).
    split; [apply Z.div_pos; lia|].
    apply Z.div_lt_upper_bound; [lia|].
    rewrite <- Z.pow_add_r by lia.
    replace (8 * ((count bb + n) / 8) + (count bb + n) mod 8) with (count bb + n) by lia.
    lia.
  - unfold bits_written. lia.
  - intros Hfit. rewrite Hsv.
    rewrite (accumulate_value (bits bb) (count bb) v n) by lia.
    unfold stream_value, bits_written.
    destruct Hok as (_ & Hpos & _ & _).
    replace (8 * pos bb + count bb) with (count bb + 8 * pos bb) by lia.
    rewrite Z.pow_add_r by lia. lia.
Qed.

Lemma flush_bits_safe bb :
  buffer_ok bb → pos bb < capacity bb → ∃ bbf, flush_bits bb = Some bbf.
Proof.
  intros (Hc & Hp & Hl & Hb) Hlt. unfold flush_bits.
  destruct (0 <? count bb); [|eauto].
  rewrite array_set_in_range by lia. simpl. eauto.
Qed.

Lemma flush_bits_spec bb bbf :
  buffer_ok bb → pending_ok bb → flush_bits bb = Some bbf →
  le_value (written bbf) = stream_value bb ∧
  8 * Z.of_nat (length (written bbf)) < bits_written bb + 8 ∧
  bits_written bb <= 8 * Z.of_nat (length (written bbf)) ∧
  ∃ tail, written bbf = written bb ++ tail ∧ (length tail <= 1)%nat ∧
          ∀ b, b ∈ tail → Z_of_byte b = bits bb.
Proof.
  intros Hok [Hc Hb] Hf. pose proof (length_written bb Hok) as Hlw.
  destruct Hok as (Hcap & Hp & Hl & Hb0).
  unfold flush_bits in Hf. destruct (Z.ltb_spec 0 (count bb)) as [Hpos|Hzero].
  - destruct (array_set (output bb) (pos bb) _) as [out|] eqn:Hset; [|discriminate].
    simpl in Hf. injection Hf as <-.
    apply array_set_Some in Hset as [Hrange ->].
    assert (Hw : written {| bits := bits bb; count := count bb;
                  output := <[Z.to_nat (pos bb) := byte_of_Z (Z.land (bits bb) 255)]> (output bb);
                  pos := pos bb + 1; capacity := capacity bb |}
                 = written bb ++ [byte_of_Z (Z.land (bits bb) 255)]).
    { unfold written; simpl.
      replace (Z.to_nat (pos bb + 1)) with (S (Z.to_nat (pos bb))) by lia.
      erewrite take_S_r; [|apply list_lookup_insert_eq; lia].
      rewrite take_insert_ge by lia. reflexivity. }
    assert (Hbyte : Z_of_byte (byte_of_Z (Z.land (bits bb) 255)) = bits bb).
    { rewrite Z_of_byte_of_Z, land_255_mod, Z.mod_mod by lia.
      assert (2 ^ count bb <= 2 ^ 8) by (apply Z.pow_le_mono_r; lia).
      change (2 ^ 8) with 256 in *. apply Z.mod_small. lia. }
    rewrite Hw. rewrite le_value_app, Hbyte, Hlw, length_app. simpl length.
    unfold stream_value, bits_written. repeat split; try lia.
    eexists; split; [reflexivity|]. split; [simpl; lia|].
    intros b ->%list_elem_of_singleton. exact Hbyte.
  - injection Hf as <-.
    assert (count bb = 0) by lia.
    assert (bits bb = 0) by (replace (count bb) with 0 in Hb by lia; simpl in Hb; lia).
    unfold stream_value, bits_written. repeat split; try lia.
    exists []. rewrite app_nil_r. split; [reflexivity|]. split; [simpl; lia|].
    intros b Hin. inversion Hin.
Qed.

Lemma init_bitbuffer_ok cap :
  0 < cap →
  buffer_ok (init_bitbuffer cap) ∧ pending_ok (init_bitbuffer cap) ∧
  bits_written (init_bitbuffer cap) = 0 ∧ stream_value (init_bitbuffer cap) = 0.
Proof.
  intros Hcap. unfold buffer_ok, pending_ok, bits_written, stream_value, written; simpl.
  rewrite length_replicate. repeat split; lia.
Qed.

Lemma pending_high_bits_clear bb : pending_ok bb → high_bits_clear bb.
Proof.
  intros [Hc Hb] j Hj. apply (testbit_small _ (count bb)); lia.
Qed.

Lemma write_all_spec calls : ∀ bb,
  buffer_ok bb → pending_ok bb →
  Forall (fun c => 0 <= c.1 < 2 ^ c.2 ∧ c.2 <= INT_MAX - 7) calls →
  ∃ bb', write_all bb calls = Some bb' ∧ buffer_ok bb' ∧ pending_ok bb' ∧
         capacity bb <= capacity bb' ∧
         bits_written bb' = bits_written bb + total_bits calls.
Proof.
  induction calls as [|[v n] calls IH]; intros bb Hok Hpend Hall.
  - exists bb. simpl. repeat split; try assumption; try apply Hok; try apply Hpend; lia.
  - apply Forall_cons in Hall as [[Hv Hn] Hall]. simpl in Hv, Hn.
    destruct (write_bits_spec bb v n Hok Hpend Hv Hn)
      as (bb1 & Hw & Hok1 & Hpend1 & Hcap1 & Hbw1 & _).
    destruct (IH bb1 Hok1 Hpend1 Hall) as (bb' & Hw' & Hok' & Hpend' & Hcap' & Hbw').
    exists bb'. cbn [write_all]. rewrite Hw. simpl.
    split; [exact Hw'|]. split; [exact Hok'|]. split; [exact Hpend'|].
    unfold total_bits in *. simpl. split; lia.
Qed.

Lemma total_bits_app pre post :
  total_bits (pre ++ post) = total_bits pre + total_bits post.
Proof.
  unfold total_bits. induction pre as [|c pre IH]; simpl; [reflexivity|].
  rewrite IH. lia.
Qed.

Lemma calls_fit_small T calls : calls_fit T calls → calls_small calls.
Proof.
  revert T. induction calls as [|c calls IH]; intros T H.
  - constructor.
  - destruct H as (Hv & _ & Hrest). constructor; [exact Hv | eapply IH, Hrest].
Qed.

Lemma calls_small_nonneg calls : calls_small calls → Forall (fun c => 0 <= c.2) calls.
Proof.
  intros H. eapply Forall_impl; [exact H|]. intros [v n] Hv; simpl in *.
  destruct (Z.lt_ge_cases n 0); [|assumption].
  rewrite Z.pow_neg_r in Hv by assumption. lia.
Qed.

Lemma total_bits_nonneg calls : calls_small calls → 0 <= total_bits calls.
Proof.
  intros H%calls_small_nonneg. unfold total_bits.
  induction H as [|c calls Hc _ IH]; simpl; lia.
Qed.

Lemma packed_bound calls : calls_small calls → 0 <= packed calls < 2 ^ total_bits calls.
Proof.
  intros H. pose proof (calls_small_nonneg _ H) as Hnn.
  induction H as [|[v n] calls Hv Hs IH]; [simpl; lia|].
  apply Forall_cons in Hnn as [Hn Hnn]. simpl in Hv, Hn.
  specialize (IH Hnn). pose proof (total_bits_nonneg _ Hs) as Ht.
  unfold total_bits in *. cbn [packed fold_right fst snd].
  rewrite Z.pow_add_r by lia.
  assert (0 < 2 ^ n) by (apply Z.pow_pos_nonneg; lia). nia.
Qed.

Lemma packed_app pre post :
  calls_small pre →
  packed (pre ++ post) = packed pre + 2 ^ total_bits pre * packed post.
Proof.
  intros H. pose proof (calls_small_nonneg _ H) as Hnn.
  induction H as [|[v n] pre Hv Hs IH]; [simpl; lia|].
  apply Forall_cons in Hnn as [Hn Hnn]. simpl in Hn.
  specialize (IH Hnn). pose proof (total_bits_nonneg _ Hs) as Ht.
  unfold total_bits in *. cbn [app packed fold_right fst snd].
  rewrite IH, Z.pow_add_r by lia. lia.
Qed.

Lemma write_all_value calls : ∀ bb,
  buffer_ok bb → pending_ok bb → calls_fit (bits_written bb) calls →
  ∃ bb', write_all bb calls = Some bb' ∧ buffer_ok bb' ∧ pending_ok bb' ∧
         bits_written bb' = bits_written bb + total_bits calls ∧
         stream_value bb' = stream_value bb + 2 ^ bits_written bb * packed calls.
Proof.
  induction calls as [|[v n] calls IH]; intros bb Hok Hpend Hfit.
  - exists bb. unfold total_bits. simpl. repeat split; try apply Hok; try apply Hpend; lia.
  - destruct Hfit as (Hv & Hn & Hfit). simpl in Hv, Hn.
    assert (Hmod : bits_written bb mod 8 = count bb).
    { unfold bits_written. destruct Hpend as [Hc _].
      rewrite Z.add_comm, Z.mul_comm, Z.mod_add by lia. apply Z.mod_small. lia. }
    assert (Hbw0 : 0 <= bits_written bb).
    { unfold bits_written. destruct Hok as (_ & Hp & _). destruct Hpend as [Hc _]. lia. }
    assert (Hn0 : 0 <= n).
    { destruct (Z.lt_ge_cases n 0); [|assumption].
      rewrite Z.pow_neg_r in Hv by assumption. lia. }
    pose proof Hpend as [Hc0 _].
    destruct (write_bits_spec bb v n Hok Hpend Hv ltac:(unfold INT_MAX; lia))
      as (bb1 & Hw & Hok1 & Hpend1 & _ & Hbw1 & Hsv1).
    specialize (Hsv1 ltac:(lia)).
    simpl in Hfit. rewrite <- Hbw1 in Hfit.
    destruct (IH bb1 Hok1 Hpend1 Hfit) as (bb' & Hw' & Hok' & Hpend' & Hbw' & Hsv').
    exists bb'. cbn [write_all]. rewrite Hw. simpl.
    split; [exact Hw'|]. split; [exact Hok'|]. split; [exact Hpend'|].
    unfold total_bits in *. cbn [packed fold_right fst snd]. split; [lia|].
    rewrite Hsv', Hsv1, Hbw1, Z.pow_add_r by lia. lia.
Qed.

Lemma stream_bit_le_value bs : ∀ i,
  0 <= i < 8 * Z.of_nat (length bs) →
  stream_bit bs i = Some (Z.testbit (le_value bs) i).
Proof.
  induction bs as [|b bs IH]; intros i Hi; [simpl in Hi; lia|].
  pose proof (Z_of_byte_range b) as Hb.
  destruct (Z.lt_ge_cases i 8) as [Hlo|Hhi].
  - unfold stream_bit. rewrite Z.div_small, Z.mod_small by lia. simpl.
    f_equal. cbn [le_value].
    rewrite <- (Z.mod_pow2_bits_low (Z_of_byte b + 256 * le_value bs) 8 i) by lia.
    change (2 ^ 8) with 256.
    replace (Z_of_byte b + 256 * le_value bs)
      with (Z_of_byte b + le_value bs * 256) by lia.
    rewrite Z.mod_add by lia.
    rewrite Z.mod_small by lia. reflexivity.
  - simpl length in Hi.
    specialize (IH (i - 8) ltac:(lia)).
    remember (i - 8) as j eqn:Ej.
    assert (Ei : i = j + 1 * 8) by lia. subst i. clear Ej.
    unfold stream_bit in *.
    rewrite Z.div_add, Z.mod_add by lia.
    assert (Hq : 0 <= j / 8) by (apply Z.div_pos; lia).
    unfold array_get in *.
    destruct (Z.ltb_spec (j / 8) 0); [lia|].
    destruct (Z.ltb_spec (j / 8 + 1) 0); [lia|].
    replace (Z.to_nat (j / 8 + 1)) with (S (Z.to_nat (j / 8))) by lia.
    change ((b :: bs) !! S (Z.to_nat (j / 8))) with (bs !! Z.to_nat (j / 8)).
    rewrite IH. f_equal.
    cbn [le_value]. replace (j + 1 * 8) with (j + 8) by lia.
    rewrite <- Z.div_pow2_bits by lia. change (2 ^ 8) with 256.
    replace (Z_of_byte b + 256 * le_value bs)
      with (le_value bs * 256 + Z_of_byte b) by lia.
    rewrite Z.div_add_l by lia.
    rewrite (Z.div_small (Z_of_byte b)) by lia. rewrite Z.add_0_r. reflexivity.
Qed.

Lemma packed_testbit pre v n post k :
  calls_small (pre ++ (v, n) :: post) → 0 <= k < n →
  Z.testbit (packed (pre ++ (v, n) :: post)) (total_bits pre + k) = Z.testbit v k.
Proof.
  intros Hs Hk. apply Forall_app in Hs as [Hpre Hrest].
  apply Forall_cons in Hrest as [Hv Hpost]. simpl in Hv.
  pose proof (packed_bound pre Hpre) as Hb. pose proof (total_bits_nonneg pre Hpre) as Ht.
  rewrite packed_app by exact Hpre.
  replace (total_bits pre + k) with (k + total_bits pre) by lia.
  rewrite <- Z.div_pow2_bits by lia.
  assert (0 < 2 ^ total_bits pre) by (apply Z.pow_pos_nonneg; lia).
  replace (packed pre + 2 ^ total_bits pre * packed ((v, n) :: post))
    with (packed ((v, n) :: post) * 2 ^ total_bits pre + packed pre) by lia.
  rewrite Z.div_add_l by lia.
  rewrite (Z.div_small (packed pre)) by lia. rewrite Z.add_0_r.
  cbn [packed fst snd].
  rewrite <- (Z.mod_pow2_bits_low (v + 2 ^ n * packed post) n k) by lia.
  assert (0 < 2 ^ n) by (apply Z.pow_pos_nonneg; lia).
  replace (v + 2 ^ n * packed post) with (v + packed post * 2 ^ n) by lia.
  rewrite Z.mod_add by lia.
  rewrite Z.mod_small by lia. reflexivity.
Qed.

(** C6, as stated, fails: a call whose bits do not fit the 32-bit accumulator
    above the pending ones loses its high bits.  After seven pending bits,
    [write_bits] of the 26-bit value [2^25] shifts bit 25 out of the
    accumulator, and output bit [7 + 25] is 0. *)
Lemma pack_contract_counterexample :
  calls_small [(0, 7); (33554432, 26)] ∧
  ∃ bb bbf,
    write_all (init_bitbuffer 1024) [(0, 7); (33554432, 26)] = Some bb ∧
    flush_bits bb = Some bbf ∧
    stream_bit (written bbf) (total_bits [(0, 7)] + 25)
    ≠ Some (Z.testbit 33554432 25).
Proof.
  split.
  - repeat constructor; simpl; lia.
  - eexists. eexists. split; [vm_compute; reflexivity|].
    split; [vm_compute; reflexivity|].
    vm_compute. discriminate.
Qed.

(** ** Calls that lose no bit *)

Lemma accumulate_kept b c v :
  0 <= c → 0 <= b < 2 ^ c → 0 <= v → v * 2 ^ c < 2 ^ 32 →
  Z.lor b (to_uint32 (Z.shiftl (to_uint32 v) c)) = b + v * 2 ^ c.
Proof.
  intros Hc Hb Hv Hfit.
  assert (Hpc : 1 <= 2 ^ c) by (pose proof (Z.pow_pos_nonneg 2 c); lia).
  change (2 ^ 32) with 4294967296 in *.
  assert (Hv32 : v < 4294967296) by nia.
  rewrite (to_uint32_id v) by lia.
  rewrite Z.shiftl_mul_pow2 by lia.
  rewrite to_uint32_id by nia.
  apply lor_disjoint; lia.
Qed.

Lemma write_bits_kept bb v n :
  buffer_ok bb → pending_ok bb → 0 <= v < 2 ^ n →
  v * 2 ^ count bb < 2 ^ 32 → count bb + n <= INT_MAX →
  ∃ bb', write_bits bb v n = Some bb' ∧ buffer_ok bb' ∧ pending_ok bb' ∧
         capacity bb <= capacity bb' ∧
         bits_written bb' = bits_written bb + n ∧
         stream_value bb' = stream_value bb + v * 2 ^ bits_written bb.
Proof.
  intros Hok [Hc Hb] Hv Hfit Hn.
  assert (Hn0 : 0 <= n).
  { destruct (Z.lt_ge_cases n 0); [|assumption].
    rewrite Z.pow_neg_r in Hv by assumption. lia. }
  unfold write_bits.
  rewrite to_int_id by (unfold INT_MAX in *; lia).
  rewrite (accumulate_kept (bits bb) (count bb) v) by lia.
  set (bb0 := {| bits := bits bb + v * 2 ^ count bb; count := count bb + n;
                 output := output bb; pos := pos bb; capacity := capacity bb |}).
  assert (Hpc : 0 < 2 ^ count bb) by (apply Z.pow_pos_nonneg; lia).
  assert (Hok0 : buffer_ok bb0).
  { destruct Hok as (H1 & H2 & H3 & H4). unfold buffer_ok. simpl.
    split; [exact H1|]. split; [exact H2|]. split; [exact H3|]. nia. }
  assert (Hfuel : count bb0 / 8 <= Z.of_nat (Z.to_nat (count bb + n))).
  { simpl. pose proof (Z.div_le_upper_bound (count bb + n) 8 (count bb + n)). lia. }
  destruct (write_bits_loop_spec _ bb0 Hok0 ltac:(simpl; lia) Hfuel)
    as (bb' & Hl & Hok' & Hcap & Hp & Hcnt & Hbits & Hsv).
  simpl in Hcap, Hp, Hcnt, Hbits.
  exists bb'. split; [exact Hl|]. split; [exact Hok'|].
  pose proof (Z.div_mod (count bb + n) 8 ltac:(lia)) as Hdm.
  pose proof (Z.mod_pos_bound (count bb + n) 8 ltac:(lia)) as Hmod.
  assert (Hk : 0 <= (count bb + n) / 8) by (apply Z.div_pos; lia).
  split; [|split; [exact Hcap|split]].
  - split; [lia|]. rewrite Hbits, Hcnt.
    assert (Hacc : 0 <= bits bb + v * 2 ^ count bb < 2 ^ (count bb + n)).
    { rewrite Z.pow_add_r by lia. nia. }
    assert (Hpk : 0 < 2 ^ (8 * ((count bb + n) / 8))) by (apply Z.pow_pos_nonneg; lia).
    split; [apply Z.div_pos; lia|].
    apply Z.div_lt_upper_bound; [lia|].
    rewrite <- Z.pow_add_r by lia.
    replace (8 * ((count bb + n) / 8) + (count bb + n) mod 8) with (count bb + n) by lia.
    lia.
  - unfold bits_written. lia.
  - rewrite Hsv. unfold stream_value, bits_written. subst bb0.
    unfold written. cbn [bits pos output].
    destruct Hok as (_ & Hpos & _ & _).
    replace (8 * pos bb + count bb) with (count bb + 8 * pos bb) by lia.
    rewrite Z.pow_add_r by lia. lia.
Qed.

Lemma calls_kept_small T calls : calls_kept T calls → calls_small calls.
Proof.
  revert T. induction calls as [|c calls IH]; intros T Hk; [constructor|].
  destruct Hk as (Hv & _ & _ & Hrest). constructor; [exact Hv | exact (IH _ Hrest)].
Qed.

Lemma write_all_kept calls : ∀ bb,
  buffer_ok bb → pending_ok bb → calls_kept (bits_written bb) calls →
  ∃ bb', write_all bb calls = Some bb' ∧ buffer_ok bb' ∧ pending_ok bb' ∧
         bits_written bb' = bits_written bb + total_bits calls ∧
         stream_value bb' = stream_value bb + 2 ^ bits_written bb * packed calls.
Proof.
  induction calls as [|[v n] calls IH]; intros bb Hok Hpend Hk.
  - exists bb. unfold total_bits, packed. simpl.
    split; [reflexivity|]. split; [exact Hok|]. split; [exact Hpend|]. split; lia.
  - destruct Hk as (Hv & Hfit & Hn & Hrest). cbn [fst snd] in *.
    assert (Hmod : bits_written bb mod 8 = count bb).
    { unfold bits_written. destruct Hpend as [Hc _].
      rewrite Z.add_comm, Z.mul_comm, Z.mod_add by lia. apply Z.mod_small. lia. }
    rewrite Hmod in Hfit, Hn.
    destruct (write_bits_kept bb v n Hok Hpend Hv Hfit Hn)
      as (bb1 & Hw & Hok1 & Hpend1 & _ & Hbw1 & Hsv1).
    rewrite <- Hbw1 in Hrest.
    destruct (IH bb1 Hok1 Hpend1 Hrest) as (bb' & Hw' & Hok' & Hpend' & Hbw' & Hsv').
    exists bb'. cbn [write_all]. rewrite Hw. cbn [mbind option_bind].
    split; [exact Hw'|]. split; [exact Hok'|]. split; [exact Hpend'|].
    assert (Hn0 : 0 <= n).
    { destruct (Z.lt_ge_cases n 0); [|assumption].
      rewrite Z.pow_neg_r in Hv by assumption. lia. }
    assert (Hbw0 : 0 <= bits_written bb).
    { unfold bits_written. destruct Hok as (_ & Hp & _). destruct Hpend as [Hc _]. lia. }
    split.
    + rewrite Hbw', Hbw1. unfold total_bits. cbn [fold_right snd]. lia.
    + rewrite Hsv', Hsv1, Hbw1. cbn [packed fst snd].
      rewrite Z.pow_add_r by lia. lia.
Qed.

(** The bits of the stream: below [8 * pos] in the stored bytes, from
    there on in the accumulator. *)
Lemma stream_value_testbit bb i :
  buffer_ok bb → 0 <= bits bb → 0 <= i →
  Z.testbit (stream_value bb) i
  = if i <? 8 * pos bb then Z.testbit (le_value (written bb)) i
    else Z.testbit (bits bb) (i - 8 * pos bb).
Proof.
  intros Hok Hb Hi. pose proof (length_written bb Hok) as Hlen.
  destruct Hok as (_ & Hpos & _ & _).
  pose proof (le_value_bound (written bb)) as Hbound.
  pose proof (le_value_nonneg (written bb)) as Hnn.
  rewrite Hlen in Hbound.
  unfold stream_value.
  rewrite <- (lor_disjoint (le_value (written bb)) (bits bb) (8 * pos bb)) by lia.
  rewrite Z.lor_spec.
  destruct (Z.ltb_spec i (8 * pos bb)).
  - rewrite Z.mul_pow2_bits_low by lia. apply orb_false_r.
  - rewrite (testbit_small (le_value (written bb)) (8 * pos bb) i) by lia.
    rewrite Z.mul_pow2_bits by lia. reflexivity.
Qed.

(** C6 (amended): on a buffer created with a positive capacity, for every
    sequence of [write_bits] calls in which each value is below [2^n], stays
    below [2^32] when shifted above the pending bits, and the [int] counter
    can take [n] on top of the pending bits, every call appends exactly the
    low [n] bits of its value, least significant bit first: bit [k] of the
    value is bit [total_bits_written_so_far + k] of the stream, which is the
    bytes stored so far followed by the pending bits of the accumulator.
    When no bit is pending or [pos < capacity], [flush_bits] returns and the
    bits are those of the final byte sequence, which has just the bytes they
    need and zero bits after the last one; with bits pending and
    [pos = capacity] its store lies outside the block. *)
Theorem pack_appends_low_bits cap calls :
  0 < cap → calls_kept 0 calls →
  ∃ bb, write_all (init_bitbuffer cap) calls = Some bb ∧
    bits_written bb = total_bits calls ∧ 0 <= count bb < 8 ∧
    (∀ pre v n post k, calls = pre ++ (v, n) :: post → 0 <= k < n →
       if total_bits pre + k <? 8 * pos bb
       then stream_bit (written bb) (total_bits pre + k) = Some (Z.testbit v k)
       else Z.testbit (bits bb) (total_bits pre + k - 8 * pos bb) = Z.testbit v k) ∧
    (count bb = 0 ∨ pos bb < capacity bb →
       ∃ bbf, flush_bits bb = Some bbf ∧
         (∀ pre v n post k, calls = pre ++ (v, n) :: post → 0 <= k < n →
            stream_bit (written bbf) (total_bits pre + k) = Some (Z.testbit v k)) ∧
         Z.of_nat (length (written bbf)) = (total_bits calls + 7) / 8 ∧
         (∀ i, total_bits calls <= i < 8 * Z.of_nat (length (written bbf)) →
            stream_bit (written bbf) i = Some false)) ∧
    (0 < count bb → pos bb = capacity bb → flush_bits bb = None).
Proof.
  intros Hcap Hkept.
  destruct (init_bitbuffer_ok cap Hcap) as (Hok & Hpend & Hbw & Hsv).
  rewrite <- Hbw in Hkept.
  destruct (write_all_kept calls _ Hok Hpend Hkept)
    as (bb & Hw & Hok' & Hpend' & Hbw' & Hsv').
  rewrite Hbw in *. rewrite Hsv in Hsv'. change (2 ^ 0) with 1 in Hsv'.
  rewrite Z.add_0_l, Z.mul_1_l in Hsv'. rewrite Z.add_0_l in Hbw'.
  assert (Hsmall : calls_small calls) by (eapply calls_kept_small, Hkept).
  pose proof (total_bits_nonneg _ Hsmall) as Htotal.
  pose proof (length_written bb Hok') as Hlw.
  exists bb. split; [exact Hw|]. split; [exact Hbw'|]. split; [apply Hpend'|].
  assert (Hbit : ∀ pre v n post k, calls = pre ++ (v, n) :: post → 0 <= k < n →
            0 <= total_bits pre + k ∧
            Z.testbit (stream_value bb) (total_bits pre + k) = Z.testbit v k).
  { intros pre v n post k -> Hk.
    pose proof Hsmall as [Hpre _]%Forall_app.
    pose proof (total_bits_nonneg _ Hpre) as Htpre.
    split; [lia|]. rewrite Hsv'. apply packed_testbit; assumption. }
  split; [|split].
  - intros pre v n post k Hcalls Hk.
    destruct (Hbit pre v n post k Hcalls Hk) as [Hi Hval].
    rewrite stream_value_testbit in Hval by (try assumption; apply Hpend').
    destruct (Z.ltb_spec (total_bits pre + k) (8 * pos bb)) as [Hlow|Hhigh].
    + rewrite stream_bit_le_value by lia. f_equal. exact Hval.
    + exact Hval.
  - intros Hroom.
    assert (Hflush : ∃ bbf, flush_bits bb = Some bbf).
    { destruct Hroom as [Hzero|Hlt].
      - unfold flush_bits. rewrite Hzero. simpl. eauto.
      - apply flush_bits_safe; assumption. }
    destruct Hflush as [bbf Hflush]. exists bbf. split; [exact Hflush|].
    destruct (flush_bits_spec bb bbf Hok' Hpend' Hflush) as (Hval & Hlen' & Hlen & _).
    split; [|split].
    + intros pre v n post k Hcalls Hk.
      destruct (Hbit pre v n post k Hcalls Hk) as [Hi Hv].
      assert (Hin : total_bits pre + k < total_bits calls).
      { subst calls. rewrite total_bits_app.
        assert (Hcons : total_bits ((v, n) :: post) = n + total_bits post) by reflexivity.
        rewrite Hcons.
        pose proof Hsmall as [_ Hrest]%Forall_app.
        pose proof Hrest as [_ Hpost]%Forall_cons.
        pose proof (total_bits_nonneg _ Hpost). lia. }
      rewrite stream_bit_le_value by lia. rewrite Hval. f_equal. exact Hv.
    + apply (Z.div_unique _ 8 _ (total_bits calls + 7
                                  - 8 * Z.of_nat (length (written bbf)))); lia.
    + intros i Hi. rewrite stream_bit_le_value by lia.
      rewrite Hval, Hsv'. f_equal.
      apply (testbit_small _ (total_bits calls)); [apply packed_bound, Hsmall | lia].
  - intros Hpos Hfull. unfold flush_bits.
    destruct (Z.ltb_spec 0 (count bb)); [|lia].
    destruct Hok' as (_ & _ & Hlen & _).
    unfold array_set. destruct (Z.leb_spec 0 (pos bb)); cbn [andb]; [|reflexivity].
    destruct (Z.ltb_spec (pos bb) (Z.of_nat (length (output bb)))); [lia | reflexivity].
Qed.

Lemma pack_appends_low_bits_witness :
  ∃ bb bbf,
    write_all (init_bitbuffer 16) [(1, 1); (1, 2); (0, 4); (1, 26)] = Some bb ∧
    flush_bits bb = Some bbf ∧
    (∀ pre v n post k, [(1, 1); (1, 2); (0, 4); (1, 26)] = pre ++ (v, n) :: post →
       0 <= k < n →
       stream_bit (written bbf) (total_bits pre + k) = Some (Z.testbit v k)) ∧
    Z.of_nat (length (written bbf))
    = (total_bits [(1, 1); (1, 2); (0, 4); (1, 26)] + 7) / 8 ∧
    (∀ i, total_bits [(1, 1); (1, 2); (0, 4); (1, 26)] <= i
          < 8 * Z.of_nat (length (written bbf)) →
       stream_bit (written bbf) i = Some false).
Proof.
  destruct (pack_appends_low_bits 16 [(1, 1); (1, 2); (0, 4); (1, 26)])
    as (bb & Hw & _ & _ & _ & Hflush & _).
  - lia.
  - repeat split; vm_compute; congruence.
  - assert (Hroom : pos bb < capacity bb).
    { vm_compute in Hw. injection Hw as <-. vm_compute. reflexivity. }
    destruct (Hflush (or_intror Hroom)) as (bbf & Hf & Hbits & Hlen & Hpad).
    exists bb, bbf. auto.
Defined.

(** The bound on the counter is needed: a call of 2^31 bits takes the [int]
    counter past [INT_MAX]; converted back it is negative, and nothing is
    stored. *)
Lemma pack_count_overflow :
  ∃ bb bbf,
    write_all (init_bitbuffer 16) [(0, 2147483648)] = Some bb ∧
    flush_bits bb = Some bbf ∧ written bbf = [] ∧ count bbf < 0.
Proof.
  eexists _, _. split; [vm_compute; reflexivity|].
  split; [vm_compute; reflexivity|]. split; [reflexivity | reflexivity].
Qed.

(** C7: starting from a fresh buffer, after every sequence of [write_bits]
    calls that satisfy [value < 2^n] (with [n] a bit count that the [int]
    counter can hold on top of seven pending bits), the pending bit count is
    below 8 and every accumulator bit at or above it is zero; consequently
    [flush_bits] appends at most one byte, and the bits of that byte at or
    above the pending count are zero. *)
Theorem bitbuffer_invariant cap calls :
  0 < cap →
  Forall (fun c => 0 <= c.1 < 2 ^ c.2 ∧ c.2 <= INT_MAX - 7) calls →
  ∃ bb, write_all (init_bitbuffer cap) calls = Some bb ∧
    0 <= count bb < 8 ∧ high_bits_clear bb ∧
    ∀ bbf, flush_bits bb = Some bbf →
      ∃ tail, written bbf = written bb ++ tail ∧ (length tail <= 1)%nat ∧
        ∀ b j, b ∈ tail → count bb <= j → Z.testbit (Z_of_byte b) j = false.
Proof.
  intros Hcap Hall.
  destruct (init_bitbuffer_ok cap Hcap) as (Hok & Hpend & _ & _).
  destruct (write_all_spec calls _ Hok Hpend Hall) as (bb & Hw & Hok' & Hpend' & _ & _).
  exists bb. split; [exact Hw|]. split; [apply Hpend'|].
  split; [apply pending_high_bits_clear, Hpend'|].
  intros bbf Hflush.
  destruct (flush_bits_spec bb bbf Hok' Hpend' Hflush) as (_ & _ & _ & tail & Hwr & Hlen & Hb).
  exists tail. split; [exact Hwr|]. split; [exact Hlen|].
  intros b j Hin Hj. rewrite (Hb b Hin).
  apply pending_high_bits_clear; assumption.
Qed.

Lemma bitbuffer_invariant_witness :
  ∃ bb, write_all (init_bitbuffer 4) [(1, 1); (1, 2); (400, 9)] = Some bb ∧
    0 <= count bb < 8 ∧ high_bits_clear bb ∧
    ∀ bbf, flush_bits bb = Some bbf →
      ∃ tail, written bbf = written bb ++ tail ∧ (length tail <= 1)%nat ∧
        ∀ b j, b ∈ tail → count bb <= j → Z.testbit (Z_of_byte b) j = false.
Proof.
  apply (bitbuffer_invariant 4 [(1, 1); (1, 2); (400, 9)]).
  - lia.
  - repeat constructor; vm_compute; congruence.
Defined.

(** C8: a zero-length input gives an empty token stream, and the output is
    exactly the two bytes 0x03 0x00: the bits BFINAL = 1 and BTYPE = 1 (as
    the two bits 1, 0), then the seven zero bits of the end-of-block code,
    then six zero bits of padding. *)
Theorem empty_input_output :
  lz77_compress [] = Some [] ∧
  deflate_tokens [] = Some [] ∧
  deflate_bytes [] = Some ["003"%byte; "000"%byte] ∧
  bitstream ["003"%byte; "000"%byte]
  = [true] ++ [true; false] ++ replicate 7 false ++ replicate 6 false.
Proof.
  repeat split; vm_compute; reflexivity.
Qed.

(** ** Code tables *)

Section RangeLookup.
Variables (base extra : list Z) (first value : Z) (out : Z * Z * Z).
Hypothesis base_sorted : StronglySorted Z.lt base.
Hypothesis extra_length : length extra = length base.

Lemma sorted_lookup_lt : ∀ (l : list Z) (i j : nat) (bi bj : Z),
  StronglySorted Z.lt l → l !! i = Some bi → l !! j = Some bj →
  (i < j)%nat → bi < bj.
Proof.
  induction l as [|x l IH]; intros i j bi bj Hs Hi Hj Hij; [discriminate|].
  apply StronglySorted_cons in Hs as [Hall Hs].
  destruct j as [|j]; [lia|]. simpl in Hj.
  destruct i as [|i].
  - injection Hi as <-. rewrite Forall_forall in Hall.
    apply Hall. eapply list_elem_of_lookup_2, Hj.
  - simpl in Hi. eapply (IH i j); eauto. lia.
Qed.

Lemma sorted_lookup_le (i j : nat) (bi bj : Z) :
  base !! i = Some bi → base !! j = Some bj → (i <= j)%nat → bi <= bj.
Proof.
  intros Hi Hj Hij. destruct (decide (i = j)) as [->|Hne].
  - rewrite Hi in Hj. injection Hj as <-. lia.
  - pose proof (sorted_lookup_lt base i j bi bj base_sorted Hi Hj). lia.
Qed.

Lemma in_range_unique (i j : nat) :
  in_range base value i → in_range base value j → i = j.
Proof.
  assert (Hlt : ∀ i j, in_range base value i → in_range base value j →
                       ¬ (i < j)%nat).
  { clear i j. intros i j (bi & Hi & Hbi & Hnext) (bj & Hj & Hbj & _) Hij.
    pose proof (lookup_lt_Some _ _ _ Hj) as Hjlen.
    destruct Hnext as [Hlast | (nxt & Hn & Hv)]; [lia|].
    pose proof (sorted_lookup_le (S i) j nxt bj Hn Hj). lia. }
  intros Hi Hj. destruct (Nat.lt_trichotomy i j) as [H|[H|H]]; [|exact H|].
  - exfalso. exact (Hlt i j Hi Hj H).
  - exfalso. exact (Hlt j i Hj Hi H).
Qed.

Lemma code_loop_spec (i : nat) (b e : Z) :
  in_range base value i → base !! i = Some b → extra !! i = Some e →
  ∀ (fuel j : nat), (j <= i)%nat → (length base - j <= fuel)%nat →
  code_loop fuel base extra (Z.of_nat (length base)) first value (Z.of_nat j) out
  = Some (first + Z.of_nat i, e, value - b).
Proof.
  intros (b' & Hb' & Hle & Hnext) Hb He.
  rewrite Hb in Hb'. injection Hb' as <-.
  pose proof (lookup_lt_Some _ _ _ Hb) as Hilen.
  induction fuel as [|fuel IH]; intros j Hj Hfuel; [lia|].
  cbn [code_loop].
  destruct (Z.ltb_spec (Z.of_nat j) (Z.of_nat (length base))); [|lia].
  destruct (lookup_lt_is_Some_2 base j ltac:(lia)) as [bj Hbj].
  assert (Hgetj : array_get base (Z.of_nat j) = Some bj).
  { apply array_get_Some. rewrite Nat2Z.id. split; [lia | exact Hbj]. }
  rewrite Hgetj. cbn [mbind option_bind].
  pose proof (sorted_lookup_le j i bj b Hbj Hb Hj) as Hbjb.
  destruct (Z.leb_spec bj value); [|lia].
  destruct (decide (j = i)) as [->|Hne].
  - rewrite Hb in Hbj. injection Hbj as <-.
    assert (Hbelow :
      (if Z.of_nat i =? Z.of_nat (length base) - 1 then Some true
       else array_get base (Z.of_nat i + 1) ≫= λ nxt, Some (value <? nxt))
      = Some true).
    { destruct (Z.eqb_spec (Z.of_nat i) (Z.of_nat (length base) - 1)); [reflexivity|].
      destruct Hnext as [Hlast | (nxt & Hn & Hv)]; [lia|].
      assert (Hg : array_get base (Z.of_nat i + 1) = Some nxt).
      { apply array_get_Some. split; [lia|].
        replace (Z.to_nat (Z.of_nat i + 1)) with (S i) by lia. exact Hn. }
      rewrite Hg. simpl. destruct (Z.ltb_spec value nxt); [reflexivity | lia]. }
    rewrite Hbelow. cbn [mbind option_bind].
    assert (Hge : array_get extra (Z.of_nat i) = Some e).
    { apply array_get_Some. rewrite Nat2Z.id. split; [lia | exact He]. }
    rewrite Hge. reflexivity.
  - destruct (lookup_lt_is_Some_2 base (S j) ltac:(lia)) as [nxt Hn].
    pose proof (sorted_lookup_le (S j) i nxt b Hn Hb ltac:(lia)) as Hnb.
    destruct (Z.eqb_spec (Z.of_nat j) (Z.of_nat (length base) - 1)); [lia|].
    assert (Hg : array_get base (Z.of_nat j + 1) = Some nxt).
    { apply array_get_Some. split; [lia|].
      replace (Z.to_nat (Z.of_nat j + 1)) with (S j) by lia. exact Hn. }
    rewrite Hg. cbn [mbind option_bind].
    destruct (Z.ltb_spec value nxt); [lia|].
    replace (Z.of_nat j + 1) with (Z.of_nat (S j)) by lia.
    apply IH; lia.
Qed.
End RangeLookup.

Lemma in_range_exists (base : list Z) (value : Z) :
  (∃ b, base !! 0%nat = Some b ∧ b <= value) → ∃ i, in_range base value i.
Proof.
  induction base as [|b base IH]; intros (b0 & Hb0 & Hle); [discriminate|].
  injection Hb0 as <-.
  destruct base as [|b' base].
  - exists 0%nat, b. split; [reflexivity|]. split; [exact Hle|]. left. reflexivity.
  - destruct (Z.lt_ge_cases value b') as [Hlt|Hge].
    + exists 0%nat, b. split; [reflexivity|]. split; [exact Hle|].
      right. exists b'. split; [reflexivity | exact Hlt].
    + destruct IH as (i & bi & Hi & Hbi & Hnext); [exists b'; split; [reflexivity|lia]|].
      exists (S i), bi. split; [exact Hi|]. split; [exact Hbi|].
      destruct Hnext as [Hlast | (nxt & Hn & Hv)].
      * left. simpl in *. lia.
      * right. exists nxt. split; [exact Hn | exact Hv].
Qed.

Lemma length_base_sorted : StronglySorted Z.lt length_base.
Proof. apply Sorted_StronglySorted; [apply _|]. repeat constructor. Qed.

Lemma dist_base_sorted : StronglySorted Z.lt dist_base.
Proof. apply Sorted_StronglySorted; [apply _|]. repeat constructor. Qed.

(** The result of a range lookup in a table: index [i], the extra-bit count
    and the extra value. *)
Lemma table_lookup (base extra : list Z) (first value : Z) (out : Z * Z * Z) :
  StronglySorted Z.lt base → length extra = length base →
  (∃ b, base !! 0%nat = Some b ∧ b <= value) →
  ∃ (i : nat) (b e : Z),
    in_range base value i ∧ (∀ j, in_range base value j → j = i) ∧
    base !! i = Some b ∧ extra !! i = Some e ∧
    code_loop (length base) base extra (Z.of_nat (length base)) first value 0 out
    = Some (first + Z.of_nat i, e, value - b).
Proof.
  intros Hs Hlen Hfirst.
  destruct (in_range_exists base value Hfirst) as [i Hi].
  pose proof Hi as (b & Hb & _).
  destruct (lookup_lt_is_Some_2 extra i) as [e He].
  { rewrite Hlen. eapply lookup_lt_Some, Hb. }
  exists i, b, e. split; [exact Hi|]. split.
  { intros j Hj. eapply in_range_unique; eauto. }
  split; [exact Hb|]. split; [exact He|].
  apply (code_loop_spec base extra first value out Hs Hlen i b e Hi Hb He (length base) 0%nat); lia.
Qed.

(** C5: the embedded tables are the constants of the specification, and for
    every length in [3, 258] and every distance in [1, 32768] the lookup
    returns the triple of the unique index [i] with [base[i] <= value] and
    ([i] last or [value < base[i+1]]): code [257 + i] (lengths) or [i]
    (distances), [extra[i]], and [value - base[i]]. *)
Theorem code_tables_lookup (length distance : Z) (out : Z * Z * Z) :
  3 <= length <= 258 → 1 <= distance <= 32768 →
  (length_base = spec_length_base ∧ length_extra = spec_length_extra ∧
   dist_base = spec_dist_base ∧ dist_extra = spec_dist_extra) ∧
  (∃ (i : nat) (b e : Z),
     in_range spec_length_base length i ∧
     (∀ j, in_range spec_length_base length j → j = i) ∧
     spec_length_base !! i = Some b ∧ spec_length_extra !! i = Some e ∧
     get_length_code length out = Some (257 + Z.of_nat i, e, length - b)) ∧
  (∃ (i : nat) (b e : Z),
     in_range spec_dist_base distance i ∧
     (∀ j, in_range spec_dist_base distance j → j = i) ∧
     spec_dist_base !! i = Some b ∧ spec_dist_extra !! i = Some e ∧
     get_distance_code distance out = Some (Z.of_nat i, e, distance - b)).
Proof.
  intros Hl Hd. split; [repeat split|]. split.
  - change spec_length_base with length_base.
    change spec_length_extra with length_extra.
    apply (table_lookup length_base length_extra 257 length out length_base_sorted eq_refl).
    exists 3. split; [reflexivity | lia].
  - change spec_dist_base with dist_base.
    change spec_dist_extra with dist_extra.
    destruct (table_lookup dist_base dist_extra 0 distance out dist_base_sorted eq_refl)
      as (i & b & e & H).
    { exists 1. split; [reflexivity | lia]. }
    exists i, b, e. exact H.
Qed.

Lemma code_tables_lookup_witness :
  (length_base = spec_length_base ∧ length_extra = spec_length_extra ∧
   dist_base = spec_dist_base ∧ dist_extra = spec_dist_extra) ∧
  (∃ (i : nat) (b e : Z),
     in_range spec_length_base 258 i ∧
     (∀ j, in_range spec_length_base 258 j → j = i) ∧
     spec_length_base !! i = Some b ∧ spec_length_extra !! i = Some e ∧
     get_length_code 258 (0, 0, 0) = Some (257 + Z.of_nat i, e, 258 - b)) ∧
  (∃ (i : nat) (b e : Z),
     in_range spec_dist_base 32768 i ∧
     (∀ j, in_range spec_dist_base 32768 j → j = i) ∧
     spec_dist_base !! i = Some b ∧ spec_dist_extra !! i = Some e ∧
     get_distance_code 32768 (0, 0, 0) = Some (Z.of_nat i, e, 32768 - b)).
Proof.
  apply (code_tables_lookup 258 32768 (0, 0, 0)); lia.
Defined.

(** ** The matcher *)

Lemma match_length_spec data match_pos pos max_len :
  0 <= match_pos → match_pos <= pos → pos + max_len <= Z.of_nat (length data) →
  ∀ fuel len, 0 <= len <= max_len → max_len - len <= Z.of_nat fuel →
  (∀ k, 0 <= k < len →
        data !! Z.to_nat (match_pos + k) = data !! Z.to_nat (pos + k)) →
  ∃ r, match_length fuel data match_pos pos max_len len = Some r ∧
       len <= r <= max_len ∧
       ∀ k, 0 <= k < r →
            data !! Z.to_nat (match_pos + k) = data !! Z.to_nat (pos + k).
Proof.
  intros Hmp Hle Hsize.
  induction fuel as [|fuel IH]; intros len Hlen Hfuel Heq.
  - exists len. assert (len = max_len) as -> by lia.
    simpl. rewrite Z.ltb_irrefl. split; [reflexivity|]. split; [lia | exact Heq].
  - cbn [match_length]. destruct (Z.ltb_spec len max_len) as [Hlt|Hge].
    + destruct (array_get_in_range data (match_pos + len) ltac:(lia)) as [a Ha].
      destruct (array_get_in_range data (pos + len) ltac:(lia)) as [b Hb].
      rewrite Ha, Hb. cbn [mbind option_bind].
      destruct (Byte.eqb a b) eqn:Hab.
      * apply byte_eqb_eq in Hab as ->.
        destruct (IH (len + 1)) as (r & Hr & Hrange & Hreq); [lia | lia | |].
        { intros k Hk. destruct (decide (k = len)) as [->|Hne].
          - apply array_get_Some in Ha as [_ Ha]. apply array_get_Some in Hb as [_ Hb].
            congruence.
          - apply Heq. lia. }
        exists r. split; [exact Hr|]. split; [lia | exact Hreq].
      * exists len. split; [reflexivity|]. split; [lia | exact Heq].
    + exists len. split; [reflexivity|]. split; [lia | exact Heq].
Qed.

Lemma copy_match_take (data : list byte) (dist : nat) : ∀ (len p : nat),
  (1 <= dist <= p)%nat → (p + len <= length data)%nat →
  (∀ k, (k < len)%nat → data !! (p - dist + k)%nat = data !! (p + k)%nat) →
  copy_match len dist (take p data) = Some (take (p + len) data).
Proof.
  induction len as [|len IH]; intros p Hd Hp Heq.
  - simpl. rewrite Nat.add_0_r. reflexivity.
  - cbn [copy_match]. rewrite length_take_le by lia.
    destruct (Nat.leb_spec 1 dist); [|lia].
    destruct (Nat.leb_spec dist p); [|lia]. cbn [andb].
    destruct (lookup_lt_is_Some_2 data p ltac:(lia)) as [b Hb].
    rewrite lookup_take_lt by lia.
    pose proof (Heq 0%nat ltac:(lia)) as Hfirst. rewrite !Nat.add_0_r in Hfirst.
    rewrite Hfirst, Hb. cbn [mbind option_bind].
    rewrite <- (take_S_r data p b Hb).
    replace (p + S len)%nat with (S p + len)%nat by lia.
    apply IH; [lia | lia |].
    intros k Hk. specialize (Heq (S k) ltac:(lia)).
    replace (S p - dist + k)%nat with (p - dist + S k)%nat by lia.
    replace (S p + k)%nat with (p + S k)%nat by lia. exact Heq.
Qed.

Lemma valid_match_of_visit (data : list byte) (pos len dist : Z) :
  0 <= pos → 3 <= len → visit_ok data pos (dist, len) →
  valid_match data pos (Token.mk (-1) len dist).
Proof.
  intros Hpos Hlen (Hd & Hdp & Hl & Hsize & Heq). simpl in *.
  unfold valid_match. simpl. split; [lia|]. split; [lia|].
  replace (Z.to_nat (pos + len)) with (Z.to_nat pos + Z.to_nat len)%nat by lia.
  apply copy_match_take; [lia | lia |].
  intros k Hk. specialize (Heq (Z.of_nat k) ltac:(lia)).
  replace (Z.to_nat pos - Z.to_nat dist + k)%nat
    with (Z.to_nat (pos - dist + Z.of_nat k)) by lia.
  replace (Z.to_nat pos + k)%nat with (Z.to_nat (pos + Z.of_nat k)) by lia.
  exact Heq.
Qed.

Lemma chain_ok_mono prev bound bound' m :
  bound <= bound' → chain_ok prev bound m → chain_ok prev bound' m.
Proof.
  intros Hb [->|[Hm Hv]]; [left; reflexivity | right; split; [lia | exact Hv]].
Qed.

Section ChainWalk.
Variables (data : list byte) (prev : list (option Z)) (size pos : Z).
Hypothesis size_eq : size = Z.of_nat (length data).
Hypothesis size_int : size <= INT_MAX.
Hypothesis pos_range : 0 <= pos <= size.
Hypothesis links_ok : ∀ p v, load_prev prev p = Some v → chain_ok prev p v.

Lemma chain_visits_spec : ∀ (links : nat) (bound match_pos : Z),
  bound <= pos → chain_ok prev bound match_pos →
  ∃ visits,
    chain_visits links data prev size pos match_pos = Some visits ∧
    (length visits <= links)%nat ∧
    Forall (visit_ok data pos) visits ∧
    Forall (fun v => pos - bound < v.1) visits ∧
    nearest_first visits.
Proof.
  induction links as [|links IH]; intros bound match_pos Hbound Hchain.
  { exists []. simpl. repeat split; auto. }
  cbn [chain_visits].
  destruct (Z.leb_spec 0 match_pos) as [Hmp|Hneg];
    [|exists []; simpl; repeat split; auto with lia].
  destruct Hchain as [->|[Hrange [next Hnext]]]; [lia|].
  rewrite to_int_id by (unfold INT_MAX in *; lia).
  destruct (Z.ltb_spec MAX_DIST (pos - match_pos)) as [Hfar|Hnear];
    [exists []; simpl; repeat split; auto with lia|].
  destruct (Z.leb_spec (pos - match_pos) 0) as [Hnp|Hpos];
    [exists []; simpl; repeat split; auto with lia|].
  cbn [orb].
  set (max_len := to_int (if size - pos <? MAX_MATCH then size - pos else MAX_MATCH)).
  assert (Hmax : 0 <= max_len <= 258 ∧ pos + max_len <= size).
  { subst max_len. unfold MAX_MATCH.
    destruct (Z.ltb_spec (size - pos) 258);
      rewrite to_int_id by (unfold INT_MAX in *; lia); lia. }
  destruct (match_length_spec data match_pos pos max_len ltac:(lia) ltac:(lia)
              ltac:(lia) (Z.to_nat max_len) 0 ltac:(lia) ltac:(lia))
    as (len & Hlen & Hlr & Heq); [intros k Hk; lia|].
  rewrite Hlen, Hnext. cbn [mbind option_bind].
  destruct (IH match_pos next ltac:(lia) (links_ok _ _ Hnext))
    as (rest & Hrest & Hlenr & Hvis & Hfar' & Hnf).
  rewrite Hrest. cbn [mbind option_bind].
  exists ((pos - match_pos, len) :: rest). split; [reflexivity|].
  split; [simpl; lia|]. unfold MAX_DIST in *.
  split; [|split].
  - constructor; [|exact Hvis].
    unfold visit_ok; simpl. repeat split; try lia.
    intros k Hk. replace (pos - (pos - match_pos) + k) with (match_pos + k) by lia.
    apply Heq. lia.
  - constructor; [simpl; lia|].
    eapply Forall_impl; [exact Hfar'|]. intros v Hv; simpl in *; lia.
  - simpl. split; [|exact Hnf].
    destruct rest as [|w rest']; [exact I|].
    apply Forall_cons in Hfar' as [Hw _]. simpl. lia.
Qed.

Lemma search_chain_fold : ∀ (links : nat) (match_pos : Z) (best : Z * Z) visits,
  chain_visits links data prev size pos match_pos = Some visits →
  search_chain links data prev size pos match_pos best.1 best.2
  = Some (fold_left update_best visits best).
Proof.
  induction links as [|links IH]; intros match_pos [bl bd] visits Hv.
  { injection Hv as <-. reflexivity. }
  cbn [chain_visits] in Hv. cbn [search_chain fst snd].
  destruct (0 <=? match_pos); [|injection Hv as <-; reflexivity].
  destruct ((MAX_DIST <? to_int (pos - match_pos)) || (to_int (pos - match_pos) <=? 0));
    [injection Hv as <-; reflexivity|].
  destruct (match_length _ data match_pos pos _ 0) as [len|]; [|discriminate].
  cbn [mbind option_bind] in *.
  destruct (load_prev prev match_pos) as [next|]; [|discriminate].
  cbn [mbind option_bind] in *.
  destruct (chain_visits links data prev size pos next) as [rest|] eqn:Hrest;
    [|discriminate].
  cbn [mbind option_bind] in Hv. injection Hv as <-.
  cbn [fold_left].
  rewrite <- (IH next _ rest Hrest). unfold update_best. cbn [fst snd]. reflexivity.
Qed.
End ChainWalk.

Lemma fold_update_best_ok data pos visits : ∀ best,
  best_ok data pos best → Forall (visit_ok data pos) visits →
  best_ok data pos (fold_left update_best visits best).
Proof.
  induction visits as [|[d l] visits IH]; intros best Hbest Hall; [exact Hbest|].
  apply Forall_cons in Hall as [Hv Hall]. cbn [fold_left]. apply IH; [|exact Hall].
  unfold update_best. cbn [fst snd].
  destruct (Z.leb_spec MIN_MATCH l); [|exact Hbest].
  destruct (Z.ltb_spec best.1 l); [|exact Hbest].
  right. unfold MIN_MATCH in *. split; [simpl; lia | exact Hv].
Qed.

(** The result of the replacement rule over a list of candidates: either no
    candidate replaced the initial best, or the result is a candidate,
    every candidate before it is strictly shorter and none after it is
    longer. *)
Lemma fold_update_best_split visits : ∀ best,
  let r := fold_left update_best visits best in
  (r = best ∧ Forall (fun v => v.2 < MIN_MATCH ∨ v.2 <= best.1) visits) ∨
  (MIN_MATCH <= r.1 ∧ best.1 < r.1 ∧
   ∃ pre post, visits = pre ++ (r.2, r.1) :: post ∧
               Forall (fun v => v.2 < r.1) pre ∧ Forall (fun v => v.2 <= r.1) post).
Proof.
  induction visits as [|[d l] visits IH]; intros best; cbn zeta.
  { left. split; [reflexivity | constructor]. }
  cbn [fold_left].
  assert (Hup : (update_best best (d, l) = best ∧ (l < MIN_MATCH ∨ l <= best.1)) ∨
                (update_best best (d, l) = (l, d) ∧ MIN_MATCH <= l ∧ best.1 < l)).
  { unfold update_best. cbn [fst snd].
    destruct (Z.leb_spec MIN_MATCH l); [|left; split; [reflexivity | lia]].
    destruct (Z.ltb_spec best.1 l); [right | left]; (split; [reflexivity | lia]). }
  specialize (IH (update_best best (d, l))). cbn zeta in IH.
  set (r := fold_left update_best visits (update_best best (d, l))) in *.
  destruct Hup as [[Hb Hl] | (Hb & Hl3 & Hlt)]; rewrite Hb in IH.
  - destruct IH as [[Hr Hall] | (Hr3 & Hlt' & pre & post & Hvs & Hpre & Hpost)].
    + left. split; [exact Hr|]. constructor; [exact Hl | exact Hall].
    + right. split; [exact Hr3|]. split; [exact Hlt'|].
      exists ((d, l) :: pre), post. split; [rewrite Hvs; reflexivity|].
      split; [|exact Hpost]. constructor; [simpl; lia | exact Hpre].
  - destruct IH as [[Hr Hall] | (Hr3 & Hlt' & pre & post & Hvs & Hpre & Hpost)].
    + right. rewrite Hr. cbn [fst snd]. split; [exact Hl3|]. split; [exact Hlt|].
      exists [], visits. split; [reflexivity|]. split; [constructor|].
      eapply Forall_impl; [exact Hall|]. intros v Hv; simpl in *. lia.
    + right. cbn [fst snd] in Hlt'. split; [exact Hr3|]. split; [lia|].
      exists ((d, l) :: pre), post. split; [rewrite Hvs; reflexivity|].
      split; [|exact Hpost]. constructor; [simpl; lia | exact Hpre].
Qed.

Lemma hash3_spec data p :
  0 <= p → p + 2 < Z.of_nat (length data) →
  ∃ h, hash3 data p = Some h ∧ 0 <= h < HASH_SIZE.
Proof.
  intros Hp Hsize. unfold hash3.
  destruct (array_get_in_range data p ltac:(lia)) as [d0 ->].
  destruct (array_get_in_range data (p + 1) ltac:(lia)) as [d1 ->].
  destruct (array_get_in_range data (p + 2) ltac:(lia)) as [d2 ->].
  cbn [mbind option_bind]. eexists. split; [reflexivity|].
  change HASH_MASK with (Z.ones 15). rewrite Z.land_ones by lia.
  change HASH_SIZE with (2 ^ 15). apply Z.mod_pos_bound. lia.
Qed.

Lemma load_prev_Some prev i v :
  load_prev prev i = Some v ↔ array_get prev i = Some (Some v).
Proof.
  unfold load_prev. destruct (array_get prev i) as [[w|]|]; simpl; split;
    intros H; try discriminate; congruence.
Qed.

Lemma load_prev_insert_eq prev p old :
  0 <= p < Z.of_nat (length prev) →
  load_prev (<[Z.to_nat p := Some old]> prev) p = Some old.
Proof.
  intros Hp. apply load_prev_Some. apply array_get_set_eq. exact Hp.
Qed.

Lemma load_prev_insert_ne prev p q old :
  0 <= p → p ≠ q →
  load_prev (<[Z.to_nat p := Some old]> prev) q = load_prev prev q.
Proof.
  intros Hp Hne. unfold load_prev. rewrite array_get_set_ne by assumption. reflexivity.
Qed.

Lemma chains_ok_mono data hash_table prev bound bound' :
  bound <= bound' → chains_ok data hash_table prev bound →
  chains_ok data hash_table prev bound'.
Proof.
  intros Hb (Hlh & Hlp & Hheads & Hlinks). repeat split; try assumption.
  - intros h m Hm. eapply chain_ok_mono; [exact Hb | eapply Hheads, Hm].
  - apply Hlinks in H. lia.
  - eapply Hlinks, H.
Qed.

Section Insert.
Variable data : list byte.
Hypothesis size_int : Z.of_nat (length data) <= INT_MAX.

Lemma insert_hash_spec hash_table prev bound p :
  chains_ok data hash_table prev bound → bound <= p → 0 <= p →
  p + 2 < Z.of_nat (length data) →
  ∃ hash_table' prev',
    insert_hash data hash_table prev p = Some (hash_table', prev') ∧
    chains_ok data hash_table' prev' (p + 1).
Proof.
  intros (Hlh & Hlp & Hheads & Hlinks) Hbound Hp Hsize.
  destruct (hash3_spec data p Hp Hsize) as (h & Hh & Hhr).
  destruct (array_get_in_range hash_table h ltac:(lia)) as [old Hold].
  unfold insert_hash. rewrite Hh. cbn [mbind option_bind].
  rewrite Hold. cbn [mbind option_bind].
  rewrite array_set_in_range by lia. cbn [mbind option_bind].
  rewrite array_set_in_range by lia. cbn [mbind option_bind].
  rewrite to_int_id by (unfold INT_MAX in *; lia).
  eexists _, _. split; [reflexivity|].
  assert (Hkeep : ∀ m, chain_ok prev bound m →
                       chain_ok (<[Z.to_nat p := Some old]> prev) (p + 1) m).
  { intros m [->|[Hm [v Hv]]]; [left; reflexivity|].
    right. split; [lia|]. exists v.
    rewrite load_prev_insert_ne by lia. exact Hv. }
  assert (Hkeep' : ∀ q m, q <= p → chain_ok prev q m →
                          chain_ok (<[Z.to_nat p := Some old]> prev) q m).
  { intros q m Hq [->|[Hm [v Hv]]]; [left; reflexivity|].
    right. split; [lia|]. exists v.
    rewrite load_prev_insert_ne by lia. exact Hv. }
  split; [rewrite length_insert; exact Hlh|].
  split; [rewrite length_insert; exact Hlp|]. split.
  - intros h' m Hm. destruct (decide (h = h')) as [<-|Hne].
    + rewrite array_get_set_eq in Hm by lia. injection Hm as <-.
      right. split; [lia|]. exists old. apply load_prev_insert_eq. lia.
    + rewrite array_get_set_ne in Hm by lia. apply Hkeep. eapply Hheads, Hm.
  - intros q v Hq. destruct (decide (p = q)) as [<-|Hne].
    + rewrite load_prev_insert_eq in Hq by lia. injection Hq as <-.
      split; [lia|]. apply Hkeep'; [lia|].
      eapply chain_ok_mono; [exact Hbound | eapply Hheads, Hold].
    + rewrite load_prev_insert_ne in Hq by lia.
      destruct (Hlinks q v Hq) as [Hqb Hc]. split; [lia|].
      apply Hkeep'; [lia | exact Hc].
Qed.

Lemma insert_range_spec size pos best_length :
  size = Z.of_nat (length data) → 0 <= pos →
  ∀ (fuel : nat) (i : Z) hash_table prev,
    chains_ok data hash_table prev (pos + i) → 0 <= i <= best_length →
    best_length - i <= Z.of_nat fuel →
    ∃ hash_table' prev',
      insert_range fuel data hash_table prev size pos best_length i
      = Some (hash_table', prev') ∧
      chains_ok data hash_table' prev' (pos + best_length).
Proof.
  intros -> Hpos. induction fuel as [|fuel IH]; intros i hash_table prev Hc Hi Hfuel.
  - assert (i = best_length) as -> by lia. simpl.
    rewrite Z.ltb_irrefl. simpl. eauto.
  - cbn [insert_range].
    destruct (Z.ltb_spec i best_length) as [Hlt|Hge]; cbn [andb];
      [|exists hash_table, prev; split; [reflexivity|];
        eapply chains_ok_mono; [|exact Hc]; lia].
    destruct (Z.ltb_spec (pos + i + 2) (Z.of_nat (length data))) as [Hin|Hout];
      [|exists hash_table, prev; split; [reflexivity|];
        eapply chains_ok_mono; [|exact Hc]; lia].
    destruct (insert_hash_spec hash_table prev (pos + i) (pos + i) Hc
                ltac:(lia) ltac:(lia) Hin) as (ht1 & prev1 & Hins & Hc1).
    rewrite Hins. cbn [mbind option_bind].
    apply IH; [|lia|lia].
    replace (pos + (i + 1)) with (pos + i + 1) by lia. exact Hc1.
Qed.
End Insert.

Lemma find_match_visits data st :
  Z.of_nat (length data) <= INT_MAX → matcher_ok data st →
  m_pos st + MIN_MATCH <= Z.of_nat (length data) →
  ∃ hash match_pos visits,
    hash3 data (m_pos st) = Some hash ∧
    array_get (m_hash_table st) hash = Some match_pos ∧
    chain_visits 128 data (m_prev st) (Z.of_nat (length data)) (m_pos st) match_pos
    = Some visits ∧
    find_match data (m_hash_table st) (m_prev st) (Z.of_nat (length data)) (m_pos st)
    = Some (fold_left update_best visits (0, 0)) ∧
    (length visits <= 128)%nat ∧
    Forall (visit_ok data (m_pos st)) visits ∧
    nearest_first visits.
Proof.
  intros Hint (Hpos & Hchains & _) Hroom. unfold MIN_MATCH in Hroom.
  pose proof Hchains as (Hlh & Hlp & Hheads & Hlinks).
  destruct (hash3_spec data (m_pos st) ltac:(lia) ltac:(lia)) as (h & Hh & Hhr).
  destruct (array_get_in_range (m_hash_table st) h ltac:(lia)) as [mp Hmp].
  assert (Hlinks' : ∀ p v, load_prev (m_prev st) p = Some v → chain_ok (m_prev st) p v).
  { intros p v Hv. eapply Hlinks, Hv. }
  destruct (chain_visits_spec data (m_prev st) (Z.of_nat (length data)) (m_pos st)
              eq_refl Hint ltac:(lia) Hlinks' 128 (m_pos st) mp ltac:(lia)
              (Hheads _ _ Hmp))
    as (visits & Hvis & Hlen & Hok & _ & Hnf).
  exists h, mp, visits. split; [exact Hh|]. split; [exact Hmp|]. split; [exact Hvis|].
  split; [|auto].
  unfold find_match, MIN_MATCH.
  destruct (Z.leb_spec (m_pos st + 3) (Z.of_nat (length data))); [|lia].
  rewrite Hh. cbn [mbind option_bind]. rewrite Hmp. cbn [mbind option_bind].
  apply (search_chain_fold data (m_prev st) _ (m_pos st) 128 mp (0, 0) visits Hvis).
Qed.

Lemma find_match_spec data st :
  Z.of_nat (length data) <= INT_MAX → matcher_ok data st →
  ∃ best,
    find_match data (m_hash_table st) (m_prev st) (Z.of_nat (length data)) (m_pos st)
    = Some best ∧
    best_ok data (m_pos st) best.
Proof.
  intros Hint Hok.
  destruct (Z.le_gt_cases (m_pos st + MIN_MATCH) (Z.of_nat (length data))) as [Hroom|Hnone].
  - destruct (find_match_visits data st Hint Hok Hroom)
      as (h & mp & visits & _ & _ & _ & Hfind & _ & Hvis & _).
    eexists. split; [exact Hfind|].
    apply fold_update_best_ok; [left; reflexivity | exact Hvis].
  - exists (0, 0). unfold find_match.
    destruct (Z.leb_spec (m_pos st + MIN_MATCH) (Z.of_nat (length data))); [lia|].
    split; [reflexivity | left; reflexivity].
Qed.

Lemma replay_from_app ts1 ts2 : ∀ out,
  replay_from out (ts1 ++ ts2) = replay_from out ts1 ≫= λ o, replay_from o ts2.
Proof.
  induction ts1 as [|t ts1 IH]; intros out; [reflexivity|].
  cbn [app replay_from]. destruct (replay_token out t) as [o|]; [|reflexivity].
  cbn [mbind option_bind]. apply IH.
Qed.

Lemma covered_app ts1 ts2 : covered (ts1 ++ ts2) = covered ts1 + covered ts2.
Proof.
  unfold covered. induction ts1 as [|t ts1 IH]; simpl; [reflexivity|].
  rewrite IH. lia.
Qed.

Lemma positions_from_app ts1 ts2 : ∀ p,
  positions_from p (ts1 ++ ts2)
  = positions_from p ts1 ++ positions_from (p + covered ts1) ts2.
Proof.
  induction ts1 as [|t ts1 IH]; intros p.
  - unfold covered. simpl. rewrite Z.add_0_r. reflexivity.
  - cbn [app positions_from]. rewrite IH. unfold covered. cbn [fold_right].
    rewrite Z.add_assoc. reflexivity.
Qed.

(** The invariant after one more token [t] that covers [n] positions. *)
Lemma matcher_ok_push data st hash_table' prev' t n :
  matcher_ok data st →
  0 < n → advance t = n → m_pos st + n <= Z.of_nat (length data) →
  chains_ok data hash_table' prev' (m_pos st + n) →
  replay_token (take (Z.to_nat (m_pos st)) data) t
  = Some (take (Z.to_nat (m_pos st + n)) data) →
  token_ok data (m_pos st, t) →
  matcher_ok data (mkMatcher hash_table' prev' (m_pos st + n) (m_tokens st ++ [t])).
Proof.
  intros (Hpos & Hchains & Hcount & Hcov & Hrep & Htoks) Hn Hadv Hroom Hc' Hrt Htok.
  unfold matcher_ok. cbn [m_pos m_hash_table m_prev m_tokens].
  split; [lia|]. split; [exact Hc'|].
  split; [rewrite length_app; simpl; lia|].
  split; [rewrite covered_app; unfold covered at 2; simpl; lia|].
  split.
  - unfold replay in *. rewrite replay_from_app, Hrep. cbn [mbind option_bind replay_from].
    rewrite Hrt. reflexivity.
  - unfold token_positions in *. rewrite positions_from_app.
    apply Forall_app. split; [exact Htoks|].
    cbn [positions_from]. rewrite Z.add_0_l, Hcov. repeat constructor. exact Htok.
Qed.

Lemma lz77_step_spec data st :
  Z.of_nat (length data) <= INT_MAX → matcher_ok data st →
  m_pos st < Z.of_nat (length data) →
  ∃ st', lz77_step data (Z.of_nat (length data)) st = Some st' ∧
         matcher_ok data st' ∧ m_pos st < m_pos st'.
Proof.
  intros Hint Hok Hlt.
  destruct (find_match_spec data st Hint Hok) as ([bl bd] & Hfind & Hbest).
  pose proof Hok as (Hpos & Hchains & Hcount & Hcov & Hrep & Htoks).
  unfold lz77_step. rewrite Hfind. cbn [mbind option_bind].
  assert (Hpush : ∀ t, push_token (Z.of_nat (length data)) (m_tokens st) t
                       = Some (m_tokens st ++ [t])).
  { intros t. unfold push_token.
    destruct (Z.ltb_spec (Z.of_nat (length (m_tokens st))) (Z.of_nat (length data) * 2));
      [reflexivity | lia]. }
  unfold MIN_MATCH. destruct (Z.leb_spec 3 bl) as [Hmatch|Hlit].
  - destruct Hbest as [Hzero | [_ Hvis]]; [injection Hzero as -> ->; lia|].
    cbn [fst snd] in Hvis. pose proof Hvis as (Hd & Hdp & Hl & Hsize & Heq).
    cbn [fst snd] in *.
    rewrite Hpush. cbn [mbind option_bind].
    destruct (insert_range_spec data Hint (Z.of_nat (length data)) (m_pos st) bl
                eq_refl ltac:(lia) (Z.to_nat bl) 0 (m_hash_table st) (m_prev st))
      as (ht' & prev' & Hins & Hc'); [rewrite Z.add_0_r; exact Hchains | lia | lia |].
    rewrite Hins. cbn [mbind option_bind].
    eexists. split; [reflexivity|]. cbn [m_pos]. split; [|lia].
    pose proof (valid_match_of_visit data (m_pos st) bl bd ltac:(lia) Hmatch Hvis) as Hvm.
    apply matcher_ok_push; try assumption; try lia.
    + reflexivity.
    + unfold replay_token, is_literal. cbn [Token.literal Token.length Token.distance].
      destruct (Z.leb_spec 0 (-1)); [lia|].
      destruct (Z.leb_spec 1 bd); [|lia]. apply Hvm.
  - destruct (array_get_in_range data (m_pos st) ltac:(lia)) as [b Hb].
    rewrite Hb. cbn [mbind option_bind]. rewrite Hpush. cbn [mbind option_bind].
    pose proof (Z_of_byte_range b) as Hbr.
    assert (Hins : ∃ ht' prev',
      (if m_pos st + 2 <? Z.of_nat (length data)
       then insert_hash data (m_hash_table st) (m_prev st) (m_pos st)
       else Some (m_hash_table st, m_prev st)) = Some (ht', prev') ∧
      chains_ok data ht' prev' (m_pos st + 1)).
    { destruct (Z.ltb_spec (m_pos st + 2) (Z.of_nat (length data))) as [Hin|Hout].
      - apply (insert_hash_spec data Hint _ _ (m_pos st)); try assumption; lia.
      - eexists _, _. split; [reflexivity|].
        eapply chains_ok_mono; [|exact Hchains]; lia. }
    destruct Hins as (ht' & prev' & -> & Hc'). cbn [mbind option_bind].
    eexists. split; [reflexivity|]. cbn [m_pos]. split; [|lia].
    assert (Hlitb : is_literal (Token.mk (Z_of_byte b) 0 0) = true).
    { unfold is_literal. cbn [Token.literal]. apply Z.leb_le. lia. }
    apply matcher_ok_push; try assumption; try lia.
    + unfold advance. rewrite Hlitb. reflexivity.
    + unfold replay_token. rewrite Hlitb. cbn [Token.literal].
      rewrite byte_of_Z_of_byte.
      apply array_get_Some in Hb as [_ Hb].
      replace (Z.to_nat (m_pos st + 1)) with (S (Z.to_nat (m_pos st))) by lia.
      rewrite (take_S_r _ _ _ Hb). reflexivity.
    + unfold token_ok. cbn [fst snd]. rewrite Hlitb. exists b. split; [exact Hb | reflexivity].
Qed.

Lemma lz77_init_ok data : matcher_ok data (lz77_init data).
Proof.
  unfold matcher_ok, lz77_init. cbn [m_pos m_hash_table m_prev m_tokens].
  split; [lia|]. split; [|repeat split; simpl; try lia; constructor].
  split; [apply length_replicate|]. split; [apply length_replicate|]. split.
  - intros h m [_ Hm]%array_get_Some. apply lookup_replicate in Hm as [-> _].
    left. reflexivity.
  - intros p v [_ Hv]%load_prev_Some%array_get_Some.
    apply lookup_replicate in Hv as [Hv _]. discriminate.
Qed.

Lemma lz77_reach_ok data st :
  Z.of_nat (length data) <= INT_MAX → lz77_reach data st → matcher_ok data st.
Proof.
  intros Hint Hreach. induction Hreach as [|st st' _ IH Hlt Hstep].
  - apply lz77_init_ok.
  - destruct (lz77_step_spec data st Hint IH Hlt) as (st2 & Hstep2 & Hok2 & _).
    rewrite Hstep in Hstep2. injection Hstep2 as <-. exact Hok2.
Qed.

(** The main loop ends, in a state that has consumed the whole input. *)
Lemma lz77_loop_spec data :
  Z.of_nat (length data) <= INT_MAX →
  ∀ (fuel : nat) st,
    lz77_reach data st → Z.of_nat (length data) - m_pos st <= Z.of_nat fuel →
    ∃ st', lz77_loop fuel data (Z.of_nat (length data)) st = Some (m_tokens st') ∧
           lz77_reach data st' ∧ m_pos st' = Z.of_nat (length data).
Proof.
  intros Hint. induction fuel as [|fuel IH]; intros st Hreach Hfuel;
    pose proof (lz77_reach_ok data st Hint Hreach) as Hok;
    pose proof Hok as (Hpos & _); cbn [lz77_loop].
  - destruct (Z.ltb_spec (m_pos st) (Z.of_nat (length data))); [lia|].
    exists st. split; [reflexivity|]. split; [exact Hreach | lia].
  - destruct (Z.ltb_spec (m_pos st) (Z.of_nat (length data))) as [Hlt|Hge].
    + destruct (lz77_step_spec data st Hint Hok Hlt) as (st1 & Hstep & _ & Hprog).
      rewrite Hstep. cbn [mbind option_bind].
      apply IH; [|lia]. eapply reach_step; eauto.
    + exists st. split; [reflexivity|]. split; [exact Hreach | lia].
Qed.

Lemma lz77_compress_spec data :
  Z.of_nat (length data) <= INT_MAX →
  ∃ tokens, lz77_compress data = Some tokens ∧
            (length tokens <= length data)%nat ∧
            covered tokens = Z.of_nat (length data) ∧
            replay tokens = Some data ∧
            Forall (token_ok data) (token_positions tokens).
Proof.
  intros Hint.
  destruct (lz77_loop_spec data Hint (length data) (lz77_init data) (reach_init data))
    as (st & Hloop & Hreach & Hend); [simpl; lia|].
  destruct (lz77_reach_ok data st Hint Hreach) as (_ & _ & Hcount & Hcov & Hrep & Htoks).
  exists (m_tokens st). split; [exact Hloop|].
  rewrite Hend in *. rewrite Nat2Z.id, firstn_all in Hrep.
  repeat split; try assumption. lia.
Qed.

(** C2 (amended): for every input of at most [INT_MAX] bytes, the sizes
    whose positions the [int] cells and the [int] index arithmetic of the
    matcher can hold, the matcher returns a token stream, and replaying the
    stream reconstructs the input exactly; the positions covered by the
    tokens add up to the input size. *)
Theorem replay_reconstructs_input (data : list byte) :
  Z.of_nat (length data) <= INT_MAX →
  ∃ tokens, lz77_compress data = Some tokens ∧
            replay tokens = Some data ∧
            covered tokens = Z.of_nat (length data).
Proof.
  intros Hint.
  destruct (lz77_compress_spec data Hint) as (tokens & Hc & _ & Hcov & Hrep & _).
  exists tokens. auto.
Qed.

Lemma replay_reconstructs_input_witness :
  ∃ tokens, lz77_compress ["a"; "b"; "a"; "b"; "a"; "b"; "a"; "b"]%byte = Some tokens ∧
            replay tokens = Some ["a"; "b"; "a"; "b"; "a"; "b"; "a"; "b"]%byte ∧
            covered tokens = 8.
Proof.
  apply (replay_reconstructs_input ["a"; "b"; "a"; "b"; "a"; "b"; "a"; "b"]%byte).
  vm_compute. congruence.
Defined.

(** C3 (amended): for every input [S] of at most [INT_MAX] bytes, every
    match token (len, dist) that the matcher emits at stream position [p] has
    [3 <= len <= 258] and [1 <= dist <= min(32768, p)], and copying [len]
    bytes from [dist] bytes before [p], byte by byte forward, produces
    [S[p .. p+len)]. *)
Theorem match_tokens_valid (data : list byte) :
  Z.of_nat (length data) <= INT_MAX →
  ∃ tokens, lz77_compress data = Some tokens ∧
    ∀ p t, (p, t) ∈ token_positions tokens → is_literal t = false →
           valid_match data p t.
Proof.
  intros Hint.
  destruct (lz77_compress_spec data Hint) as (tokens & Hc & _ & _ & _ & Htoks).
  exists tokens. split; [exact Hc|]. intros p t Hin Hlit.
  rewrite Forall_forall in Htoks. specialize (Htoks _ Hin).
  unfold token_ok in Htoks. cbn [fst snd] in Htoks. rewrite Hlit in Htoks. exact Htoks.
Qed.

Lemma match_tokens_valid_witness :
  ∃ tokens, lz77_compress ["a"; "b"; "a"; "b"; "a"; "b"; "a"; "b"]%byte = Some tokens ∧
    ∀ p t, (p, t) ∈ token_positions tokens → is_literal t = false →
           valid_match ["a"; "b"; "a"; "b"; "a"; "b"; "a"; "b"]%byte p t.
Proof.
  apply (match_tokens_valid ["a"; "b"; "a"; "b"; "a"; "b"; "a"; "b"]%byte).
  vm_compute. congruence.
Defined.

Lemma lz77_run_reach data : ∀ (k : nat) st,
  lz77_reach data st → lz77_reach data (lz77_run k data st).
Proof.
  induction k as [|k IH]; intros st Hreach; [exact Hreach|].
  cbn [lz77_run].
  destruct (Z.ltb_spec (m_pos st) (Z.of_nat (length data))) as [Hlt|]; [|exact Hreach].
  destruct (lz77_step data (Z.of_nat (length data)) st) as [st'|] eqn:Hstep;
    [|exact Hreach].
  apply IH. eapply reach_step; eauto.
Qed.

Lemma nearest_first_head_lt : ∀ post (x : Z * Z),
  nearest_first (x :: post) → Forall (fun v => x.1 < v.1) post.
Proof.
  induction post as [|w post IH]; intros x Hnf; [constructor|].
  destruct Hnf as [Hxw Hrest]. constructor; [exact Hxw|].
  eapply Forall_impl; [apply IH, Hrest|]. intros v Hv; simpl in *. lia.
Qed.

Lemma nearest_first_app_lt : ∀ pre (x : Z * Z) post,
  nearest_first (pre ++ x :: post) → Forall (fun v => x.1 < v.1) post.
Proof.
  induction pre as [|y pre IH]; intros x post Hnf.
  - apply nearest_first_head_lt. exact Hnf.
  - destruct Hnf as [_ Hrest]. apply IH. exact Hrest.
Qed.

(** C4: at every position the main loop reaches with three bytes left, the
    hash chain is walked nearest first over at most 128 candidates, the
    best candidate is replaced only by a strictly longer one of at least
    three bytes ([update_best]), and so no candidate of the winning length
    is nearer than the winner; for "ABCDEFABCDEF" the matcher emits the six
    literals A..F and then the match (length 6, distance 6). *)
Theorem nearest_candidate_wins (data : list byte) (st : Matcher) :
  Z.of_nat (length data) <= INT_MAX → lz77_reach data st →
  m_pos st + MIN_MATCH <= Z.of_nat (length data) →
  (∃ hash match_pos visits best,
     hash3 data (m_pos st) = Some hash ∧
     array_get (m_hash_table st) hash = Some match_pos ∧
     chain_visits 128 data (m_prev st) (Z.of_nat (length data)) (m_pos st) match_pos
     = Some visits ∧
     find_match data (m_hash_table st) (m_prev st) (Z.of_nat (length data)) (m_pos st)
     = Some best ∧
     best = fold_left update_best visits (0, 0) ∧
     (length visits <= 128)%nat ∧ nearest_first visits ∧
     ∀ v, v ∈ visits → MIN_MATCH <= v.2 →
          v.2 <= best.1 ∧ (v.2 = best.1 → best.2 <= v.1)) ∧
  lz77_compress ["A"; "B"; "C"; "D"; "E"; "F"; "A"; "B"; "C"; "D"; "E"; "F"]%byte
  = Some [Token.mk 65 0 0; Token.mk 66 0 0; Token.mk 67 0 0;
          Token.mk 68 0 0; Token.mk 69 0 0; Token.mk 70 0 0;
          Token.mk (-1) 6 6].
Proof.
  intros Hint Hreach Hroom. split; [|vm_compute; reflexivity].
  pose proof (lz77_reach_ok data st Hint Hreach) as Hok.
  destruct (find_match_visits data st Hint Hok Hroom)
    as (h & mp & visits & Hh & Hmp & Hvis & Hfind & Hlen & _ & Hnf).
  exists h, mp, visits, (fold_left update_best visits (0, 0)).
  repeat (split; [assumption || reflexivity|]).
  intros v Hin Hv.
  destruct (fold_update_best_split visits (0, 0))
    as [[_ Hall] | (Hr3 & _ & pre & post & Hsplit & Hpre & Hpost)].
  - rewrite Forall_forall in Hall. specialize (Hall v Hin).
    unfold MIN_MATCH in *. simpl in Hall. lia.
  - set (r := fold_left update_best visits (0, 0)) in *.
    pose proof Hnf as Hlater. rewrite Hsplit in Hlater.
    apply nearest_first_app_lt in Hlater. cbn [fst] in Hlater.
    rewrite Forall_forall in Hpre, Hpost, Hlater.
    rewrite Hsplit in Hin.
    apply elem_of_app in Hin as [Hin | Hin].
    + specialize (Hpre v Hin). simpl in Hpre. lia.
    + apply elem_of_cons in Hin as [-> | Hin].
      * cbn [fst snd]. lia.
      * specialize (Hpost v Hin). specialize (Hlater v Hin). simpl in *. lia.
Qed.

Lemma nearest_candidate_wins_witness :
  let data := ["a"; "b"; "c"; "X"; "a"; "b"; "c"; "Y"; "a"; "b"; "c"]%byte in
  let st := lz77_run 6 data (lz77_init data) in
  (∃ hash match_pos visits best,
     hash3 data (m_pos st) = Some hash ∧
     array_get (m_hash_table st) hash = Some match_pos ∧
     chain_visits 128 data (m_prev st) (Z.of_nat (length data)) (m_pos st) match_pos
     = Some visits ∧
     find_match data (m_hash_table st) (m_prev st) (Z.of_nat (length data)) (m_pos st)
     = Some best ∧
     best = fold_left update_best visits (0, 0) ∧
     (length visits <= 128)%nat ∧ nearest_first visits ∧
     ∀ v, v ∈ visits → MIN_MATCH <= v.2 →
          v.2 <= best.1 ∧ (v.2 = best.1 → best.2 <= v.1)) ∧
  lz77_compress ["A"; "B"; "C"; "D"; "E"; "F"; "A"; "B"; "C"; "D"; "E"; "F"]%byte
  = Some [Token.mk 65 0 0; Token.mk 66 0 0; Token.mk 67 0 0;
          Token.mk 68 0 0; Token.mk 69 0 0; Token.mk 70 0 0;
          Token.mk (-1) 6 6].
Proof.
  intros data st.
  apply (nearest_candidate_wins data st).
  - vm_compute. congruence.
  - apply lz77_run_reach, reach_init.
  - vm_compute. congruence.
Defined.

(** A tie between two candidates of the same length: at position 8 of
    "abcXabcYabc" the chain holds positions 4 and 0, both matching three
    bytes; the nearer one, at distance 4, is taken. *)
Example tie_goes_to_nearest :
  lz77_compress ["a"; "b"; "c"; "X"; "a"; "b"; "c"; "Y"; "a"; "b"; "c"]%byte
  = Some [Token.mk 97 0 0; Token.mk 98 0 0; Token.mk 99 0 0; Token.mk 88 0 0;
          Token.mk (-1) 3 4; Token.mk 89 0 0; Token.mk (-1) 3 4].
Proof. vm_compute. reflexivity. Qed.

(** The walk behind the last token of that example: after six iterations
    the matcher is at position 8 and examines distance 4, then distance 8. *)
Example tie_candidates :
  let data := ["a"; "b"; "c"; "X"; "a"; "b"; "c"; "Y"; "a"; "b"; "c"]%byte in
  let st := lz77_run 6 data (lz77_init data) in
  m_pos st = 8 ∧
  chain_visits 128 data (m_prev st) 11 8 4 = Some [(4, 3); (8, 3)] ∧
  find_match data (m_hash_table st) (m_prev st) 11 8 = Some (3, 4).
Proof. repeat split; vm_compute; reflexivity. Qed.

(** ** The block encoder *)

(** Split a goal into its stated conjuncts, leaving defined predicates folded. *)
Ltac split_conj := repeat match goal with |- _ ∧ _ => split end.

Lemma deflate_tokens_spec data :
  Z.of_nat (length data) <= INT_MAX →
  ∃ tokens, deflate_tokens data = Some tokens ∧
            covered tokens = Z.of_nat (length data) ∧
            replay tokens = Some data ∧
            Forall (token_ok data) (token_positions tokens).
Proof.
  intros Hint. unfold deflate_tokens.
  destruct (Z.ltb_spec 0 (Z.of_nat (length data))) as [Hpos|Hzero].
  - destruct (lz77_compress_spec data Hint) as (tokens & Hc & _ & Hcov & Hrep & Htoks).
    exists tokens. auto.
  - exists []. destruct data; [|simpl in Hzero; lia].
    repeat split; constructor.
Qed.

Lemma write_bits_count bb v n :
  buffer_ok bb → 0 <= count bb < 8 → 0 <= n <= 32 →
  ∃ bb', write_bits bb v n = Some bb' ∧ buffer_ok bb' ∧ 0 <= count bb' < 8 ∧
         capacity bb <= capacity bb' ∧
         bits_written bb' = bits_written bb + n.
Proof.
  intros Hok Hc Hn.
  destruct (write_bits_shape bb v n Hok Hc ltac:(unfold INT_MAX; lia))
    as (bb' & Hw & Hok' & Hcap & Hp & Hcnt & _).
  exists bb'. split; [exact Hw|]. split; [exact Hok'|].
  pose proof (Z.div_mod (count bb + n) 8 ltac:(lia)).
  pose proof (Z.mod_pos_bound (count bb + n) 8 ltac:(lia)).
  unfold bits_written. split_conj; lia.
Qed.

Lemma length_extra_bound i e : length_extra !! i = Some e → 0 <= e <= 5.
Proof.
  intros H%list_elem_of_lookup_2.
  assert (Hall : Forall (fun e => 0 <= e <= 5) length_extra)
    by (repeat constructor; lia).
  rewrite Forall_forall in Hall. apply Hall, H.
Qed.

Lemma dist_extra_bound i e : dist_extra !! i = Some e → 0 <= e <= 13.
Proof.
  intros H%list_elem_of_lookup_2.
  assert (Hall : Forall (fun e => 0 <= e <= 13) dist_extra)
    by (repeat constructor; lia).
  rewrite Forall_forall in Hall. apply Hall, H.
Qed.

(** An optional field of extra bits. *)
Lemma write_extra_count bb v n :
  buffer_ok bb → 0 <= count bb < 8 → 0 <= n <= 32 →
  ∃ bb', (if 0 <? n then write_bits bb v n else Some bb) = Some bb' ∧
         buffer_ok bb' ∧ 0 <= count bb' < 8 ∧
         capacity bb <= capacity bb' ∧
         bits_written bb' = bits_written bb + n.
Proof.
  intros Hok Hc Hn. destruct (Z.ltb_spec 0 n).
  - apply write_bits_count; assumption.
  - exists bb. split_conj; try reflexivity; try assumption; try apply Hc; lia.
Qed.

Lemma get_length_code_unfold l out :
  get_length_code l out
  = code_loop (length length_base) length_base length_extra
      (Z.of_nat (length length_base)) 257 l 0 out.
Proof. reflexivity. Qed.

Lemma get_distance_code_unfold d out :
  get_distance_code d out
  = code_loop (length dist_base) dist_base dist_extra
      (Z.of_nat (length dist_base)) 0 d 0 out.
Proof. reflexivity. Qed.

(** A token costs at most nine bits for each input byte it covers. *)
Lemma encode_token_bits data bb p t :
  buffer_ok bb → 0 <= count bb < 8 → token_ok data (p, t) →
  ∃ bb', encode_token bb t = Some bb' ∧ buffer_ok bb' ∧ 0 <= count bb' < 8 ∧
         capacity bb <= capacity bb' ∧
         bits_written bb' <= bits_written bb + 9 * advance t.
Proof.
  intros Hok Hc Htok. unfold token_ok in Htok. cbn [fst snd] in Htok.
  unfold encode_token, advance. unfold is_literal in *.
  destruct (Z.leb_spec 0 (Token.literal t)) as [Hlit|Hmatch].
  - destruct Htok as (b & _ & ->). cbn [Token.literal].
    destruct (Z.leb_spec (Z_of_byte b) 143).
    + destruct (write_bits_count bb (48 + Z_of_byte b) 8 Hok Hc ltac:(lia))
        as (bb' & Hw & Hok' & Hc' & Hcap & Hbw).
      exists bb'. split_conj; try assumption; try apply Hc'; lia.
    + destruct (write_bits_count bb (400 + (Z_of_byte b - 144)) 9 Hok Hc ltac:(lia))
        as (bb' & Hw & Hok' & Hc' & Hcap & Hbw).
      exists bb'. split_conj; try assumption; try apply Hc'; lia.
  - destruct Htok as (Hlen & Hdist & _).
    destruct (table_lookup length_base length_extra 257 (Token.length t) (0, 0, 0)
                length_base_sorted eq_refl)
      as (i & b & e & Hin & _ & Hb & He & Hcode);
      [exists 3; split; [reflexivity | lia]|].
    destruct (table_lookup dist_base dist_extra 0 (Token.distance t) (0, 0, 0)
                dist_base_sorted eq_refl)
      as (j & db & de & _ & _ & _ & Hde & Hdcode);
      [exists 1; split; [reflexivity | lia]|].
    rewrite <- get_length_code_unfold in Hcode.
    rewrite <- get_distance_code_unfold in Hdcode.
    rewrite Hcode. cbn [mbind option_bind].
    pose proof (length_extra_bound i e He) as Heb.
    pose proof (dist_extra_bound j de Hde) as Hdeb.
    assert (Hfirst : Token.length t = 3 → 257 + Z.of_nat i <= 279 ∧ e = 0).
    { intros E3. rewrite E3 in Hcode.
      assert (H3 : get_length_code 3 (0, 0, 0) = Some (257, 0, 0))
        by (vm_compute; reflexivity).
      rewrite H3 in Hcode. injection Hcode as Hi He0 _. lia. }
    assert (Hhead : ∃ bb1 n1,
      (if 257 + Z.of_nat i <=? 279 then write_bits bb (257 + Z.of_nat i - 256) 7
       else write_bits bb (192 + (257 + Z.of_nat i - 280)) 8) = Some bb1 ∧
      buffer_ok bb1 ∧ 0 <= count bb1 < 8 ∧ capacity bb <= capacity bb1 ∧
      bits_written bb1 = bits_written bb + n1 ∧ 7 <= n1 <= 8 ∧
      (Token.length t = 3 → n1 = 7)).
    { destruct (Z.leb_spec (257 + Z.of_nat i) 279).
      - destruct (write_bits_count bb (257 + Z.of_nat i - 256) 7 Hok Hc ltac:(lia))
          as (bb1 & Hw & Hok1 & Hc1 & Hcap1 & Hbw1).
        exists bb1, 7. split_conj; try assumption; try apply Hc1; lia.
      - destruct (write_bits_count bb (192 + (257 + Z.of_nat i - 280)) 8 Hok Hc ltac:(lia))
          as (bb1 & Hw & Hok1 & Hc1 & Hcap1 & Hbw1).
        exists bb1, 8. split_conj; try assumption; try apply Hc1; try lia. }
    destruct Hhead as (bb1 & n1 & -> & Hok1 & Hc1 & Hcap1 & Hbw1 & Hn1 & Hn13).
    cbn [mbind option_bind].
    destruct (write_extra_count bb1 (Token.length t - b) e Hok1 Hc1 ltac:(lia))
      as (bb2 & -> & Hok2 & Hc2 & Hcap2 & Hbw2).
    cbn [mbind option_bind]. rewrite Hdcode. cbn [mbind option_bind].
    destruct (write_bits_count bb2 (reversed_dist (0 + Z.of_nat j)) 5 Hok2 Hc2 ltac:(lia))
      as (bb3 & -> & Hok3 & Hc3 & Hcap3 & Hbw3).
    cbn [mbind option_bind].
    destruct (write_extra_count bb3 (Token.distance t - db) de Hok3 Hc3 ltac:(lia))
      as (bb4 & -> & Hok4 & Hc4 & Hcap4 & Hbw4).
    exists bb4. split; [reflexivity|]. split; [exact Hok4|]. split; [exact Hc4|].
    split; [lia|].
    destruct (Z.eq_dec (Token.length t) 3) as [E3|Hne].
    + pose proof (Hfirst E3). specialize (Hn13 E3). lia.
    + lia.
Qed.

Lemma encode_tokens_bits data tokens : ∀ bb p,
  buffer_ok bb → 0 <= count bb < 8 →
  Forall (token_ok data) (positions_from p tokens) →
  ∃ bb', encode_tokens bb tokens = Some bb' ∧ buffer_ok bb' ∧ 0 <= count bb' < 8 ∧
         capacity bb <= capacity bb' ∧
         bits_written bb' <= bits_written bb + 9 * covered tokens.
Proof.
  induction tokens as [|t tokens IH]; intros bb p Hok Hc Hall.
  - exists bb. unfold covered. simpl. split_conj; try reflexivity; try assumption; try apply Hc; lia.
  - cbn [positions_from] in Hall. apply Forall_cons in Hall as [Ht Hall].
    destruct (encode_token_bits data bb p t Hok Hc Ht)
      as (bb1 & Hw & Hok1 & Hc1 & Hcap1 & Hbw1).
    destruct (IH bb1 _ Hok1 Hc1 Hall) as (bb' & Hw' & Hok' & Hc' & Hcap' & Hbw').
    exists bb'. cbn [encode_tokens]. rewrite Hw. cbn [mbind option_bind].
    split; [exact Hw'|]. split; [exact Hok'|]. split; [exact Hc'|].
    unfold covered in *. cbn [fold_right]. split; lia.
Qed.

Lemma write_block_spec data tokens :
  covered tokens = Z.of_nat (length data) →
  Forall (token_ok data) (token_positions tokens) →
  ∃ bb, write_block (Z.of_nat (length data)) tokens = Some bb ∧
        buffer_ok bb ∧ 0 <= count bb < 8 ∧
        Z.max (Z.of_nat (length data) * 2) 1024 <= capacity bb ∧
        bits_written bb <= 9 * Z.of_nat (length data) + 10.
Proof.
  intros Hcov Htoks. unfold write_block.
  set (size := Z.of_nat (length data)) in *.
  set (cap := if 1024 <? size * 2 then size * 2 else 1024).
  assert (Hcap : cap = Z.max (size * 2) 1024)
    by (subst cap; destruct (Z.ltb_spec 1024 (size * 2)); lia).
  destruct (init_bitbuffer_ok cap ltac:(lia)) as (Hok0 & [Hc0 _] & Hbw0 & _).
  destruct (write_bits_count _ 1 1 Hok0 Hc0 ltac:(lia))
    as (bb1 & -> & Hok1 & Hc1 & Hcap1 & Hbw1). cbn [mbind option_bind].
  destruct (write_bits_count _ 1 2 Hok1 Hc1 ltac:(lia))
    as (bb2 & -> & Hok2 & Hc2 & Hcap2 & Hbw2). cbn [mbind option_bind].
  destruct (encode_tokens_bits data tokens bb2 0 Hok2 Hc2 Htoks)
    as (bb3 & -> & Hok3 & Hc3 & Hcap3 & Hbw3). cbn [mbind option_bind].
  destruct (write_bits_count _ 0 7 Hok3 Hc3 ltac:(lia))
    as (bb4 & -> & Hok4 & Hc4 & Hcap4 & Hbw4).
  exists bb4. split; [reflexivity|]. split; [exact Hok4|]. split; [exact Hc4|].
  change (capacity (init_bitbuffer cap)) with cap in Hcap1. split; lia.
Qed.

(** The in-memory part of [deflate_compress] returns a stream. *)
Lemma deflate_bytes_spec (data : list byte) :
  Z.of_nat (length data) <= INT_MAX →
  ∃ tokens bb bbf,
    deflate_tokens data = Some tokens ∧
    write_block (Z.of_nat (length data)) tokens = Some bb ∧
    pos bb < capacity bb ∧
    flush_bits bb = Some bbf ∧
    encode_block (Z.of_nat (length data)) tokens = Some bbf ∧
    deflate_bytes data = Some (written bbf).
Proof.
  intros Hint.
  destruct (deflate_tokens_spec data Hint) as (tokens & Htok & Hcov & _ & Hall).
  destruct (write_block_spec data tokens Hcov Hall) as (bb & Hw & Hok & Hc & Hcap & Hbw).
  assert (Hlt : pos bb < capacity bb) by (unfold bits_written in Hbw; lia).
  destruct (flush_bits_safe bb Hok Hlt) as [bbf Hf].
  assert (He : encode_block (Z.of_nat (length data)) tokens = Some bbf).
  { unfold encode_block. rewrite Hw. cbn [mbind option_bind]. exact Hf. }
  exists tokens, bb, bbf. split_conj; try assumption.
  unfold deflate_bytes. rewrite Htok. cbn [mbind option_bind].
  rewrite He. reflexivity.
Qed.

(** C10: [flush_bits] stores at index [pos] without a capacity test; when
    the encoder has written the block of an input of [n] bytes into a buffer
    of initial capacity [max(2 n, 1024)], the position at flush time is
    strictly below the capacity, and the store of [flush_bits] is inside
    the buffer. *)
Theorem flush_store_in_bounds (data : list byte) :
  Z.of_nat (length data) <= INT_MAX →
  ∃ tokens bb bbf,
    deflate_tokens data = Some tokens ∧
    write_block (Z.of_nat (length data)) tokens = Some bb ∧
    pos bb < capacity bb ∧
    flush_bits bb = Some bbf ∧
    encode_block (Z.of_nat (length data)) tokens = Some bbf.
Proof.
  intros Hint.
  destruct (deflate_bytes_spec data Hint) as (tokens & bb & bbf & H1 & H2 & H3 & H4 & H5 & _).
  exists tokens, bb, bbf. auto.
Qed.

Lemma flush_store_in_bounds_witness :
  ∃ tokens bb bbf,
    deflate_tokens ["a"; "b"; "a"; "b"; "a"; "b"]%byte = Some tokens ∧
    write_block 6 tokens = Some bb ∧
    pos bb < capacity bb ∧
    flush_bits bb = Some bbf ∧
    encode_block 6 tokens = Some bbf.
Proof.
  apply (flush_store_in_bounds ["a"; "b"; "a"; "b"; "a"; "b"]%byte).
  vm_compute. congruence.
Defined.

(** ** The reference decoder and the round trip *)

(** The decoder accepts the streams of a conforming compressor: the
    fixed-Huffman encodings of "A" and of "ABCDEFABCDEF" as zlib emits them,
    and the empty block. *)
Example inflate_reference_streams :
  inflate ["115"; "004"; "000"]%byte = Some ["A"]%byte ∧
  inflate ["115"; "116"; "114"; "118"; "113"; "117"; "115"; "004"; "147"; "000"]%byte
  = Some ["A"; "B"; "C"; "D"; "E"; "F"; "A"; "B"; "C"; "D"; "E"; "F"]%byte ∧
  inflate ["003"; "000"]%byte = Some [].
Proof. repeat split; vm_compute; reflexivity. Qed.

(** C1 fails on the code: the one-byte input "A" is compressed to
    8B 03 00, which a raw-DEFLATE inflate decodes to "^".  The literal code
    [0x30 + 65] is written least significant bit first, while DEFLATE packs
    Huffman codes most significant bit first. *)
Theorem roundtrip_fails_on_literal :
  deflate_bytes ["A"]%byte = Some ["139"; "003"; "000"]%byte ∧
  inflate ["139"; "003"; "000"]%byte = Some ["^"]%byte ∧
  inflate ["139"; "003"; "000"]%byte ≠ Some ["A"]%byte.
Proof.
  split; [vm_compute; reflexivity|]. split; [vm_compute; reflexivity|].
  vm_compute. discriminate.
Qed.

(** ** Files and exit codes *)

(** X2: what [deflate_compress] returns for an input file that opens: exit
    code 1 and no output file when the file is not read in full or the output
    file does not open; otherwise exit code 0 and an output file holding the
    bytes [fwrite] wrote. *)
Lemma deflate_compress_outcomes (fs : Files) (content : list byte) :
  input_file fs = Some content → Z.of_nat (length content) <= INT_MAX →
  ∃ out, deflate_bytes content = Some out ∧
    deflate_compress fs
    = Some (if (0 <? length content)%nat && negb (length content <=? fread_count fs)%nat
            then mkOutcome 1 None
            else if output_opens fs
                 then mkOutcome 0 (Some (take (fwrite_count fs) out))
                 else mkOutcome 1 None).
Proof.
  intros Hin Hint.
  destruct (deflate_bytes_spec content Hint) as (tokens & bb & bbf & _ & _ & _ & _ & _ & Hout).
  exists (written bbf). split; [exact Hout|].
  unfold deflate_compress. rewrite Hin.
  destruct (Nat.ltb_spec 0 (length content)) as [Hpos|Hzero]; cbn [andb].
  - destruct (Nat.leb_spec (length content) (fread_count fs)) as [Hfull|Hshort]; cbn [negb].
    + rewrite Nat.min_r by lia. rewrite Nat.eqb_refl. cbn [negb].
      rewrite Hout. cbn [mbind option_bind]. destruct (output_opens fs); reflexivity.
    + rewrite Nat.min_l by lia.
      destruct (Nat.eqb_spec (fread_count fs) (length content)); [lia|]. reflexivity.
  - rewrite Nat.eqb_refl. cbn [negb]. rewrite Hout. cbn [mbind option_bind].
    destruct (output_opens fs); reflexivity.
Qed.

(** C9 fails on the code: the result of [fwrite] is not examined.  With an
    empty input file and an output file that opens but takes none of the
    two bytes of the stream, the exit code is 0 and the output file is
    empty. *)
Theorem write_failure_exits_zero :
  deflate_bytes [] = Some ["003"; "000"]%byte ∧
  deflate_compress {| input_file := Some []; fread_count := 0;
                      output_opens := true; fwrite_count := 0 |}
  = Some {| exit_code := 0; output_file := Some [] |}.
Proof. split; vm_compute; reflexivity. Qed.

Lemma deflate_compress_outcomes_witness :
  ∃ out, deflate_bytes ["a"; "a"; "a"; "a"]%byte = Some out ∧
    deflate_compress {| input_file := Some ["a"; "a"; "a"; "a"]%byte; fread_count := 4;
                        output_opens := true; fwrite_count := 1024 |}
    = Some (if (0 <? 4)%nat && negb (4 <=? 4)%nat
            then mkOutcome 1 None
            else if true
                 then mkOutcome 0 (Some (take 1024 out))
                 else mkOutcome 1 None).
Proof.
  apply (deflate_compress_outcomes
           {| input_file := Some ["a"; "a"; "a"; "a"]%byte; fread_count := 4;
              output_opens := true; fwrite_count := 1024 |}
           ["a"; "a"; "a"; "a"]%byte).
  - reflexivity.
  - vm_compute. congruence.
Defined.

(** ** Further properties of the matcher *)

(** X3: an input of fewer than three bytes gives one literal token for each
    of its bytes: no match is attempted without three bytes to hash. *)
Theorem short_input_all_literals (data : list byte) :
  (length data < 3)%nat →
  lz77_compress data = Some (map (fun b => Token.mk (Z_of_byte b) 0 0) data).
Proof.
  intros Hlen.
  destruct data as [|a [|b [|c data]]]; [| | |simpl in Hlen; lia];
    vm_compute; reflexivity.
Qed.

Lemma short_input_all_literals_witness :
  lz77_compress ["a"; "b"]%byte
  = Some (map (fun b => Token.mk (Z_of_byte b) 0 0) ["a"; "b"]%byte).
Proof.
  apply (short_input_all_literals ["a"; "b"]%byte). simpl. lia.
Defined.

(** X4: for every input of at most [INT_MAX] bytes the hash chains are
    causal: at the head of every iteration each hash head and each [prev]
    link is [-1] or a position before the current one, and every link leads
    strictly backwards. *)
Theorem hash_chains_causal (data : list byte) (st : Matcher) :
  Z.of_nat (length data) <= INT_MAX → lz77_reach data st →
  (∀ h m, array_get (m_hash_table st) h = Some m → m = -1 ∨ 0 <= m < m_pos st) ∧
  (∀ p v, load_prev (m_prev st) p = Some v →
          0 <= p < m_pos st ∧ (v = -1 ∨ 0 <= v < p)).
Proof.
  intros Hint Hreach.
  destruct (lz77_reach_ok data st Hint Hreach) as (_ & (_ & _ & Hheads & Hlinks) & _).
  split.
  - intros h m Hm. destruct (Hheads h m Hm) as [->|[Hr _]]; [left; reflexivity | right; lia].
  - intros p v Hv. destruct (Hlinks p v Hv) as [Hp Hc].
    pose proof Hv as [H0 _]%load_prev_Some%array_get_Some.
    split; [lia|]. destruct Hc as [->|[Hr _]]; [left; reflexivity | right; lia].
Qed.

Lemma hash_chains_causal_witness :
  let data := ["a"; "b"; "c"; "X"; "a"; "b"; "c"; "Y"; "a"; "b"; "c"]%byte in
  let st := lz77_run 6 data (lz77_init data) in
  (∀ h m, array_get (m_hash_table st) h = Some m → m = -1 ∨ 0 <= m < m_pos st) ∧
  (∀ p v, load_prev (m_prev st) p = Some v →
          0 <= p < m_pos st ∧ (v = -1 ∨ 0 <= v < p)).
Proof.
  intros data st. apply (hash_chains_causal data st).
  - vm_compute. congruence.
  - apply lz77_run_reach, reach_init.
Defined.

(** X5: for every input of at most [INT_MAX] bytes the token stream has at
    most one token for each input byte (so the block of [2 * size] tokens is
    never exceeded), and a literal token at position [p] carries the byte
    [data[p]]. *)
Theorem literal_tokens_carry_input (data : list byte) :
  Z.of_nat (length data) <= INT_MAX →
  ∃ tokens, lz77_compress data = Some tokens ∧
    (length tokens <= length data)%nat ∧
    ∀ p t, (p, t) ∈ token_positions tokens → is_literal t = true →
           ∃ b, array_get data p = Some b ∧ t = Token.mk (Z_of_byte b) 0 0.
Proof.
  intros Hint.
  destruct (lz77_compress_spec data Hint) as (tokens & Hc & Hlen & _ & _ & Htoks).
  exists tokens. split; [exact Hc|]. split; [exact Hlen|]. intros p t Hin Hlit.
  rewrite Forall_forall in Htoks. specialize (Htoks _ Hin).
  unfold token_ok in Htoks. cbn [fst snd] in Htoks. rewrite Hlit in Htoks. exact Htoks.
Qed.

Lemma literal_tokens_carry_input_witness :
  ∃ tokens, lz77_compress ["a"; "b"; "a"; "b"; "a"; "b"]%byte = Some tokens ∧
    (length tokens <= length ["a"; "b"; "a"; "b"; "a"; "b"]%byte)%nat ∧
    ∀ p t, (p, t) ∈ token_positions tokens → is_literal t = true →
           ∃ b, array_get ["a"; "b"; "a"; "b"; "a"; "b"]%byte p = Some b ∧
                t = Token.mk (Z_of_byte b) 0 0.
Proof.
  apply (literal_tokens_carry_input ["a"; "b"; "a"; "b"; "a"; "b"]%byte).
  vm_compute. congruence.
Defined.

(** ** The bits of a block *)

Lemma write_all_app calls1 calls2 : ∀ bb,
  write_all bb (calls1 ++ calls2) = write_all bb calls1 ≫= λ b, write_all b calls2.
Proof.
  induction calls1 as [|[v n] calls1 IH]; intros bb; [reflexivity|].
  cbn [app write_all]. destruct (write_bits bb v n) as [bb1|]; [|reflexivity].
  cbn [mbind option_bind]. apply IH.
Qed.

Lemma write_all_single bb v n : write_all bb [(v, n)] = write_bits bb v n.
Proof.
  cbn [write_all]. destruct (write_bits bb v n); reflexivity.
Qed.

Lemma write_extra_field bb e v :
  (if 0 <? e then write_bits bb v e else Some bb) = write_all bb (spec_extra_field e v).
Proof.
  unfold spec_extra_field. destruct (0 <? e); [|reflexivity].
  symmetry. apply write_all_single.
Qed.

Lemma calls_fit_of_fields calls : Forall field_ok calls → ∀ T, calls_fit T calls.
Proof.
  induction 1 as [|c calls [Hv Hn] _ IH]; intros T; [exact I|].
  cbn [calls_fit]. pose proof (Z.mod_pos_bound T 8 ltac:(lia)).
  split; [exact Hv|]. split; [lia | apply IH].
Qed.

Lemma widths_ok_lookup : ∀ base extra (i : nat) b nxt e,
  widths_ok base extra → base !! i = Some b → base !! S i = Some nxt →
  extra !! i = Some e → nxt - b <= 2 ^ e.
Proof.
  induction base as [|b0 base IH]; intros extra i b nxt e Hw Hb Hn He; [discriminate|].
  destruct base as [|b1 base]; [discriminate|].
  destruct extra as [|e0 extra]; [discriminate|].
  destruct Hw as [Hw0 Hw]. destruct i as [|i].
  - injection Hb as <-. injection Hn as <-. injection He as <-. exact Hw0.
  - eapply (IH extra i); eauto.
Qed.

Lemma length_widths_ok : widths_ok length_base length_extra.
Proof. repeat split; vm_compute; congruence. Qed.

Lemma dist_widths_ok : widths_ok dist_base dist_extra.
Proof. repeat split; vm_compute; congruence. Qed.

Lemma length_extra_value i b e len :
  in_range length_base len i → length_base !! i = Some b →
  length_extra !! i = Some e → 0 < e → 0 <= len - b < 2 ^ e.
Proof.
  intros (b' & Hb' & Hle & Hnext) Hb He Hpos.
  rewrite Hb in Hb'. injection Hb' as <-.
  destruct Hnext as [Hlast | (nxt & Hn & Hlt)].
  - assert (i = 28%nat) as -> by (simpl in Hlast; lia).
    vm_compute in He. injection He as <-. lia.
  - pose proof (widths_ok_lookup _ _ i b nxt e length_widths_ok Hb Hn He). lia.
Qed.

Lemma dist_extra_value j b e dist :
  dist <= 32768 → in_range dist_base dist j → dist_base !! j = Some b →
  dist_extra !! j = Some e → 0 <= dist - b < 2 ^ e.
Proof.
  intros Hd (b' & Hb' & Hle & Hnext) Hb He.
  rewrite Hb in Hb'. injection Hb' as <-.
  destruct Hnext as [Hlast | (nxt & Hn & Hlt)].
  - assert (j = 29%nat) as -> by (simpl in Hlast; lia).
    vm_compute in He, Hb. injection He as <-. injection Hb as <-.
    change (2 ^ 13) with 8192. lia.
  - pose proof (widths_ok_lookup _ _ j b nxt e dist_widths_ok Hb Hn He). lia.
Qed.

Lemma extra_field_ok e v :
  e <= 25 → (0 < e → 0 <= v < 2 ^ e) → Forall field_ok (spec_extra_field e v).
Proof.
  intros He Hv. unfold spec_extra_field. destruct (Z.ltb_spec 0 e); [|constructor].
  constructor; [|constructor]. split; [apply Hv; assumption | exact He].
Qed.

Lemma reversed_dist_spec (j : nat) :
  (j < 32)%nat →
  reversed_dist (Z.of_nat j) = spec_reverse5 (Z.of_nat j) ∧
  0 <= reversed_dist (Z.of_nat j) < 32.
Proof.
  intros Hj.
  assert (Hall : Forall (fun j => reversed_dist (Z.of_nat j) = spec_reverse5 (Z.of_nat j) ∧
                                  0 <= reversed_dist (Z.of_nat j) < 32) (seq 0 32)).
  { repeat constructor; vm_compute; congruence. }
  rewrite Forall_forall in Hall. apply Hall. apply elem_of_seq. lia.
Qed.

(** The calls [encode_token] makes are the fields of the specification. *)
Lemma encode_token_fields data p t :
  token_ok data (p, t) →
  ∃ fields, spec_token_fields t fields ∧
            (∀ bb, encode_token bb t = write_all bb fields) ∧
            Forall field_ok fields.
Proof.
  intros Htok. unfold token_ok in Htok. cbn [fst snd] in Htok.
  destruct (is_literal t) eqn:Hlit.
  - destruct Htok as (b & _ & ->). pose proof (Z_of_byte_range b) as Hb.
    eexists. split; [apply fields_literal, Hlit|]. cbn [Token.literal].
    unfold encode_token, spec_literal_fields. cbn [Token.literal].
    destruct (Z.leb_spec 0 (Z_of_byte b)); [|lia].
    destruct (Z.leb_spec (Z_of_byte b) 143).
    + split; [intros bb; symmetry; apply write_all_single|].
      constructor; [|constructor]. unfold field_ok. cbn [fst snd].
      change (2 ^ 8) with 256. lia.
    + split; [intros bb; symmetry; apply write_all_single|].
      constructor; [|constructor]. unfold field_ok. cbn [fst snd].
      change (2 ^ 9) with 512. lia.
  - destruct Htok as (Hlen & Hdist & _).
    destruct (table_lookup length_base length_extra 257 (Token.length t) (0, 0, 0)
                length_base_sorted eq_refl)
      as (i & b & e & Hin & _ & Hb & He & Hcode);
      [exists 3; split; [reflexivity | lia]|].
    destruct (table_lookup dist_base dist_extra 0 (Token.distance t) (0, 0, 0)
                dist_base_sorted eq_refl)
      as (j & db & de & Hjn & _ & Hdb & Hde & Hdcode);
      [exists 1; split; [reflexivity | lia]|].
    rewrite <- get_length_code_unfold in Hcode.
    rewrite <- get_distance_code_unfold in Hdcode.
    pose proof (length_extra_bound i e He) as Heb.
    pose proof (dist_extra_bound j de Hde) as Hdeb.
    pose proof (lookup_lt_Some _ _ _ Hb) as Hi. pose proof (lookup_lt_Some _ _ _ Hdb) as Hj.
    simpl in Hi, Hj.
    destruct (reversed_dist_spec j ltac:(lia)) as [Hrev Hrevb].
    eexists. split; [exact (fields_match t i b e j db de Hlit Hin Hb He Hjn Hdb Hde)|].
    split.
    + intros bb. unfold encode_token. unfold is_literal in Hlit. rewrite Hlit.
      rewrite Hcode. cbn [mbind option_bind]. unfold spec_code_field.
      destruct (257 + Z.of_nat i <=? 279); cbn [app write_all];
        (destruct (write_bits bb _ _) as [bb1|]; [|reflexivity]);
        cbn [mbind option_bind];
        rewrite write_all_app, write_extra_field;
        (destruct (write_all bb1 _) as [bb2|]; [|reflexivity]);
        cbn [mbind option_bind]; rewrite Hdcode; cbn [mbind option_bind app write_all];
        rewrite Z.add_0_l, <- Hrev;
        (destruct (write_bits bb2 _ 5) as [bb3|]; [|reflexivity]);
        cbn [mbind option_bind]; apply write_extra_field.
    + apply Forall_app. split.
      { constructor; [|constructor]. unfold field_ok, spec_code_field.
        destruct (Z.leb_spec (257 + Z.of_nat i) 279); cbn [fst snd];
          [change (2 ^ 7) with 128 | change (2 ^ 8) with 256]; lia. }
      apply Forall_app. split.
      { apply extra_field_ok; [lia|]. intros Hpos.
        apply (length_extra_value i); assumption. }
      apply Forall_app. split.
      { constructor; [|constructor]. unfold field_ok. cbn [fst snd].
        rewrite <- Hrev. change (2 ^ 5) with 32. lia. }
      apply extra_field_ok; [lia|]. intros _.
      apply (dist_extra_value j); try assumption. lia.
Qed.

Lemma encode_tokens_fields data tokens : ∀ p,
  Forall (token_ok data) (positions_from p tokens) →
  ∃ fieldss, Forall2 spec_token_fields tokens fieldss ∧
             (∀ bb, encode_tokens bb tokens = write_all bb (concat fieldss)) ∧
             Forall field_ok (concat fieldss).
Proof.
  induction tokens as [|t tokens IH]; intros p Hall.
  - exists []. split; [constructor|]. split; [reflexivity | constructor].
  - cbn [positions_from] in Hall. apply Forall_cons in Hall as [Ht Hall].
    destruct (encode_token_fields data p t Ht) as (fields & Hspec & Henc & Hok).
    destruct (IH _ Hall) as (fieldss & Hspecs & Hencs & Hoks).
    exists (fields :: fieldss). split; [constructor; assumption|]. split.
    + intros bb. cbn [encode_tokens concat]. rewrite write_all_app, Henc.
      destruct (write_all bb fields) as [bb1|]; [|reflexivity].
      cbn [mbind option_bind]. apply Hencs.
    + cbn [concat]. apply Forall_app. split; assumption.
Qed.

(** X1: the output is the block of the specification, bit for bit: read as a
    little-endian number the output bytes are the fields BFINAL, BTYPE, the
    fields of each token and the end-of-block code laid one after the other,
    in just the bytes these bits need (so the padding bits are zero). *)
Theorem block_encoding (data : list byte) :
  Z.of_nat (length data) <= INT_MAX →
  ∃ tokens fieldss out,
    deflate_tokens data = Some tokens ∧
    Forall2 spec_token_fields tokens fieldss ∧
    deflate_bytes data = Some out ∧
    le_value out = packed (spec_block_fields fieldss) ∧
    Z.of_nat (length out) = (total_bits (spec_block_fields fieldss) + 7) / 8.
Proof.
  intros Hint.
  destruct (deflate_tokens_spec data Hint) as (tokens & Htok & Hcov & _ & Hall).
  destruct (deflate_bytes_spec data Hint)
    as (tokens' & bb & bbf & Htok' & Hwb & _ & Hflush & _ & Hout).
  rewrite Htok in Htok'. injection Htok' as <-.
  destruct (encode_tokens_fields data tokens 0 Hall) as (fieldss & Hspecs & Hencs & Hoks).
  exists tokens, fieldss, (written bbf).
  split; [exact Htok|]. split; [exact Hspecs|]. split; [exact Hout|].
  set (size := Z.of_nat (length data)) in *.
  set (cap := if 1024 <? size * 2 then size * 2 else 1024).
  assert (Hcap : 0 < cap) by (subst cap; destruct (Z.ltb_spec 1024 (size * 2)); lia).
  assert (Hcalls : write_all (init_bitbuffer cap) (spec_block_fields fieldss) = Some bb).
  { rewrite <- Hwb. unfold write_block, spec_block_fields. fold cap.
    change ([(1, 1); (1, 2)] ++ concat fieldss ++ [(0, 7)])
      with ((1, 1) :: (1, 2) :: (concat fieldss ++ [(0, 7)])).
    cbn [write_all].
    destruct (write_bits (init_bitbuffer cap) 1 1) as [bb1|]; [|reflexivity].
    cbn [mbind option_bind].
    destruct (write_bits bb1 1 2) as [bb2|]; [|reflexivity].
    cbn [mbind option_bind]. rewrite write_all_app, Hencs.
    destruct (write_all bb2 (concat fieldss)) as [bb3|]; [|reflexivity].
    cbn [mbind option_bind]. apply write_all_single. }
  assert (Hfields : Forall field_ok (spec_block_fields fieldss)).
  { unfold spec_block_fields. apply Forall_app. split.
    - repeat constructor; vm_compute; congruence.
    - apply Forall_app. split; [exact Hoks|]. repeat constructor; vm_compute; congruence. }
  destruct (init_bitbuffer_ok cap Hcap) as (Hok0 & Hpend0 & Hbw0 & Hsv0).
  destruct (write_all_value (spec_block_fields fieldss) _ Hok0 Hpend0
              (calls_fit_of_fields _ Hfields _))
    as (bb' & Hw' & Hok' & Hpend' & Hbw' & Hsv').
  rewrite Hcalls in Hw'. injection Hw' as <-.
  destruct (flush_bits_spec bb bbf Hok' Hpend' Hflush) as (Hval & Hlt & Hle & _).
  rewrite Hbw0 in *. rewrite Hsv0 in Hsv'. change (2 ^ 0) with 1 in Hsv'.
  split; [lia|].
  apply (Z.div_unique _ 8 _ (total_bits (spec_block_fields fieldss) + 7
                             - 8 * Z.of_nat (length (written bbf)))); lia.
Qed.

Lemma block_encoding_witness :
  ∃ tokens fieldss out,
    deflate_tokens ["a"; "b"; "a"; "b"; "a"; "b"]%byte = Some tokens ∧
    Forall2 spec_token_fields tokens fieldss ∧
    deflate_bytes ["a"; "b"; "a"; "b"; "a"; "b"]%byte = Some out ∧
    le_value out = packed (spec_block_fields fieldss) ∧
    Z.of_nat (length out) = (total_bits (spec_block_fields fieldss) + 7) / 8.
Proof.
  apply (block_encoding ["a"; "b"; "a"; "b"; "a"; "b"]%byte).
  vm_compute. congruence.
Defined.

(** ** Code lookups outside the tables' ranges *)

Lemma code_loop_below base extra first value out :
  (∀ b, b ∈ base → value < b) →
  ∀ (fuel j : nat), (length base - j <= fuel)%nat →
  code_loop fuel base extra (Z.of_nat (length base)) first value (Z.of_nat j) out
  = Some out.
Proof.
  intros Hbelow. induction fuel as [|fuel IH]; intros j Hfuel.
  - cbn [code_loop].
    destruct (Z.ltb_spec (Z.of_nat j) (Z.of_nat (length base))); [lia | reflexivity].
  - cbn [code_loop].
    destruct (Z.ltb_spec (Z.of_nat j) (Z.of_nat (length base))); [|reflexivity].
    destruct (lookup_lt_is_Some_2 base j ltac:(lia)) as [bj Hbj].
    assert (Hget : array_get base (Z.of_nat j) = Some bj).
    { apply array_get_Some. rewrite Nat2Z.id. split; [lia | exact Hbj]. }
    rewrite Hget. cbn [mbind option_bind].
    pose proof (Hbelow bj (list_elem_of_lookup_2 _ _ _ Hbj)).
    destruct (Z.leb_spec bj value); [lia|].
    replace (Z.of_nat j + 1) with (Z.of_nat (S j)) by lia. apply IH. lia.
Qed.

(** X6: outside the ranges of the tables the lookups behave as follows.
    A length below 3 (a distance below 1) matches no table entry and leaves
    the three output cells as the caller set them; a length of 258 or more
    gets code 285 with no extra bits and the excess over 258 as extra value;
    a distance of 24577 or more gets code 29 with 13 extra bits and the
    excess over 24577 as extra value, also beyond 32768. *)
Theorem code_lookup_out_of_range (length distance : Z) (out : Z * Z * Z) :
  length < 3 ∨ 258 <= length → distance < 1 ∨ 24577 <= distance →
  get_length_code length out
  = Some (if length <? 3 then out else (285, 0, length - 258)) ∧
  get_distance_code distance out
  = Some (if distance <? 1 then out else (29, 13, distance - 24577)).
Proof.
  intros Hl Hd. split.
  - rewrite get_length_code_unfold. destruct (Z.ltb_spec length 3) as [Hlow|Hhigh].
    + assert (Hbelow : ∀ b, b ∈ length_base → length < b).
      { intros b Hb. assert (Hall : Forall (fun b => 3 <= b) length_base)
          by (repeat constructor; lia).
        rewrite Forall_forall in Hall. specialize (Hall b Hb). lia. }
      exact (code_loop_below length_base length_extra 257 length out Hbelow
               29%nat 0%nat ltac:(simpl; lia)).
    + destruct (table_lookup length_base length_extra 257 length out
                  length_base_sorted eq_refl)
        as (i & b & e & Hin & Huniq & Hb & He & Hcode);
        [exists 3; split; [reflexivity | lia]|].
      assert (H28 : in_range length_base length 28).
      { exists 258. split; [reflexivity|]. split; [lia | left; reflexivity]. }
      apply Huniq in H28. subst i. vm_compute in Hb, He.
      injection Hb as <-. injection He as <-. exact Hcode.
  - rewrite get_distance_code_unfold. destruct (Z.ltb_spec distance 1) as [Hlow|Hhigh].
    + assert (Hbelow : ∀ b, b ∈ dist_base → distance < b).
      { intros b Hb. assert (Hall : Forall (fun b => 1 <= b) dist_base)
          by (repeat constructor; lia).
        rewrite Forall_forall in Hall. specialize (Hall b Hb). lia. }
      exact (code_loop_below dist_base dist_extra 0 distance out Hbelow
               30%nat 0%nat ltac:(simpl; lia)).
    + destruct (table_lookup dist_base dist_extra 0 distance out
                  dist_base_sorted eq_refl)
        as (i & b & e & Hin & Huniq & Hb & He & Hcode);
        [exists 1; split; [reflexivity | lia]|].
      assert (H29 : in_range dist_base distance 29).
      { exists 24577. split; [reflexivity|]. split; [lia | left; reflexivity]. }
      apply Huniq in H29. subst i. vm_compute in Hb, He.
      injection Hb as <-. injection He as <-. exact Hcode.
Qed.

Lemma code_lookup_out_of_range_witness :
  get_length_code 2 (7, 8, 9) = Some (if 2 <? 3 then (7, 8, 9) else (285, 0, 2 - 258)) ∧
  get_distance_code 40000 (7, 8, 9)
  = Some (if 40000 <? 1 then (7, 8, 9) else (29, 13, 40000 - 24577)).
Proof.
  apply (code_lookup_out_of_range 2 40000 (7, 8, 9)); lia.
Defined.

(** ** The reversal of the distance code *)

Lemma land_bit x j :
  0 <= j → (Z.land x (Z.shiftl 1 j) =? 0) = negb (Z.testbit x j).
Proof.
  intros Hj. rewrite Z.shiftl_1_l.
  assert (E : Z.land x (2 ^ j) = if Z.testbit x j then 2 ^ j else 0).
  { apply Z.bits_inj'. intros i Hi. rewrite Z.land_spec, Z.pow2_bits_eqb by lia.
    destruct (Z.eqb_spec j i) as [->|Hne].
    - destruct (Z.testbit x i); [rewrite Z.pow2_bits_true by lia | rewrite Z.bits_0];
        reflexivity.
    - rewrite andb_false_r. destruct (Z.testbit x j);
        [rewrite Z.pow2_bits_false by lia | rewrite Z.bits_0]; reflexivity. }
  rewrite E. assert (0 < 2 ^ j) by (apply Z.pow_pos_nonneg; lia).
  destruct (Z.testbit x j); simpl; [apply Z.eqb_neq; lia | reflexivity].
Qed.

Lemma reversed_dist_bits x : reversed_dist x = spec_reverse5 x.
Proof.
  unfold reversed_dist, spec_reverse5. cbn [fold_left fold_right].
  rewrite !land_bit by lia.
  change (4 - 0) with 4. change (4 - 1) with 3. change (4 - 2) with 2.
  change (4 - 3) with 1. change (4 - 4) with 0.
  destruct (Z.testbit x 0), (Z.testbit x 1), (Z.testbit x 2), (Z.testbit x 3),
    (Z.testbit x 4); reflexivity.
Qed.

(** X7: the reversal loop is a 5-bit bit reversal for every [dist_code]: bit
    [k] of the result is bit [4 - k] of the argument, the result is below
    32, and reversing twice gives the low five bits back. *)
Theorem reversed_dist_reverses (x k : Z) :
  0 <= k < 5 →
  Z.testbit (reversed_dist x) k = Z.testbit x (4 - k) ∧
  0 <= reversed_dist x < 32 ∧
  reversed_dist (reversed_dist x) = x mod 32.
Proof.
  intros Hk.
  assert (Hcase : k = 0 ∨ k = 1 ∨ k = 2 ∨ k = 3 ∨ k = 4) by lia.
  rewrite (reversed_dist_bits x). unfold spec_reverse5. cbn [fold_right].
  change (4 - 0) with 4. change (4 - 1) with 3. change (4 - 2) with 2.
  change (4 - 3) with 1. change (4 - 4) with 0.
  assert (Hlow : ∀ c, 0 <= c < 32 →
            (∀ i, 0 <= i < 5 → Z.testbit c i = Z.testbit x i) → c = x mod 32).
  { intros c Hc Hbits. apply Z.bits_inj'. intros i Hi. change 32 with (2 ^ 5).
    destruct (Z.lt_ge_cases i 5).
    - rewrite Z.mod_pow2_bits_low by lia. apply Hbits. lia.
    - rewrite Z.mod_pow2_bits_high by lia. apply (testbit_small c 5); simpl; lia. }
  destruct (Z.testbit x 0) eqn:E0, (Z.testbit x 1) eqn:E1, (Z.testbit x 2) eqn:E2,
    (Z.testbit x 3) eqn:E3, (Z.testbit x 4) eqn:E4;
    (split;
     [destruct Hcase as [->|[->|[->|[->| ->]]]];
      [change (4 - 0) with 4 | change (4 - 1) with 3 | change (4 - 2) with 2
       | change (4 - 3) with 1 | change (4 - 4) with 0];
      rewrite ?E0, ?E1, ?E2, ?E3, ?E4; vm_compute; reflexivity|]);
    (split; [vm_compute; split; congruence|]);
    (apply Hlow; [vm_compute; split; congruence|]);
    intros i Hi;
    assert (Hi' : i = 0 ∨ i = 1 ∨ i = 2 ∨ i = 3 ∨ i = 4) by lia;
    destruct Hi' as [->|[->|[->|[->| ->]]]];
    rewrite ?E0, ?E1, ?E2, ?E3, ?E4; vm_compute; reflexivity.
Qed.

Lemma reversed_dist_reverses_witness :
  Z.testbit (reversed_dist 19) 1 = Z.testbit 19 (4 - 1) ∧
  0 <= reversed_dist 19 < 32 ∧
  reversed_dist (reversed_dist 19) = 19 mod 32.
Proof.
  apply (reversed_dist_reverses 19 1). lia.
Defined.

(** ** Growth of the output buffer *)

Lemma emit_byte_capacity bb bb' :
  emit_byte bb = Some bb' →
  capacity bb' = if capacity bb <=? pos bb then capacity bb * 2 else capacity bb.
Proof.
  unfold emit_byte. destruct (capacity bb <=? pos bb);
    (destruct (array_set _ _ _) as [out|]; [|discriminate]);
    cbn [mbind option_bind]; intros H; injection H as <-; reflexivity.
Qed.

Lemma write_bits_loop_frame fuel : ∀ bb bb',
  buffer_ok bb → 0 <= count bb → write_bits_loop fuel bb = Some bb' →
  ∃ (tail : list byte) (k : nat),
    written bb' = written bb ++ tail ∧
    Z.of_nat (length tail) = count bb / 8 ∧
    capacity bb' = capacity bb * 2 ^ Z.of_nat k ∧
    (pos bb + count bb / 8 <= capacity bb → k = 0%nat).
Proof.
  induction fuel as [|fuel IH]; intros bb bb' Hok Hc Hloop; cbn [write_bits_loop] in Hloop;
    destruct (Z.leb_spec 8 (count bb)) as [Hge|Hlt]; try discriminate.
  - injection Hloop as <-. exists [], 0%nat. rewrite app_nil_r, Z.div_small by lia.
    simpl. split_conj; try reflexivity; lia.
  - destruct (emit_byte_spec bb Hok) as (bb1 & He & Hok1 & _ & Hp & Hcnt & _ & Hw).
    pose proof (emit_byte_capacity bb bb1 He) as Hcap1.
    rewrite He in Hloop. cbn [mbind option_bind] in Hloop.
    destruct (IH bb1 bb' Hok1 ltac:(lia) Hloop) as (tail & k & Hw' & Hlen & Hcap' & Hk).
    assert (Hdiv : count bb / 8 = count bb1 / 8 + 1).
    { rewrite Hcnt. replace (count bb) with ((count bb - 8) + 1 * 8) at 1 by lia.
      rewrite Z.div_add by lia. reflexivity. }
    assert (0 <= count bb1 / 8) by (apply Z.div_pos; lia).
    destruct (Z.leb_spec (capacity bb) (pos bb)) as [Hfull|Hroom].
    + exists (byte_of_Z (Z.land (bits bb) 255) :: tail), (S k).
      rewrite Hw', Hw, <- app_assoc. split; [reflexivity|].
      split; [simpl length; lia|]. split; [|lia].
      rewrite Hcap', Hcap1, Nat2Z.inj_succ, Z.pow_succ_r by lia. lia.
    + exists (byte_of_Z (Z.land (bits bb) 255) :: tail), k.
      rewrite Hw', Hw, <- app_assoc. split; [reflexivity|].
      split; [simpl length; lia|]. split; [rewrite Hcap', Hcap1; reflexivity|].
      intros Hfit. apply Hk. lia.
  - injection Hloop as <-. exists [], 0%nat. rewrite app_nil_r, Z.div_small by lia.
    simpl. split_conj; try reflexivity; lia.
Qed.

(** X8: [write_bits] only appends: the bytes already written stay as they
    are and (pending + n) / 8 new bytes follow them.  The buffer grows only
    by doubling, and not at all when the new bytes fit the capacity. *)
Theorem write_bits_appends (bb : BitBuffer) (v n : Z) :
  buffer_ok bb → 0 <= count bb < 8 → 0 <= n <= INT_MAX - 7 →
  ∃ bb' (tail : list byte) (k : nat),
    write_bits bb v n = Some bb' ∧
    written bb' = written bb ++ tail ∧
    Z.of_nat (length tail) = (count bb + n) / 8 ∧
    capacity bb' = capacity bb * 2 ^ Z.of_nat k ∧
    (pos bb + (count bb + n) / 8 <= capacity bb → k = 0%nat).
Proof.
  intros Hok Hc Hn.
  destruct (write_bits_shape bb v n Hok Hc Hn) as (bb' & Hw & _).
  pose proof Hw as Hloop. unfold write_bits in Hloop.
  rewrite to_int_id in Hloop by (unfold INT_MAX in *; lia).
  apply write_bits_loop_frame in Hloop as (tail & k & Hwr & Hlen & Hcap & Hk).
  - exists bb', tail, k. cbn [count pos capacity] in *. auto.
  - destruct Hok as (H1 & H2 & H3 & H4). unfold buffer_ok. cbn [capacity pos output bits].
    split_conj; try assumption; try lia.
    apply Z.lor_nonneg. split; [exact H4 | apply to_uint32_range].
  - cbn [count]. lia.
Qed.

Lemma write_bits_appends_witness :
  ∃ bb' (tail : list byte) (k : nat),
    write_bits (init_bitbuffer 1) 11259375 24 = Some bb' ∧
    written bb' = written (init_bitbuffer 1) ++ tail ∧
    Z.of_nat (length tail) = (count (init_bitbuffer 1) + 24) / 8 ∧
    capacity bb' = capacity (init_bitbuffer 1) * 2 ^ Z.of_nat k ∧
    (pos (init_bitbuffer 1) + (count (init_bitbuffer 1) + 24) / 8
     <= capacity (init_bitbuffer 1) → k = 0%nat).
Proof.
  apply (write_bits_appends (init_bitbuffer 1) 11259375 24).
  - apply init_bitbuffer_ok. lia.
  - vm_compute. split; congruence.
  - vm_compute. split; congruence.
Defined.

(** X9: a buffer created with capacity 0 cannot take a byte: doubling 0
    leaves 0, so the first byte store of [write_bits] (and of
    [flush_bits]) is outside the block. *)
Theorem zero_capacity_store_fails (v n : Z) :
  8 <= n <= INT_MAX →
  write_bits (init_bitbuffer 0) v n = None ∧
  (∀ bb, write_bits (init_bitbuffer 0) v 1 = Some bb → flush_bits bb = None).
Proof.
  intros Hn. split.
  - unfold write_bits. cbn [count bits output pos capacity init_bitbuffer].
    rewrite Z.add_0_l, to_int_id by (unfold INT_MAX in *; lia).
    destruct (Z.to_nat n) as [|fuel] eqn:Hfuel; [lia|].
    cbn [write_bits_loop count]. destruct (Z.leb_spec 8 n); [|lia]. reflexivity.
  - intros bb Hw. unfold write_bits in Hw.
    cbn [count bits output pos capacity init_bitbuffer] in Hw.
    change (to_int (0 + 1)) with 1 in Hw. cbn in Hw. injection Hw as <-.
    reflexivity.
Qed.

Lemma zero_capacity_store_fails_witness :
  write_bits (init_bitbuffer 0) 255 8 = None ∧
  (∀ bb, write_bits (init_bitbuffer 0) 255 1 = Some bb → flush_bits bb = None).
Proof.
  apply (zero_capacity_store_fails 255 8). vm_compute. split; congruence.
Defined.

(** ** The size of the output *)

Lemma write_bits_keep bb v n :
  buffer_ok bb → 0 <= count bb < 8 → 0 <= n <= 32 →
  ∃ bb', write_bits bb v n = Some bb' ∧ buffer_ok bb' ∧ 0 <= count bb' < 8 ∧
         bits_written bb' = bits_written bb + n ∧
         (pos bb' <= capacity bb → capacity bb' = capacity bb).
Proof.
  intros Hok Hc Hn.
  destruct (write_bits_shape bb v n Hok Hc ltac:(unfold INT_MAX; lia))
    as (bb' & Hw & Hok' & _ & Hp & Hcnt & _).
  destruct (write_bits_appends bb v n Hok Hc ltac:(unfold INT_MAX; lia))
    as (bb2 & tail & k & Hw2 & _ & _ & Hcap & Hk).
  rewrite Hw in Hw2. injection Hw2 as <-.
  pose proof (Z.div_mod (count bb + n) 8 ltac:(lia)).
  pose proof (Z.mod_pos_bound (count bb + n) 8 ltac:(lia)).
  exists bb'. unfold bits_written. split_conj; try assumption; try lia.
  intros Hfit. rewrite Hcap, (Hk ltac:(lia)). simpl. lia.
Qed.

Lemma write_all_keep calls : ∀ bb,
  buffer_ok bb → 0 <= count bb < 8 → Forall (fun c => 0 <= c.2 <= 32) calls →
  ∃ bb', write_all bb calls = Some bb' ∧ buffer_ok bb' ∧ 0 <= count bb' < 8 ∧
         bits_written bb' = bits_written bb + total_bits calls ∧
         (pos bb' <= capacity bb → capacity bb' = capacity bb).
Proof.
  induction calls as [|[v n] calls IH]; intros bb Hok Hc Hall.
  - exists bb. unfold total_bits. simpl.
    split_conj; try reflexivity; try assumption; try apply Hc; lia.
  - apply Forall_cons in Hall as [Hn Hall]. simpl in Hn.
    destruct (write_bits_keep bb v n Hok Hc Hn) as (bb1 & Hw & Hok1 & Hc1 & Hbw1 & Hcap1).
    destruct (IH bb1 Hok1 Hc1 Hall) as (bb' & Hw' & Hok' & Hc' & Hbw' & Hcap').
    exists bb'. cbn [write_all]. rewrite Hw. cbn [mbind option_bind].
    assert (Htot : 0 <= total_bits calls).
    { clear -Hall. unfold total_bits. induction Hall as [|c calls Hc _ IH]; simpl; lia. }
    unfold total_bits in *. cbn [fold_right snd].
    split; [exact Hw'|]. split; [exact Hok'|]. split; [exact Hc'|]. split; [lia|].
    intros Hfit. unfold bits_written in *.
    assert (Hpos1 : pos bb1 <= pos bb') by lia.
    rewrite <- (Hcap1 ltac:(lia)). apply Hcap'. rewrite (Hcap1 ltac:(lia)). exact Hfit.
Qed.

Lemma write_block_as_calls tokens fieldss input_size :
  (∀ bb, encode_tokens bb tokens = write_all bb (concat fieldss)) →
  write_block input_size tokens
  = write_all (init_bitbuffer (if 1024 <? input_size * 2 then input_size * 2 else 1024))
      (spec_block_fields fieldss).
Proof.
  intros Henc. unfold write_block, spec_block_fields.
  change ([(1, 1); (1, 2)] ++ concat fieldss ++ [(0, 7)])
    with ((1, 1) :: (1, 2) :: (concat fieldss ++ [(0, 7)])).
  cbn [write_all].
  destruct (write_bits (init_bitbuffer _) 1 1) as [bb1|]; [|reflexivity].
  cbn [mbind option_bind].
  destruct (write_bits bb1 1 2) as [bb2|]; [|reflexivity].
  cbn [mbind option_bind]. rewrite write_all_app, Henc.
  destruct (write_all bb2 (concat fieldss)) as [bb3|]; [|reflexivity].
  cbn [mbind option_bind]. symmetry. apply write_all_single.
Qed.

(** X10: the output is never longer than (9 n + 17) / 8 bytes for an input
    of [n] bytes (nine bits for each input byte, ten bits of header and end
    marker, padding), and the output buffer of max(2 n, 1024) bytes is never
    reallocated. *)
Theorem compressed_size_bound (data : list byte) :
  Z.of_nat (length data) <= INT_MAX →
  ∃ tokens bbf,
    deflate_tokens data = Some tokens ∧
    encode_block (Z.of_nat (length data)) tokens = Some bbf ∧
    deflate_bytes data = Some (written bbf) ∧
    capacity bbf = Z.max (Z.of_nat (length data) * 2) 1024 ∧
    8 * Z.of_nat (length (written bbf)) <= 9 * Z.of_nat (length data) + 17.
Proof.
  intros Hint.
  destruct (deflate_tokens_spec data Hint) as (tokens & Htok & Hcov & _ & Hall).
  destruct (deflate_bytes_spec data Hint)
    as (tokens' & bb & bbf & Htok' & Hwb & Hlt & Hflush & Henc & Hout).
  rewrite Htok in Htok'. injection Htok' as <-.
  destruct (write_block_spec data tokens Hcov Hall) as (bb0 & Hwb0 & Hok & Hc & _ & Hbw).
  rewrite Hwb in Hwb0. injection Hwb0 as <-.
  destruct (encode_tokens_fields data tokens 0 Hall) as (fieldss & _ & Hencs & Hoks).
  exists tokens, bbf. split; [exact Htok|]. split; [exact Henc|]. split; [exact Hout|].
  set (size := Z.of_nat (length data)) in *.
  set (cap := if 1024 <? size * 2 then size * 2 else 1024).
  assert (Hcap : cap = Z.max (size * 2) 1024)
    by (subst cap; destruct (Z.ltb_spec 1024 (size * 2)); lia).
  assert (Hfields : Forall (fun c : Z * Z => 0 <= c.2 <= 32) (spec_block_fields fieldss)).
  { unfold spec_block_fields. apply Forall_app. split; [repeat constructor; simpl; lia|].
    apply Forall_app. split; [|repeat constructor; simpl; lia].
    eapply Forall_impl; [exact Hoks|]. intros [v n] [Hv Hn]. simpl in *.
    split; [|lia]. destruct (Z.lt_ge_cases n 0); [|assumption].
    rewrite Z.pow_neg_r in Hv by assumption. lia. }
  destruct (init_bitbuffer_ok cap ltac:(lia)) as (Hok0 & [Hc0 _] & _ & _).
  destruct (write_all_keep (spec_block_fields fieldss) _ Hok0 Hc0 Hfields)
    as (bb1 & Hw1 & _ & _ & _ & Hkeep).
  pose proof (write_block_as_calls tokens fieldss size Hencs) as Hcalls.
  change (if 1024 <? size * 2 then size * 2 else 1024) with cap in Hcalls.
  rewrite Hwb, Hw1 in Hcalls. injection Hcalls as Ebb. subst bb1.
  change (capacity (init_bitbuffer cap)) with cap in Hkeep.
  unfold bits_written in Hbw.
  assert (Hcapbb : capacity bb = cap) by (apply Hkeep; lia).
  unfold flush_bits in Hflush. destruct (Z.ltb_spec 0 (count bb)) as [Hpend|Hnone].
  - destruct (array_set (output bb) (pos bb) _) as [out|] eqn:Hset; [|discriminate].
    cbn [mbind option_bind] in Hflush. injection Hflush as <-.
    apply array_set_Some in Hset as [Hrange ->].
    unfold written. cbn [capacity pos output].
    rewrite length_take_le by (rewrite length_insert; lia). lia.
  - injection Hflush as <-. destruct Hok as (_ & Hp & Hl & _).
    unfold written. rewrite length_take_le by lia. lia.
Qed.

Lemma compressed_size_bound_witness :
  ∃ tokens bbf,
    deflate_tokens ["a"; "b"; "c"; "d"]%byte = Some tokens ∧
    encode_block (Z.of_nat (length ["a"; "b"; "c"; "d"]%byte)) tokens = Some bbf ∧
    deflate_bytes ["a"; "b"; "c"; "d"]%byte = Some (written bbf) ∧
    capacity bbf = Z.max (Z.of_nat (length ["a"; "b"; "c"; "d"]%byte) * 2) 1024 ∧
    8 * Z.of_nat (length (written bbf))
    <= 9 * Z.of_nat (length ["a"; "b"; "c"; "d"]%byte) + 17.
Proof.
  apply (compressed_size_bound ["a"; "b"; "c"; "d"]%byte).
  vm_compute. congruence.
Defined.

(** ** Matches are extended as far as they go *)

Lemma match_length_maximal data match_pos pos max_len :
  0 <= match_pos → 0 <= pos →
  ∀ (fuel : nat) (len r : Z),
    0 <= len <= max_len →
    match_length fuel data match_pos pos max_len len = Some r →
    r = max_len ∨
    data !! Z.to_nat (match_pos + r) ≠ data !! Z.to_nat (pos + r).
Proof.
  intros Hmp Hpos. induction fuel as [|fuel IH]; intros len r Hlen Hm;
    cbn [match_length] in Hm;
    (destruct (Z.ltb_spec len max_len) as [Hlt|Hge];
     [|injection Hm as <-; left; lia]);
    (destruct (array_get data (match_pos + len)) as [a|] eqn:Ha; [|discriminate]);
    (destruct (array_get data (pos + len)) as [b|] eqn:Hb; [|discriminate]);
    cbn [mbind option_bind] in Hm;
    (destruct (Byte.eqb a b) eqn:Hab;
     [|injection Hm as <-; right;
       apply array_get_Some in Ha as [_ Ha]; apply array_get_Some in Hb as [_ Hb];
       rewrite Ha, Hb; intros E; injection E as ->;
       assert (Byte.eqb b b = true) by (apply byte_eqb_eq; reflexivity); congruence]).
  - discriminate.
  - apply (IH (len + 1)); [lia | exact Hm].
Qed.

Section ChainWalkMaximal.
Variables (data : list byte) (prev : list (option Z)) (size pos : Z).
Hypothesis size_int : size <= INT_MAX.
Hypothesis pos_range : 0 <= pos <= size.
Hypothesis links_ok : ∀ p v, load_prev prev p = Some v → chain_ok prev p v.

Lemma chain_visits_maximal : ∀ (links : nat) (bound match_pos : Z) visits,
  bound <= pos → chain_ok prev bound match_pos →
  chain_visits links data prev size pos match_pos = Some visits →
  Forall (fun v => v.2 = Z.min 258 (size - pos) ∨
                   data !! Z.to_nat (pos - v.1 + v.2) ≠ data !! Z.to_nat (pos + v.2))
         visits.
Proof.
  induction links as [|links IH]; intros bound match_pos visits Hbound Hchain Hv;
    cbn [chain_visits] in Hv.
  { injection Hv as <-. constructor. }
  destruct (Z.leb_spec 0 match_pos) as [Hmp|Hneg]; [|injection Hv as <-; constructor].
  destruct Hchain as [->|[Hrange [next Hnext]]]; [lia|].
  rewrite to_int_id in Hv by (unfold INT_MAX in *; lia).
  destruct (Z.ltb_spec MAX_DIST (pos - match_pos)); [injection Hv as <-; constructor|].
  destruct (Z.leb_spec (pos - match_pos) 0); [injection Hv as <-; constructor|].
  cbn [orb] in Hv.
  set (max_len := to_int (if size - pos <? MAX_MATCH then size - pos else MAX_MATCH)) in *.
  assert (Hmax : max_len = Z.min 258 (size - pos)).
  { subst max_len. unfold MAX_MATCH.
    destruct (Z.ltb_spec (size - pos) 258);
      rewrite to_int_id by (unfold INT_MAX in *; lia); lia. }
  destruct (match_length (Z.to_nat max_len) data match_pos pos max_len 0) as [len|] eqn:Hlen;
    [|discriminate].
  cbn [mbind option_bind] in Hv. rewrite Hnext in Hv. cbn [mbind option_bind] in Hv.
  destruct (chain_visits links data prev size pos next) as [rest|] eqn:Hrest; [|discriminate].
  cbn [mbind option_bind] in Hv. injection Hv as <-.
  constructor.
  - cbn [fst snd].
    replace (pos - (pos - match_pos) + len) with (match_pos + len) by lia.
    rewrite <- Hmax.
    apply (match_length_maximal data match_pos pos max_len ltac:(lia) ltac:(lia)
             (Z.to_nat max_len) 0 len); [lia | exact Hlen].
  - apply (IH match_pos next rest); [lia | apply links_ok, Hnext | exact Hrest].
Qed.
End ChainWalkMaximal.

Lemma find_match_maximal data st best :
  Z.of_nat (length data) <= INT_MAX → matcher_ok data st →
  find_match data (m_hash_table st) (m_prev st) (Z.of_nat (length data)) (m_pos st)
  = Some best →
  MIN_MATCH <= best.1 →
  match_maximal data (m_pos st) (Token.mk (-1) best.1 best.2).
Proof.
  intros Hint Hok Hfind Hlen.
  destruct (Z.le_gt_cases (m_pos st + MIN_MATCH) (Z.of_nat (length data))) as [Hroom|Hnone].
  - destruct (find_match_visits data st Hint Hok Hroom)
      as (h & mp & visits & Hh & Hmp & Hvis & Hfind' & _ & _ & _).
    rewrite Hfind in Hfind'. injection Hfind' as ->.
    pose proof Hok as (Hpos & (_ & _ & Hheads & Hlinks) & _).
    assert (Hlinks' : ∀ p v, load_prev (m_prev st) p = Some v → chain_ok (m_prev st) p v).
    { intros p v Hv. eapply Hlinks, Hv. }
    pose proof (chain_visits_maximal data (m_prev st) (Z.of_nat (length data)) (m_pos st)
                  Hint ltac:(lia) Hlinks' 128 (m_pos st) mp visits ltac:(lia)
                  (Hheads _ _ Hmp) Hvis) as Hmax.
    destruct (fold_update_best_split visits (0, 0))
      as [[Hr _] | (_ & _ & pre & post & Hsplit & _ & _)].
    + rewrite Hr in Hlen. unfold MIN_MATCH in Hlen. simpl in Hlen. lia.
    + rewrite Forall_forall in Hmax.
      remember (fold_left update_best visits (0, 0)) as r eqn:Er.
      assert (Hin : (r.2, r.1) ∈ visits).
      { rewrite Hsplit. apply elem_of_app. right. left. }
      exact (Hmax _ Hin).
  - unfold find_match in Hfind.
    destruct (Z.leb_spec (m_pos st + MIN_MATCH) (Z.of_nat (length data))); [lia|].
    injection Hfind as <-. unfold MIN_MATCH in Hlen. simpl in Hlen. lia.
Qed.

(** What one iteration of the main loop appends. *)
Lemma lz77_step_token data size st st' :
  lz77_step data size st = Some st' →
  ∃ best t,
    find_match data (m_hash_table st) (m_prev st) size (m_pos st) = Some best ∧
    m_tokens st' = m_tokens st ++ [t] ∧
    ((MIN_MATCH <= best.1 ∧ t = Token.mk (-1) best.1 best.2) ∨
     (best.1 < MIN_MATCH ∧ is_literal t = true)).
Proof.
  unfold lz77_step. intros Hstep.
  destruct (find_match data (m_hash_table st) (m_prev st) size (m_pos st))
    as [[bl bd]|]; [|discriminate].
  cbn [mbind option_bind] in Hstep. exists (bl, bd).
  unfold push_token in Hstep.
  destruct (Z.of_nat (length (m_tokens st)) <? size * 2);
    [|destruct (MIN_MATCH <=? bl); [discriminate|];
      destruct (array_get data (m_pos st)); discriminate].
  destruct (Z.leb_spec MIN_MATCH bl) as [Hm|Hl].
  - cbn [mbind option_bind] in Hstep.
    destruct (insert_range _ data _ _ size _ bl 0) as [[ht' prev']|]; [|discriminate].
    cbn [mbind option_bind] in Hstep. injection Hstep as <-.
    eexists. split; [reflexivity|]. split; [reflexivity|]. left. auto.
  - destruct (array_get data (m_pos st)) as [b|]; [|discriminate].
    cbn [mbind option_bind] in Hstep.
    destruct (if m_pos st + 2 <? size then _ else _) as [[ht' prev']|]; [|discriminate].
    cbn [mbind option_bind] in Hstep. injection Hstep as <-.
    eexists. split; [reflexivity|]. split; [reflexivity|]. right.
    split; [exact Hl|]. unfold is_literal. cbn [Token.literal].
    apply Z.leb_le. pose proof (Z_of_byte_range b). lia.
Qed.

Lemma lz77_reach_maximal data st :
  Z.of_nat (length data) <= INT_MAX → lz77_reach data st →
  Forall (fun pt => is_literal pt.2 = false → match_maximal data pt.1 pt.2)
         (token_positions (m_tokens st)).
Proof.
  intros Hint Hreach. induction Hreach as [|st st' Hreach IH Hlt Hstep].
  - constructor.
  - pose proof (lz77_reach_ok data st Hint Hreach) as Hok.
    destruct (lz77_step_token _ _ _ _ Hstep) as (best & t & Hfind & Htoks & Hcase).
    rewrite Htoks. unfold token_positions in *. rewrite positions_from_app.
    apply Forall_app. split; [exact IH|].
    pose proof Hok as (_ & _ & _ & Hcov & _).
    cbn [positions_from]. rewrite Z.add_0_l, Hcov. constructor; [|constructor].
    cbn [fst snd]. intros Hlit. destruct Hcase as [[Hm ->] | [_ Hl]]; [|congruence].
    apply find_match_maximal; assumption.
Qed.

(** X11: for every input of at most [INT_MAX] bytes every match token is
    extended as far as it goes: its length is the cap min(258, size - p), or
    the input byte that follows the copy source differs from the one that
    follows the match. *)
Theorem matches_are_maximal (data : list byte) :
  Z.of_nat (length data) <= INT_MAX →
  ∃ tokens, lz77_compress data = Some tokens ∧
    ∀ p t, (p, t) ∈ token_positions tokens → is_literal t = false →
           match_maximal data p t.
Proof.
  intros Hint.
  destruct (lz77_loop_spec data Hint (length data) (lz77_init data) (reach_init data))
    as (st & Hloop & Hreach & _); [simpl; lia|].
  exists (m_tokens st). split; [exact Hloop|].
  intros p t Hin Hlit.
  pose proof (lz77_reach_maximal data st Hint Hreach) as Hall.
  rewrite Forall_forall in Hall. exact (Hall (p, t) Hin Hlit).
Qed.

Lemma matches_are_maximal_witness :
  ∃ tokens, lz77_compress ["a"; "b"; "c"; "a"; "b"; "c"; "a"; "d"]%byte = Some tokens ∧
    ∀ p t, (p, t) ∈ token_positions tokens → is_literal t = false →
           match_maximal ["a"; "b"; "c"; "a"; "b"; "c"; "a"; "d"]%byte p t.
Proof.
  apply (matches_are_maximal ["a"; "b"; "c"; "a"; "b"; "c"; "a"; "d"]%byte).
  vm_compute. congruence.
Defined.

(** ** Symbol frequencies *)

Lemma count_occ_snoc (symbols : list Z) (i s : Z) :
  Z.of_nat (count_occ Z.eq_dec (symbols ++ [i]) s)
  = Z.of_nat (count_occ Z.eq_dec symbols s) + (if Z.eq_dec i s then 1 else 0).
Proof.
  rewrite count_occ_app. cbn [count_occ]. destruct (Z.eq_dec i s); lia.
Qed.

Lemma bump_tally n symbols freq i :
  is_tally n symbols freq → 0 <= i < n →
  Z.of_nat (count_occ Z.eq_dec symbols i) < INT_MAX →
  ∃ freq', bump freq i = Some freq' ∧ is_tally n (symbols ++ [i]) freq'.
Proof.
  intros (Hlen & Hcells & Hsyms) Hi Hroom. unfold bump.
  assert (Hget : array_get freq i = Some (Z.of_nat (count_occ Z.eq_dec symbols i))).
  { apply array_get_Some. split; [lia | apply Hcells, Hi]. }
  rewrite Hget. cbn [mbind option_bind].
  destruct (Z.ltb_spec (Z.of_nat (count_occ Z.eq_dec symbols i)) INT_MAX); [|lia].
  rewrite array_set_in_range by lia.
  eexists. split; [reflexivity|]. split; [|split].
  - rewrite length_insert. exact Hlen.
  - intros s Hs. rewrite count_occ_snoc.
    destruct (Z.eq_dec i s) as [->|Hne].
    + apply list_lookup_insert_eq. lia.
    + rewrite list_lookup_insert_ne by lia. rewrite Z.add_0_r. apply Hcells, Hs.
  - apply Forall_app. split; [exact Hsyms|]. constructor; [exact Hi | constructor].
Qed.

Lemma is_tally_init (n : Z) : 0 <= n → is_tally n [] (replicate (Z.to_nat n) 0).
Proof.
  intros Hn. split; [|split].
  - rewrite length_replicate. lia.
  - intros s Hs. cbn [count_occ]. apply lookup_replicate_2. lia.
  - constructor.
Qed.

Lemma count_token_spec data p t lit_freq dist_freq lsyms dsyms :
  token_ok data (p, t) →
  is_tally 286 lsyms lit_freq → is_tally 30 dsyms dist_freq →
  Z.of_nat (length lsyms) < INT_MAX → Z.of_nat (length dsyms) < INT_MAX →
  ∃ lit_freq' dist_freq' s ds,
    count_token lit_freq dist_freq t = Some (lit_freq', dist_freq') ∧
    lit_symbol t s ∧ s ≠ 256 ∧
    Forall2 dist_symbol (match_tokens [t]) ds ∧
    is_tally 286 (lsyms ++ [s]) lit_freq' ∧
    is_tally 30 (dsyms ++ ds) dist_freq'.
Proof.
  intros Htok Hlit Hdist Hl Hd.
  pose proof (count_occ_bound Z.eq_dec) as Hbound.
  unfold token_ok in Htok. cbn [fst snd] in Htok.
  unfold count_token, lit_symbol, match_tokens. cbn [List.filter].
  destruct (is_literal t) eqn:Eliteral; unfold is_literal in Eliteral; rewrite Eliteral.
  - destruct Htok as (b & _ & ->). cbn [Token.literal] in *.
    pose proof (Z_of_byte_range b) as Hb.
    destruct (bump_tally 286 lsyms lit_freq (Z_of_byte b) Hlit ltac:(lia))
      as (lit' & Hbump & Htally).
    { specialize (Hbound (Z_of_byte b) lsyms). lia. }
    rewrite Hbump. cbn [mbind option_bind negb].
    exists lit', dist_freq, (Z_of_byte b), [].
    rewrite app_nil_r. split_conj; auto; try lia; constructor.
  - destruct Htok as (Hlen & Hdst & _).
    rewrite get_length_code_unfold.
    destruct (table_lookup length_base length_extra 257 (Token.length t) (0, 0, 0)
                length_base_sorted eq_refl)
      as (i & b & e & Hi & _ & Hb & _ & ->).
    { exists 3. split; [reflexivity | lia]. }
    cbn [mbind option_bind fst snd negb].
    apply lookup_lt_Some in Hb. change (length length_base) with 29%nat in Hb.
    destruct (bump_tally 286 lsyms lit_freq (257 + Z.of_nat i) Hlit ltac:(lia))
      as (lit' & Hbump & Htally).
    { specialize (Hbound (257 + Z.of_nat i) lsyms). lia. }
    rewrite Hbump. cbn [mbind option_bind].
    rewrite get_distance_code_unfold.
    destruct (table_lookup dist_base dist_extra 0 (Token.distance t)
                (257 + Z.of_nat i, e, Token.length t - b) dist_base_sorted eq_refl)
      as (j & db & de & Hj & _ & Hdb & _ & ->).
    { exists 1. split; [reflexivity | lia]. }
    cbn [mbind option_bind fst snd].
    apply lookup_lt_Some in Hdb. change (length dist_base) with 30%nat in Hdb.
    rewrite Z.add_0_l.
    destruct (bump_tally 30 dsyms dist_freq (Z.of_nat j) Hdist ltac:(lia))
      as (dist' & Hbumpd & Htallyd).
    { specialize (Hbound (Z.of_nat j) dsyms). lia. }
    rewrite Hbumpd. cbn [mbind option_bind].
    exists lit', dist', (257 + Z.of_nat i), [Z.of_nat j].
    split_conj; auto; try lia.
    + exists i. auto.
    + constructor; [|constructor]. exists j. auto.
Qed.

Lemma match_tokens_cons t tokens :
  match_tokens (t :: tokens) = match_tokens [t] ++ match_tokens tokens.
Proof. unfold match_tokens. cbn [List.filter]. destruct (negb (is_literal t)); reflexivity. Qed.

Lemma match_tokens_length tokens : (length (match_tokens tokens) <= length tokens)%nat.
Proof.
  induction tokens as [|t tokens IH]; [simpl; lia|].
  unfold match_tokens in *. cbn [List.filter]. destruct (negb (is_literal t)); simpl; lia.
Qed.

Lemma count_tokens_spec data tokens : ∀ p lit_freq dist_freq lsyms dsyms,
  Forall (token_ok data) (positions_from p tokens) →
  is_tally 286 lsyms lit_freq → is_tally 30 dsyms dist_freq →
  Z.of_nat (length lsyms) + Z.of_nat (length tokens) <= INT_MAX →
  Z.of_nat (length dsyms) + Z.of_nat (length tokens) <= INT_MAX →
  ∃ lit_freq' dist_freq' ls ds,
    count_tokens lit_freq dist_freq tokens = Some (lit_freq', dist_freq') ∧
    Forall2 lit_symbol tokens ls ∧ (256 ∉ ls) ∧
    Forall2 dist_symbol (match_tokens tokens) ds ∧
    is_tally 286 (lsyms ++ ls) lit_freq' ∧
    is_tally 30 (dsyms ++ ds) dist_freq'.
Proof.
  induction tokens as [|t tokens IH];
    intros p lit_freq dist_freq lsyms dsyms Hall Hlit Hdist Hl Hd.
  - exists lit_freq, dist_freq, [], []. rewrite !app_nil_r.
    split_conj; auto; try constructor. apply not_elem_of_nil.
  - cbn [positions_from] in Hall. apply Forall_cons in Hall as [Htok Hall].
    cbn [length] in Hl, Hd.
    destruct (count_token_spec data p t lit_freq dist_freq lsyms dsyms Htok Hlit Hdist
                ltac:(lia) ltac:(lia))
      as (lit1 & dist1 & s & ds1 & Hstep & Hs & Hne & Hds1 & Hlit1 & Hdist1).
    assert (Hds1len : (length ds1 <= 1)%nat).
    { apply Forall2_length in Hds1. rewrite <- Hds1.
      apply (match_tokens_length [t]). }
    destruct (IH _ lit1 dist1 (lsyms ++ [s]) (dsyms ++ ds1) Hall Hlit1 Hdist1)
      as (lit2 & dist2 & ls & ds & Hrest & Hls & H256 & Hds & Hlit2 & Hdist2).
    { rewrite length_app. simpl. lia. }
    { rewrite length_app. lia. }
    exists lit2, dist2, (s :: ls), (ds1 ++ ds).
    cbn [count_tokens]. rewrite Hstep. cbn [mbind option_bind].
    rewrite <- !app_assoc in *. cbn [app] in Hlit2.
    split; [exact Hrest|]. split; [constructor; assumption|].
    split; [apply not_elem_of_cons; split; [lia | exact H256]|].
    split; [rewrite match_tokens_cons; apply Forall2_app; assumption|].
    split; assumption.
Qed.

Lemma count_frequencies_spec (data : list byte) :
  Z.of_nat (length data) <= INT_MAX →
  ∃ tokens lit_freq dist_freq lsyms dsyms,
    deflate_tokens data = Some tokens ∧
    (length tokens <= length data)%nat ∧
    count_frequencies tokens = Some (lit_freq, dist_freq) ∧
    Forall2 lit_symbol tokens lsyms ∧
    Forall2 dist_symbol (match_tokens tokens) dsyms ∧
    is_tally 286 (lsyms ++ [256]) lit_freq ∧
    is_tally 30 dsyms dist_freq ∧
    lit_freq !! 256%nat = Some 1.
Proof.
  intros Hint.
  assert (Htokens : ∃ tokens, deflate_tokens data = Some tokens ∧
                      (length tokens <= length data)%nat ∧
                      Forall (token_ok data) (token_positions tokens)).
  { unfold deflate_tokens.
    destruct (Z.ltb_spec 0 (Z.of_nat (length data))) as [Hpos|Hzero].
    - destruct (lz77_compress_spec data Hint) as (tokens & Hc & Hlen & _ & _ & Htoks).
      exists tokens. auto.
    - exists []. split; [reflexivity|]. split; [simpl; lia | constructor]. }
  destruct Htokens as (tokens & Htokens & Hlen & Hall).
  destruct (count_tokens_spec data tokens 0 _ _ [] [] Hall
              (is_tally_init 286 ltac:(lia)) (is_tally_init 30 ltac:(lia)))
    as (lit1 & dist1 & ls & ds & Hcount & Hls & H256 & Hds & Hlit1 & Hdist1).
  { simpl. lia. }
  { simpl. lia. }
  cbn [app] in Hlit1, Hdist1.
  assert (Hzero : count_occ Z.eq_dec ls 256 = 0%nat).
  { apply count_occ_not_In. rewrite <- list_elem_of_In. exact H256. }
  destruct (bump_tally 286 ls lit1 256 Hlit1 ltac:(lia)) as (lit2 & Hbump & Hlit2).
  { rewrite Hzero. vm_compute. reflexivity. }
  exists tokens, lit2, dist1, ls, ds.
  unfold count_frequencies.
  change (Z.to_nat MAX_CODES) with (Z.to_nat 286).
  change (Z.to_nat DIST_CODES) with (Z.to_nat 30).
  rewrite Hcount. cbn [mbind option_bind]. rewrite Hbump. cbn [mbind option_bind].
  split_conj; auto.
  destruct Hlit2 as (_ & Hcells & _).
  specialize (Hcells 256 ltac:(lia)). rewrite count_occ_snoc, Hzero in Hcells.
  exact Hcells.
Qed.

(** X12: the frequency pass stays inside its two arrays and leaves in
    [lit_freq] the number of tokens of each literal/length symbol, plus one
    for the end-of-block symbol 256, and in [dist_freq] the number of match
    tokens of each distance symbol. *)
Theorem frequencies_tally (data : list byte) :
  Z.of_nat (length data) <= INT_MAX →
  ∃ tokens lit_freq dist_freq lsyms dsyms,
    deflate_tokens data = Some tokens ∧
    count_frequencies tokens = Some (lit_freq, dist_freq) ∧
    Forall2 lit_symbol tokens lsyms ∧
    Forall2 dist_symbol (match_tokens tokens) dsyms ∧
    is_tally 286 (lsyms ++ [256]) lit_freq ∧
    is_tally 30 dsyms dist_freq ∧
    lit_freq !! 256%nat = Some 1.
Proof.
  intros Hint.
  destruct (count_frequencies_spec data Hint)
    as (tokens & lit_freq & dist_freq & lsyms & dsyms & H1 & _ & H2 & H3 & H4 & H5 & H6 & H7).
  exists tokens, lit_freq, dist_freq, lsyms, dsyms. auto 10.
Qed.

Lemma frequencies_tally_witness :
  ∃ tokens lit_freq dist_freq lsyms dsyms,
    deflate_tokens ["a"; "b"; "c"; "a"; "b"; "c"; "a"; "d"]%byte = Some tokens ∧
    count_frequencies tokens = Some (lit_freq, dist_freq) ∧
    Forall2 lit_symbol tokens lsyms ∧
    Forall2 dist_symbol (match_tokens tokens) dsyms ∧
    is_tally 286 (lsyms ++ [256]) lit_freq ∧
    is_tally 30 dsyms dist_freq ∧
    lit_freq !! 256%nat = Some 1.
Proof.
  apply (frequencies_tally ["a"; "b"; "c"; "a"; "b"; "c"; "a"; "d"]%byte).
  vm_compute. congruence.
Defined.

(** ** Huffman trees *)

Lemma total_app l1 l2 : total_freq (l1 ++ l2) = total_freq l1 + total_freq l2.
Proof. unfold total_freq. induction l1 as [|x l1 IH]; simpl; [reflexivity|]. rewrite IH. lia. Qed.

Lemma total_perm l1 l2 : l1 ≡ₚ l2 → total_freq l1 = total_freq l2.
Proof. unfold total_freq. induction 1; simpl; lia. Qed.

Lemma concat_leaves_perm (l1 l2 : list HuffNode) :
  l1 ≡ₚ l2 → concat (map leaves l1) ≡ₚ concat (map leaves l2).
Proof.
  induction 1 as [|x l1 l2 _ IH|x y l|l1 l2 l3 _ IH1 _ IH2]; simpl.
  - reflexivity.
  - rewrite IH. reflexivity.
  - rewrite !app_assoc. rewrite (Permutation_app_comm (leaves y) (leaves x)). reflexivity.
  - rewrite IH1. exact IH2.
Qed.

Lemma huff_ok_freq t : huff_ok t → node_freq t = Some (freq_of t) ∧ 0 < freq_of t.
Proof.
  induction 1 as [f s Hf | l r _ [_ IHl] _ [_ IHr] _]; simpl; split; try reflexivity; lia.
Qed.

Lemma leaves_parent f s l r :
  huff_ok l → leaves (Node f s l r) = leaves l ++ leaves r.
Proof. intros Hl. destruct Hl; reflexivity. Qed.

Lemma huff_ok_total t : huff_ok t → freq_of t = total_freq (leaves t).
Proof.
  induction 1 as [f s Hf | l r Hl IHl Hr IHr Hle].
  - unfold total_freq. simpl. lia.
  - rewrite (leaves_parent _ _ l r Hl), total_app, <- IHl, <- IHr. reflexivity.
Qed.

Lemma total_nodes_nonneg nodes :
  Forall huff_ok nodes → 0 <= total_freq (concat (map leaves nodes)).
Proof.
  induction 1 as [|t nodes Ht _ IH]; simpl; [unfold total_freq; simpl; lia|].
  rewrite total_app, <- (huff_ok_total t Ht). destruct (huff_ok_freq t Ht). lia.
Qed.

Lemma compare_nodes_Some a b c :
  compare_nodes a b = Some c →
  node_freq a = Some (freq_of a) ∧ node_freq b = Some (freq_of b) ∧
  c = freq_of a - freq_of b ∧ INT_MIN <= c <= INT_MAX.
Proof.
  unfold compare_nodes, int_checked.
  destruct a as [|fa sa la ra]; [discriminate|].
  destruct b as [|fb sb lb rb]; [discriminate|].
  cbn [node_freq freq_of mbind option_bind].
  destruct (Z.leb_spec INT_MIN (fa - fb)); [|discriminate].
  destruct (Z.leb_spec (fa - fb) INT_MAX); [|discriminate].
  intros [= <-]. auto.
Qed.

Lemma compare_nodes_ok a b :
  huff_ok a → huff_ok b → freq_of a <= INT_MAX → freq_of b <= INT_MAX →
  compare_nodes a b = Some (freq_of a - freq_of b).
Proof.
  intros [Ha Hpa]%huff_ok_freq [Hb Hpb]%huff_ok_freq Hua Hub.
  unfold compare_nodes, int_checked. rewrite Ha, Hb. cbn [mbind option_bind].
  unfold INT_MIN, INT_MAX in *.
  destruct (Z.leb_spec (-2147483648) (freq_of a - freq_of b)); [|lia].
  destruct (Z.leb_spec (freq_of a - freq_of b) 2147483647); [|lia].
  reflexivity.
Qed.

Lemma symbols_from_app l1 l2 : ∀ i,
  symbols_from i (l1 ++ l2)
  = symbols_from i l1 ++ symbols_from (i + Z.of_nat (length l1)) l2.
Proof.
  induction l1 as [|f l1 IH]; intros i.
  - simpl. rewrite Z.add_0_r. reflexivity.
  - cbn [app symbols_from length]. rewrite IH, <- app_assoc.
    replace (i + 1 + Z.of_nat (length l1)) with (i + Z.of_nat (S (length l1))) by lia.
    reflexivity.
Qed.

Lemma symbols_from_positive l : ∀ i, Forall (fun sf => 0 < sf.2) (symbols_from i l).
Proof.
  induction l as [|f l IH]; intros i; cbn [symbols_from]; [constructor|].
  apply Forall_app. split; [|apply IH].
  destruct (Z.ltb_spec 0 f); repeat constructor. assumption.
Qed.

Lemma symbols_from_range l : ∀ i,
  Forall (fun sf => i <= sf.1 < i + Z.of_nat (length l)) (symbols_from i l).
Proof.
  induction l as [|f l IH]; intros i; cbn [symbols_from length]; [constructor|].
  apply Forall_app. split.
  - destruct (Z.ltb_spec 0 f); repeat constructor; simpl; lia.
  - eapply Forall_impl; [apply IH|]. simpl. intros sf Hsf. lia.
Qed.

Lemma symbols_from_length l : ∀ i, (length (symbols_from i l) <= length l)%nat.
Proof.
  induction l as [|f l IH]; intros i; cbn [symbols_from length]; [lia|].
  rewrite length_app. specialize (IH (i + 1)). destruct (0 <? f); simpl; lia.
Qed.

Lemma make_leaves_spec freqs num_symbols :
  0 <= num_symbols <= Z.of_nat (length freqs) →
  ∀ (fuel : nat) (i : nat) nodes,
    Z.of_nat i <= num_symbols → num_symbols - Z.of_nat i <= Z.of_nat fuel →
    (length nodes <= i)%nat →
    make_leaves fuel freqs num_symbols (Z.of_nat i) nodes
    = Some (nodes ++ map leaf_of
              (symbols_from (Z.of_nat i) (drop i (take (Z.to_nat num_symbols) freqs)))).
Proof.
  intros Hn. induction fuel as [|fuel IH]; intros i nodes Hi Hfuel Hlen.
  - assert (Z.of_nat i = num_symbols) as Hend by lia.
    cbn [make_leaves]. destruct (Z.ltb_spec (Z.of_nat i) num_symbols); [lia|].
    rewrite drop_ge by (rewrite length_take; lia). simpl. rewrite app_nil_r. reflexivity.
  - cbn [make_leaves]. destruct (Z.ltb_spec (Z.of_nat i) num_symbols) as [Hlt|Hge].
    + destruct (lookup_lt_is_Some_2 freqs i ltac:(lia)) as [f Hf].
      assert (Hget : array_get freqs (Z.of_nat i) = Some f).
      { apply array_get_Some. rewrite Nat2Z.id. split; [lia | exact Hf]. }
      rewrite Hget. cbn [mbind option_bind].
      assert (Hdrop : drop i (take (Z.to_nat num_symbols) freqs)
                      = f :: drop (S i) (take (Z.to_nat num_symbols) freqs)).
      { apply drop_S. rewrite lookup_take_lt by lia. exact Hf. }
      rewrite Hdrop. cbn [symbols_from].
      replace (Z.of_nat i + 1) with (Z.of_nat (S i)) by lia.
      destruct (Z.ltb_spec 0 f).
      * destruct (Z.ltb_spec (Z.of_nat (length nodes)) (num_symbols * 2)); [|lia].
        rewrite IH; [|lia|lia|rewrite length_app; simpl; lia].
        rewrite <- app_assoc. reflexivity.
      * rewrite IH; [|lia|lia|lia]. reflexivity.
    + rewrite drop_ge by (rewrite length_take; lia). simpl. rewrite app_nil_r. reflexivity.
Qed.

Lemma concat_leaves_leaf_of symbols :
  concat (map leaves (map leaf_of symbols)) = symbols.
Proof.
  induction symbols as [|[s f] symbols IH]; simpl; [reflexivity|]. rewrite IH. reflexivity.
Qed.

Section BuildLoop.
Variable qsort : (HuffNode → HuffNode → option Z) → list HuffNode → option (list HuffNode).
Hypothesis qsort_ok : qsort_contract qsort.

Lemma build_loop_spec : ∀ (fuel : nat) nodes,
  (length nodes <= S fuel)%nat → nodes ≠ [] → Forall huff_ok nodes →
  total_freq (concat (map leaves nodes)) <= INT_MAX →
  ∃ tree, build_loop qsort fuel nodes = Some tree ∧ huff_ok tree ∧
          leaves tree ≡ₚ concat (map leaves nodes).
Proof.
  induction fuel as [|fuel IH]; intros nodes Hlen Hne Hok Htotal.
  - destruct nodes as [|root [|b rest]]; [congruence| |simpl in Hlen; lia].
    exists root. apply Forall_cons in Hok as [Hroot _]. simpl. rewrite app_nil_r. auto.
  - destruct nodes as [|a [|b rest]]; [congruence| |].
    { exists a. apply Forall_cons in Hok as [Hroot _]. simpl. rewrite app_nil_r. auto. }
    cbn [build_loop]. remember (a :: b :: rest) as nodes eqn:Enodes.
    assert (Hbound : ∀ t, t ∈ nodes → freq_of t <= INT_MAX).
    { intros t Ht. apply list_elem_of_split in Ht as (l1 & l2 & ->).
      rewrite map_app, concat_app, total_app in Htotal. cbn [map concat] in Htotal.
      rewrite total_app in Htotal.
      apply Forall_app in Hok as [Hok1 Hok2]. apply Forall_cons in Hok2 as [Ht Hok2].
      pose proof (total_nodes_nonneg l1 Hok1). pose proof (total_nodes_nonneg l2 Hok2).
      rewrite <- (huff_ok_total t Ht) in Htotal. lia. }
    destruct (qsort_ok nodes) as (sorted & Hsort & Hperm & Hsorted).
    { intros x y Hx Hy. rewrite Forall_forall in Hok.
      rewrite (compare_nodes_ok x y); auto. }
    rewrite Hsort. cbn [mbind option_bind].
    pose proof (Permutation_length Hperm) as Hlens.
    destruct sorted as [|l [|r others]]; [subst nodes; discriminate Hlens
                                        |subst nodes; discriminate Hlens|].
    assert (Hok' : Forall huff_ok (l :: r :: others)) by (rewrite Hperm; exact Hok).
    pose proof Hok' as Hok''.
    apply Forall_cons in Hok'' as [Hl Hok'']. apply Forall_cons in Hok'' as [Hr Hothers].
    destruct (huff_ok_freq l Hl) as [Hfl Hpl]. destruct (huff_ok_freq r Hr) as [Hfr Hpr].
    rewrite Hfl, Hfr. cbn [mbind option_bind].
    assert (Htotal' : total_freq (concat (map leaves (l :: r :: others))) <= INT_MAX).
    { rewrite (total_perm _ _ (concat_leaves_perm _ _ Hperm)). exact Htotal. }
    cbn [map concat] in Htotal'. rewrite !total_app in Htotal'.
    rewrite <- (huff_ok_total l Hl), <- (huff_ok_total r Hr) in Htotal'.
    pose proof (total_nodes_nonneg others Hothers) as Hnn.
    unfold int_checked, INT_MIN.
    destruct (Z.leb_spec (-2147483648) (freq_of l + freq_of r)); [|lia].
    destruct (Z.leb_spec (freq_of l + freq_of r) INT_MAX); [|lia].
    cbn [andb mbind option_bind].
    assert (Hle : freq_of l <= freq_of r).
    { apply StronglySorted_cons in Hsorted as [Hall _].
      apply Forall_cons in Hall as [(c & Hc & Hc0) _].
      apply compare_nodes_Some in Hc as (_ & _ & -> & _). lia. }
    destruct (IH (Node (freq_of l + freq_of r) (-1) l r :: others)) as (tree & Hb & Ht & Hleaves).
    + simpl in *. subst nodes. simpl in *. lia.
    + discriminate.
    + constructor; [apply ok_parent; assumption | exact Hothers].
    + cbn [map concat]. rewrite (leaves_parent _ _ l r Hl), !total_app.
      rewrite <- (huff_ok_total l Hl), <- (huff_ok_total r Hr). lia.
    + exists tree. split; [exact Hb|]. split; [exact Ht|].
      rewrite Hleaves. cbn [map concat]. rewrite (leaves_parent _ _ l r Hl).
      rewrite <- app_assoc.
      rewrite <- (concat_leaves_perm _ _ Hperm). reflexivity.
Qed.
End BuildLoop.

Ltac elem_tac :=
  first [assumption | apply list_elem_of_here | apply list_elem_of_further; elem_tac].

Lemma insert_sorted_contract x : ∀ sorted,
  (∀ a b, a ∈ x :: sorted → b ∈ x :: sorted → is_Some (compare_nodes a b)) →
  StronglySorted (fun a b => ∃ c, compare_nodes a b = Some c ∧ c <= 0) sorted →
  ∃ sorted', insert_sorted compare_nodes x sorted = Some sorted' ∧
             sorted' ≡ₚ x :: sorted ∧
             StronglySorted (fun a b => ∃ c, compare_nodes a b = Some c ∧ c <= 0) sorted'.
Proof.
  induction sorted as [|y rest IH]; intros Hdef Hsorted.
  - exists [x]. split; [reflexivity|]. split; [reflexivity|].
    repeat constructor.
  - cbn [insert_sorted].
    destruct (Hdef x y) as [c Hc]; [elem_tac | elem_tac |].
    rewrite Hc. cbn [mbind option_bind].
    pose proof (compare_nodes_Some _ _ _ Hc) as (_ & _ & Ec & _).
    apply StronglySorted_cons in Hsorted as [Hall Hrest].
    destruct (Z.leb_spec c 0) as [Hle|Hgt].
    + exists (x :: y :: rest). split; [reflexivity|]. split; [reflexivity|].
      apply SSorted_cons; [apply SSorted_cons; assumption|].
      constructor; [exists c; auto|].
      rewrite Forall_forall in Hall |- *. intros z Hz.
      destruct (Hall z Hz) as (c' & Hc' & Hle').
      destruct (Hdef x z) as [c'' Hc'']; [elem_tac | elem_tac |].
      exists c''. split; [exact Hc''|].
      apply compare_nodes_Some in Hc' as (_ & _ & -> & _).
      apply compare_nodes_Some in Hc'' as (_ & _ & -> & _). lia.
    + assert (Hsub : ∀ a, a ∈ x :: rest → a ∈ x :: y :: rest).
      { intros a [->|Ha]%elem_of_cons; elem_tac. }
      destruct (IH ltac:(intros a b Ha Hb; apply Hdef; apply Hsub; assumption) Hrest)
        as (sorted' & Hins & Hperm & Hsorted').
      rewrite Hins. cbn [mbind option_bind].
      exists (y :: sorted'). split; [reflexivity|]. split.
      * rewrite Hperm. apply perm_swap.
      * apply SSorted_cons; [exact Hsorted'|]. rewrite Hperm.
        constructor; [|exact Hall].
        destruct (Hdef y x) as [c' Hc']; [elem_tac | elem_tac |].
        exists c'. split; [exact Hc'|].
        apply compare_nodes_Some in Hc' as (_ & _ & -> & _). lia.
Qed.

Lemma insertion_sort_contract : qsort_contract insertion_sort.
Proof.
  intros nodes. induction nodes as [|x nodes IH]; intros Hdef.
  - exists []. split; [reflexivity|]. split; [reflexivity | constructor].
  - destruct IH as (sorted & Hsort & Hperm & Hsorted).
    { intros a b Ha Hb. apply Hdef; elem_tac. }
    cbn [insertion_sort]. rewrite Hsort. cbn [mbind option_bind].
    destruct (insert_sorted_contract x sorted) as (sorted' & Hins & Hperm' & Hsorted').
    { intros a b Ha Hb. rewrite Hperm in Ha, Hb. apply Hdef; assumption. }
    { exact Hsorted. }
    exists sorted'. split; [exact Hins|]. split; [|exact Hsorted'].
    rewrite Hperm', Hperm. reflexivity.
Qed.

Lemma make_leaves_all freqs num_symbols :
  0 <= num_symbols <= Z.of_nat (length freqs) →
  make_leaves (Z.to_nat num_symbols) freqs num_symbols 0 []
  = Some (map leaf_of (positive_symbols freqs num_symbols)).
Proof.
  intros Hn.
  exact (make_leaves_spec freqs num_symbols Hn (Z.to_nat num_symbols) 0 []
           ltac:(lia) ltac:(lia) ltac:(simpl; lia)).
Qed.

Lemma build_huffman_tree_spec
    (qsort : (HuffNode → HuffNode → option Z) → list HuffNode → option (list HuffNode))
    (freqs : list Z) (num_symbols : Z) :
  qsort_contract qsort →
  0 <= num_symbols <= Z.of_nat (length freqs) →
  total_freq (positive_symbols freqs num_symbols) <= INT_MAX →
  (2 <= length (positive_symbols freqs num_symbols))%nat →
  ∃ tree, build_huffman_tree qsort freqs num_symbols = Some tree ∧
          huff_ok tree ∧
          leaves tree ≡ₚ positive_symbols freqs num_symbols ∧
          freq_of tree = total_freq (positive_symbols freqs num_symbols).
Proof.
  intros Hqsort Hn Htotal Htwo. unfold build_huffman_tree.
  rewrite (make_leaves_all freqs num_symbols Hn). cbn [mbind option_bind].
  set (symbols := positive_symbols freqs num_symbols) in *.
  destruct (build_loop_spec qsort Hqsort (length (map leaf_of symbols)) (map leaf_of symbols))
    as (tree & Hbuild & Hok & Hperm).
  - lia.
  - destruct symbols as [|sf symbols']; [simpl in Htwo; lia | discriminate].
  - apply Forall_map. eapply Forall_impl; [apply symbols_from_positive|].
    intros [s f] Hf. apply ok_leaf. exact Hf.
  - rewrite concat_leaves_leaf_of. exact Htotal.
  - rewrite concat_leaves_leaf_of in Hperm.
    exists tree. destruct symbols as [|sf1 [|sf2 symbols']]; [simpl in Htwo; lia..|].
    split; [exact Hbuild|]. split; [exact Hok|]. split; [exact Hperm|].
    rewrite (huff_ok_total tree Hok). apply total_perm, Hperm.
Qed.

(** X13: with two or more symbols of positive frequency whose frequencies
    sum to an [int], [build_huffman_tree] returns a tree whose leaves are
    exactly these symbols with their frequencies, in which every parent has
    symbol -1, two children, the sum of their frequencies and a left child no
    more frequent than the right one; the root carries their sum. *)
Theorem huffman_tree_leaves
    (qsort : (HuffNode → HuffNode → option Z) → list HuffNode → option (list HuffNode))
    (freqs : list Z) (num_symbols : Z) :
  qsort_contract qsort →
  0 <= num_symbols <= Z.of_nat (length freqs) →
  total_freq (positive_symbols freqs num_symbols) <= INT_MAX →
  (2 <= length (positive_symbols freqs num_symbols))%nat →
  ∃ tree, build_huffman_tree qsort freqs num_symbols = Some tree ∧
          huff_ok tree ∧
          leaves tree ≡ₚ positive_symbols freqs num_symbols ∧
          freq_of tree = total_freq (positive_symbols freqs num_symbols).
Proof. apply build_huffman_tree_spec. Qed.

Lemma huffman_tree_leaves_witness :
  ∃ tree, build_huffman_tree insertion_sort [5; 0; 2; 1; 0; 3] 6 = Some tree ∧
          huff_ok tree ∧
          leaves tree ≡ₚ positive_symbols [5; 0; 2; 1; 0; 3] 6 ∧
          freq_of tree = total_freq (positive_symbols [5; 0; 2; 1; 0; 3] 6).
Proof.
  apply (huffman_tree_leaves insertion_sort [5; 0; 2; 1; 0; 3] 6).
  - exact insertion_sort_contract.
  - vm_compute. split; congruence.
  - vm_compute. congruence.
  - vm_compute. lia.
Defined.

Lemma degenerate_tree_spec
    (qsort : (HuffNode → HuffNode → option Z) → list HuffNode → option (list HuffNode))
    (freqs : list Z) (num_symbols : Z) (codes : list HuffCode) :
  1 <= num_symbols <= Z.of_nat (length freqs) →
  Z.of_nat (length codes) = num_symbols →
  (length (positive_symbols freqs num_symbols) <= 1)%nat →
  ∃ tree,
    build_huffman_tree qsort freqs num_symbols = Some tree ∧
    match positive_symbols freqs num_symbols with
    | [] => tree = Node 1 0 Null Null ∧
            generate_codes tree codes 0 0 = Some (<[0%nat := Huff.mk 0 0]> codes)
    | (s, f) :: _ =>
        tree = Node f (-1) (Node f s Null Null) Null ∧
        generate_codes tree codes 0 0 = Some (<[Z.to_nat s := Huff.mk 0 1]> codes)
    end.
Proof.
  intros Hn Hcodes Hone. unfold build_huffman_tree.
  rewrite (make_leaves_all freqs num_symbols ltac:(lia)). cbn [mbind option_bind].
  pose proof (symbols_from_range (take (Z.to_nat num_symbols) freqs) 0) as Hrange.
  fold (positive_symbols freqs num_symbols) in Hrange.
  rewrite length_take in Hrange.
  destruct (positive_symbols freqs num_symbols) as [|[s f] [|sf2 symbols']];
    [| |simpl in Hone; lia].
  - eexists. split; [reflexivity|]. split; [reflexivity|].
    cbn [generate_codes]. apply (array_set_in_range codes 0). lia.
  - eexists. split; [reflexivity|]. split; [reflexivity|].
    apply Forall_cons in Hrange as [Hs _]. cbn [fst] in Hs.
    unfold leaf_of. cbn [generate_codes fst snd].
    change (to_uint8 (0 + 1)) with 1.
    rewrite (array_set_in_range codes s) by lia. reflexivity.
Qed.

(** X14: without a symbol of positive frequency [build_huffman_tree]
    returns the dummy leaf of symbol 0 and frequency 1, and
    [generate_codes] gives symbol 0 the code 0 of length 0; with one such
    symbol it returns a parent with that leaf as its only, left, child, and
    the symbol gets the code 0 of length 1.  No other cell of [codes]
    changes, and [qsort] is not called. *)
Theorem huffman_tree_degenerate
    (qsort : (HuffNode → HuffNode → option Z) → list HuffNode → option (list HuffNode))
    (freqs : list Z) (num_symbols : Z) (codes : list HuffCode) :
  1 <= num_symbols <= Z.of_nat (length freqs) →
  Z.of_nat (length codes) = num_symbols →
  (length (positive_symbols freqs num_symbols) <= 1)%nat →
  ∃ tree,
    build_huffman_tree qsort freqs num_symbols = Some tree ∧
    match positive_symbols freqs num_symbols with
    | [] => tree = Node 1 0 Null Null ∧
            generate_codes tree codes 0 0 = Some (<[0%nat := Huff.mk 0 0]> codes)
    | (s, f) :: _ =>
        tree = Node f (-1) (Node f s Null Null) Null ∧
        generate_codes tree codes 0 0 = Some (<[Z.to_nat s := Huff.mk 0 1]> codes)
    end.
Proof. apply degenerate_tree_spec. Qed.

Lemma huffman_tree_degenerate_witness :
  ∃ tree,
    build_huffman_tree insertion_sort [0; 0; 7; 0] 4 = Some tree ∧
    match positive_symbols [0; 0; 7; 0] 4 with
    | [] => tree = Node 1 0 Null Null ∧
            generate_codes tree (replicate 4 (Huff.mk 0 0)) 0 0
            = Some (<[0%nat := Huff.mk 0 0]> (replicate 4 (Huff.mk 0 0)))
    | (s, f) :: _ =>
        tree = Node f (-1) (Node f s Null Null) Null ∧
        generate_codes tree (replicate 4 (Huff.mk 0 0)) 0 0
        = Some (<[Z.to_nat s := Huff.mk 0 1]> (replicate 4 (Huff.mk 0 0)))
    end.
Proof.
  apply (huffman_tree_degenerate insertion_sort [0; 0; 7; 0] 4 (replicate 4 (Huff.mk 0 0))).
  - vm_compute. split; congruence.
  - reflexivity.
  - vm_compute. lia.
Defined.

(** ** Huffman codes *)

Lemma node_cases (l r : HuffNode) : (l = Null ∧ r = Null) ∨ (l ≠ Null ∨ r ≠ Null).
Proof.
  destruct l; [destruct r|]; [left; auto | right; right; discriminate | right; left; discriminate].
Qed.

Lemma generate_codes_parent f s l r codes code depth :
  l ≠ Null ∨ r ≠ Null →
  generate_codes (Node f s l r) codes code depth
  = codes1 ← generate_codes l codes code (to_uint8 (depth + 1));
    match r with
    | Null => Some codes1
    | Node _ _ _ _ =>
        bit ← shl1 depth;
        generate_codes r codes1 (to_uint16 (Z.lor code bit)) (to_uint8 (depth + 1))
    end.
Proof.
  intros Hcase. destruct l; [destruct r|]; try reflexivity.
  destruct Hcase; congruence.
Qed.

Lemma paths_parent f s l r :
  l ≠ Null ∨ r ≠ Null →
  paths (Node f s l r)
  = ((fun sp => (sp.1, false :: sp.2)) <$> paths l)
    ++ ((fun sp => (sp.1, true :: sp.2)) <$> paths r).
Proof.
  intros Hcase. destruct l; [destruct r|]; try reflexivity.
  destruct Hcase; congruence.
Qed.

Lemma paths_nonempty t : t ≠ Null → ∃ sp, sp ∈ paths t.
Proof.
  induction t as [|f s l IHl r IHr]; [congruence|]. intros _.
  destruct (node_cases l r) as [[-> ->] | Hcase].
  - eexists. simpl. apply list_elem_of_here.
  - rewrite (paths_parent f s l r Hcase).
    destruct l as [|fl sl ll rl].
    + destruct Hcase as [Hl|Hr]; [congruence|].
      destruct (IHr Hr) as [sp Hsp].
      eexists. apply elem_of_app. right. apply list_elem_of_fmap_2, Hsp.
    + destruct (IHl ltac:(discriminate)) as [sp Hsp].
      eexists. apply elem_of_app. left. apply list_elem_of_fmap_2, Hsp.
Qed.

Lemma lor_truncated prefix depth :
  0 <= depth → 0 <= prefix < 2 ^ depth →
  to_uint16 (Z.lor (to_uint16 prefix) (Z.shiftl 1 depth)) = to_uint16 (prefix + 2 ^ depth).
Proof.
  intros Hd Hp. unfold to_uint16. change 65536 with (2 ^ 16).
  rewrite Z.shiftl_1_l.
  replace (prefix + 2 ^ depth) with (Z.lor prefix (1 * 2 ^ depth))
    by (rewrite lor_disjoint by lia; lia).
  rewrite Z.mul_1_l.
  apply Z.bits_inj'. intros i Hi.
  destruct (Z.lt_ge_cases i 16).
  - rewrite !Z.mod_pow2_bits_low, !Z.lor_spec by lia.
    rewrite Z.mod_pow2_bits_low by lia. reflexivity.
  - rewrite !Z.mod_pow2_bits_high by lia. reflexivity.
Qed.

Lemma generate_codes_spec : ∀ t codes prefix depth,
  0 <= depth → 0 <= prefix < 2 ^ depth →
  Forall (fun sp => 0 <= sp.1 < Z.of_nat (length codes) ∧
                    depth + Z.of_nat (length sp.2) <= 31) (paths t) →
  NoDup (paths t).*1 →
  ∃ codes',
    generate_codes t codes (to_uint16 prefix) depth = Some codes' ∧
    length codes' = length codes ∧
    (∀ s p, (s, p) ∈ paths t →
            codes' !! Z.to_nat s
            = Some (Huff.mk (to_uint16 (prefix + 2 ^ depth * path_value p))
                            (depth + Z.of_nat (length p)))) ∧
    (∀ i, Z.of_nat i ∉ (paths t).*1 → codes' !! i = codes !! i).
Proof.
  induction t as [|f s l IHl r IHr]; intros codes prefix depth Hd Hp Hall Hnodup.
  { exists codes. split; [reflexivity|]. split; [reflexivity|].
    split; [|reflexivity]. intros s p Hin. simpl in Hin. inversion Hin. }
  destruct (node_cases l r) as [[-> ->] | Hcase].
  - cbn [paths generate_codes] in *.
    apply Forall_cons in Hall as [[Hs _] _]. cbn [fst] in Hs.
    rewrite array_set_in_range by lia.
    eexists. split; [reflexivity|]. split; [apply length_insert|]. split.
    + intros s' p' [= -> ->]%list_elem_of_singleton.
      rewrite list_lookup_insert_eq by lia.
      cbn [path_value length]. rewrite Z.mul_0_r, !Z.add_0_r. reflexivity.
    + intros i Hi. apply list_lookup_insert_ne. intros <-. apply Hi.
      simpl. rewrite Z2Nat.id by lia. apply list_elem_of_here.
  - rewrite (generate_codes_parent f s l r _ _ _ Hcase).
    rewrite (paths_parent f s l r Hcase) in *.
    rewrite fmap_app, <- !list_fmap_compose in Hnodup.
    change (fst ∘ (fun sp : Z * list bool => (sp.1, false :: sp.2))) with (@fst Z (list bool))
      in Hnodup.
    change (fst ∘ (fun sp : Z * list bool => (sp.1, true :: sp.2))) with (@fst Z (list bool))
      in Hnodup.
    apply NoDup_app in Hnodup as (Hnl & Hdisj & Hnr).
    apply Forall_app in Hall as [Halll Hallr].
    rewrite Forall_fmap in Halll, Hallr. unfold compose in Halll, Hallr.
    cbn [fst snd length] in Halll, Hallr.
    assert (Hdepth : depth <= 30).
    { assert (Hsome : ∃ sp, sp ∈ paths l ∨ sp ∈ paths r).
      { destruct Hcase as [Hl|Hr].
        - destruct (paths_nonempty l Hl) as [sp Hsp]. eauto.
        - destruct (paths_nonempty r Hr) as [sp Hsp]. eauto. }
      destruct Hsome as [sp [Hsp|Hsp]].
      - rewrite Forall_forall in Halll. destruct (Halll sp Hsp) as [_ Hlen].
        cbn [snd length] in Hlen. lia.
      - rewrite Forall_forall in Hallr. destruct (Hallr sp Hsp) as [_ Hlen].
        cbn [snd length] in Hlen. lia. }
    assert (Hu8 : to_uint8 (depth + 1) = depth + 1).
    { unfold to_uint8. apply Z.mod_small. lia. }
    rewrite Hu8.
    assert (Hpow : 2 ^ (depth + 1) = 2 * 2 ^ depth) by (rewrite Z.pow_add_r by lia; lia).
    destruct (IHl codes prefix (depth + 1)) as (codes1 & Hgen1 & Hlen1 & Hset1 & Hkeep1).
    { lia. }
    { lia. }
    { eapply Forall_impl; [exact Halll|]. cbn [fst snd length].
      intros sp [Hs Hlen]. split; [exact Hs | lia]. }
    { exact Hnl. }
    rewrite Hgen1. cbn [mbind option_bind].
    assert (Hright : ∃ codes2,
      match r with
      | Null => Some codes1
      | Node _ _ _ _ =>
          bit ← shl1 depth;
          generate_codes r codes1 (to_uint16 (Z.lor (to_uint16 prefix) bit)) (depth + 1)
      end = Some codes2 ∧
      length codes2 = length codes1 ∧
      (∀ s p, (s, p) ∈ paths r →
              codes2 !! Z.to_nat s
              = Some (Huff.mk (to_uint16 (prefix + 2 ^ depth + 2 ^ (depth + 1) * path_value p))
                              (depth + 1 + Z.of_nat (length p)))) ∧
      (∀ i, Z.of_nat i ∉ (paths r).*1 → codes2 !! i = codes1 !! i)).
    { destruct r as [|fr sr lr rr] eqn:Er.
      - exists codes1. split; [reflexivity|]. split; [reflexivity|].
        split; [|reflexivity]. intros s' p' Hin. simpl in Hin. inversion Hin.
      - rewrite <- Er in *. unfold shl1.
        destruct (Z.ltb_spec depth 31); [|lia]. cbn [mbind option_bind].
        rewrite lor_truncated by lia.
        apply (IHr codes1 (prefix + 2 ^ depth) (depth + 1)).
        + lia.
        + lia.
        + eapply Forall_impl; [exact Hallr|]. cbn [fst snd length].
          intros sp [Hs Hlen]. split; [lia | lia].
        + exact Hnr. }
    destruct Hright as (codes2 & Hgen2 & Hlen2 & Hset2 & Hkeep2).
    exists codes2. split; [exact Hgen2|]. split; [congruence|]. split.
    + intros s' p' [Hin|Hin]%elem_of_app;
        apply list_elem_of_fmap in Hin as ([s0 p0] & [= -> ->] & Hin); cbn [fst snd].
      * assert (Hnat : Z.of_nat (Z.to_nat s0) ∉ (paths r).*1).
        { rewrite Forall_forall in Halll. destruct (Halll _ Hin) as [Hs _].
          cbn [fst] in Hs. rewrite Z2Nat.id by lia.
          apply Hdisj. apply (list_elem_of_fmap_2 fst _ (s0, p0)), Hin. }
        rewrite (Hkeep2 _ Hnat), (Hset1 _ _ Hin).
        cbn [path_value length Z.b2z]. f_equal. f_equal; [f_equal; lia | lia].
      * rewrite (Hset2 _ _ Hin).
        cbn [path_value length Z.b2z]. f_equal. f_equal; [f_equal; lia | lia].
    + intros i Hi. rewrite fmap_app, <- !list_fmap_compose in Hi.
      apply not_elem_of_app in Hi as [Hil Hir].
      rewrite (Hkeep2 i Hir). apply (Hkeep1 i Hil).
Qed.

Lemma path_value_bound p : 0 <= path_value p < 2 ^ Z.of_nat (length p).
Proof.
  induction p as [|b p IH]; [simpl; lia|].
  cbn [path_value length]. rewrite Nat2Z.inj_succ, Z.pow_succ_r by lia.
  destruct b; cbn [Z.b2z]; lia.
Qed.

Lemma path_value_take p : ∀ n, (n <= length p)%nat →
  path_value p mod 2 ^ Z.of_nat n = path_value (take n p).
Proof.
  induction p as [|b p IH]; intros n Hn.
  - destruct n; reflexivity.
  - destruct n as [|n]; [simpl; apply Z.mod_1_r|].
    cbn [take path_value length] in *. rewrite <- (IH n) by lia.
    rewrite Nat2Z.inj_succ, Z.pow_succ_r by lia.
    pose proof (path_value_bound p) as Hp.
    assert (Hpos : 0 < 2 ^ Z.of_nat n) by (apply Z.pow_pos_nonneg; lia).
    pose proof (Z.div_mod (path_value p) (2 ^ Z.of_nat n) ltac:(lia)) as Hdm.
    pose proof (Z.mod_pos_bound (path_value p) (2 ^ Z.of_nat n) Hpos) as Hmb.
    symmetry. apply (Z.mod_unique_pos _ _ (path_value p / 2 ^ Z.of_nat n)).
    + destruct b; cbn [Z.b2z]; lia.
    + destruct b; cbn [Z.b2z]; lia.
Qed.

Lemma path_value_inj p : ∀ q,
  length p = length q → path_value p = path_value q → p = q.
Proof.
  induction p as [|b p IH]; intros [|c q] Hlen Hval; try discriminate; [reflexivity|].
  cbn [path_value length] in *.
  assert (b = c ∧ path_value p = path_value q) as [-> Hrest].
  { destruct b, c; cbn [Z.b2z] in Hval; split; try reflexivity; lia. }
  f_equal. apply IH; [lia | exact Hrest].
Qed.

(** A leaf's path is no beginning of another leaf's path. *)
Lemma paths_prefix t : ∀ s1 p1 s2 p2,
  (s1, p1) ∈ paths t → (s2, p2) ∈ paths t → take (length p1) p2 = p1 → s1 = s2.
Proof.
  induction t as [|f s l IHl r IHr]; intros s1 p1 s2 p2 H1 H2 Htake.
  { simpl in H1. inversion H1. }
  destruct (node_cases l r) as [[-> ->] | Hcase].
  - cbn [paths] in H1, H2.
    apply list_elem_of_singleton in H1. apply list_elem_of_singleton in H2. congruence.
  - rewrite (paths_parent f s l r Hcase) in H1, H2.
    apply elem_of_app in H1. apply elem_of_app in H2.
    destruct H1 as [H1|H1]; apply list_elem_of_fmap in H1 as ([a1 q1] & [= -> ->] & H1);
      destruct H2 as [H2|H2]; apply list_elem_of_fmap in H2 as ([a2 q2] & [= -> ->] & H2);
      cbn [fst snd length take] in *; injection Htake as Htake; try discriminate.
    + exact (IHl _ _ _ _ H1 H2 Htake).
    + exact (IHr _ _ _ _ H1 H2 Htake).
Qed.

(** X15: for a tree whose leaves carry distinct symbols inside [codes] and
    lie at most 31 steps below the root, [generate_codes] stores at each
    leaf's symbol the depth of the leaf and the low 16 bits of the number
    whose bit [k] is the [k]-th step of its path (0 = left, 1 = right), and
    changes no other cell. *)
Theorem codes_follow_paths (t : HuffNode) (codes : list HuffCode) :
  Forall (fun sp => 0 <= sp.1 < Z.of_nat (length codes) ∧ (length sp.2 <= 31)%nat)
         (paths t) →
  NoDup (paths t).*1 →
  ∃ codes',
    generate_codes t codes 0 0 = Some codes' ∧
    length codes' = length codes ∧
    (∀ s p, (s, p) ∈ paths t →
            codes' !! Z.to_nat s
            = Some (Huff.mk (path_value p mod 65536) (Z.of_nat (length p)))) ∧
    (∀ i, Z.of_nat i ∉ (paths t).*1 → codes' !! i = codes !! i).
Proof.
  intros Hall Hnodup.
  destruct (generate_codes_spec t codes 0 0) as (codes' & Hgen & Hlen & Hset & Hkeep).
  - lia.
  - simpl. lia.
  - eapply Forall_impl; [exact Hall|]. simpl. intros sp [Hs Hl]. split; [exact Hs | lia].
  - exact Hnodup.
  - exists codes'. split; [exact Hgen|]. split; [exact Hlen|]. split; [|exact Hkeep].
    intros s p Hin. rewrite (Hset s p Hin). unfold to_uint16.
    rewrite Z.pow_0_r, Z.mul_1_l, !Z.add_0_l. reflexivity.
Qed.

Lemma codes_follow_paths_witness :
  ∃ codes',
    generate_codes
      (Node 4 (-1) (Node 1 0 Null Null)
         (Node 3 (-1) (Node 1 2 Null Null) (Node 2 1 Null Null)))
      (replicate 3 (Huff.mk 0 0)) 0 0 = Some codes' ∧
    length codes' = length (replicate 3 (Huff.mk 0 0)) ∧
    (∀ s p, (s, p) ∈ paths (Node 4 (-1) (Node 1 0 Null Null)
                              (Node 3 (-1) (Node 1 2 Null Null) (Node 2 1 Null Null))) →
            codes' !! Z.to_nat s
            = Some (Huff.mk (path_value p mod 65536) (Z.of_nat (length p)))) ∧
    (∀ i, Z.of_nat i ∉ (paths (Node 4 (-1) (Node 1 0 Null Null)
                                 (Node 3 (-1) (Node 1 2 Null Null) (Node 2 1 Null Null)))).*1 →
          codes' !! i = replicate 3 (Huff.mk 0 0) !! i).
Proof.
  apply (codes_follow_paths
           (Node 4 (-1) (Node 1 0 Null Null)
              (Node 3 (-1) (Node 1 2 Null Null) (Node 2 1 Null Null)))
           (replicate 3 (Huff.mk 0 0))).
  - repeat constructor; simpl; lia.
  - apply (bool_decide_unpack _). vm_compute. reflexivity.
Defined.

(** X16: when no leaf lies more than 16 steps below the root, the codes
    [generate_codes] stores for two different leaf symbols are prefix free:
    the shorter one is never the low bits of the longer one. *)
Theorem generated_codes_prefix_free (t : HuffNode) (codes codes' : list HuffCode)
    (s1 s2 : Z) (c1 c2 : HuffCode) :
  Forall (fun sp => 0 <= sp.1 < Z.of_nat (length codes) ∧ (length sp.2 <= 16)%nat)
         (paths t) →
  NoDup (paths t).*1 →
  generate_codes t codes 0 0 = Some codes' →
  s1 ∈ (paths t).*1 → s2 ∈ (paths t).*1 → s1 ≠ s2 →
  codes' !! Z.to_nat s1 = Some c1 → codes' !! Z.to_nat s2 = Some c2 →
  ¬ (Huff.length c1 <= Huff.length c2 ∧
     Huff.code c2 mod 2 ^ Huff.length c1 = Huff.code c1).
Proof.
  intros Hall Hnodup Hgen H1 H2 Hne Hc1 Hc2 [Hlen Hpre].
  destruct (generate_codes_spec t codes 0 0) as (codes0 & Hgen0 & _ & Hset & _).
  - lia.
  - simpl. lia.
  - eapply Forall_impl; [exact Hall|]. simpl. intros sp [Hs Hl]. split; [exact Hs | lia].
  - exact Hnodup.
  - change (to_uint16 0) with 0 in Hgen0. rewrite Hgen in Hgen0. injection Hgen0 as <-.
    apply list_elem_of_fmap in H1 as ([a1 p1] & -> & H1).
    apply list_elem_of_fmap in H2 as ([a2 p2] & -> & H2).
    cbn [fst] in *.
    rewrite (Hset _ _ H1) in Hc1. rewrite (Hset _ _ H2) in Hc2.
    injection Hc1 as <-. injection Hc2 as <-. cbn [Huff.code Huff.length] in *.
    rewrite Forall_forall in Hall.
    destruct (Hall _ H1) as [_ Hl1]. destruct (Hall _ H2) as [_ Hl2]. cbn [snd] in Hl1, Hl2.
    assert (Hsmall : ∀ p : list bool, (length p <= 16)%nat →
              to_uint16 (0 + 2 ^ 0 * path_value p) = path_value p).
    { intros p Hp. unfold to_uint16. rewrite Z.pow_0_r, Z.mul_1_l, Z.add_0_l.
      apply Z.mod_small. pose proof (path_value_bound p) as Hb.
      assert (2 ^ Z.of_nat (length p) <= 2 ^ 16) by (apply Z.pow_le_mono_r; lia).
      change (2 ^ 16) with 65536 in *. lia. }
    rewrite !Hsmall in Hpre by assumption. rewrite !Z.add_0_l in *.
    rewrite path_value_take in Hpre by lia.
    apply path_value_inj in Hpre; [|rewrite length_take; lia].
    apply Hne. exact (paths_prefix t a1 p1 a2 p2 H1 H2 Hpre).
Qed.

Lemma generated_codes_prefix_free_witness :
  ¬ (Huff.length (Huff.mk 0 1) <= Huff.length (Huff.mk 3 2) ∧
     Huff.code (Huff.mk 3 2) mod 2 ^ Huff.length (Huff.mk 0 1) = Huff.code (Huff.mk 0 1)).
Proof.
  apply (generated_codes_prefix_free
           (Node 4 (-1) (Node 1 0 Null Null)
              (Node 3 (-1) (Node 1 2 Null Null) (Node 2 1 Null Null)))
           (replicate 3 (Huff.mk 0 0))
           [Huff.mk 0 1; Huff.mk 3 2; Huff.mk 1 2] 0 1).
  - repeat constructor; simpl; lia.
  - apply (bool_decide_unpack _). vm_compute. reflexivity.
  - reflexivity.
  - apply (bool_decide_unpack _). vm_compute. reflexivity.
  - apply (bool_decide_unpack _). vm_compute. reflexivity.
  - lia.
  - reflexivity.
  - reflexivity.
Defined.

Lemma deep_shift_fails : ∀ t codes code depth s p (k : nat),
  0 <= depth → (s, p) ∈ paths t → p !! k = Some true →
  31 <= depth + Z.of_nat k < 256 →
  generate_codes t codes code depth = None.
Proof.
  induction t as [|f s0 l IHl r IHr]; intros codes code depth s p k Hd Hin Hk Hdeep.
  { simpl in Hin. inversion Hin. }
  destruct (node_cases l r) as [[-> ->] | Hcase].
  - cbn [paths] in Hin. apply list_elem_of_singleton in Hin. injection Hin as -> ->.
    discriminate.
  - rewrite (generate_codes_parent f s0 l r _ _ _ Hcase).
    rewrite (paths_parent f s0 l r Hcase) in Hin.
    apply elem_of_app in Hin as [Hin|Hin];
      apply list_elem_of_fmap in Hin as ([a q] & [= -> ->] & Hin); cbn [fst snd] in *.
    + destruct k as [|k]; [discriminate|]. cbn in Hk.
      assert (Hu8 : to_uint8 (depth + 1) = depth + 1)
        by (unfold to_uint8; apply Z.mod_small; lia).
      rewrite Hu8, (IHl codes code (depth + 1) a q k) by (assumption || lia).
      reflexivity.
    + destruct (generate_codes l codes code (to_uint8 (depth + 1))) as [codes1|];
        [|reflexivity].
      cbn [mbind option_bind].
      destruct r as [|fr sr lr rr] eqn:Er; [simpl in Hin; inversion Hin|].
      rewrite <- Er in *. unfold shl1.
      destruct (Z.ltb_spec depth 31) as [Hlt|Hge]; [|reflexivity].
      cbn [mbind option_bind].
      destruct k as [|k]; [lia|]. cbn in Hk.
      assert (Hu8 : to_uint8 (depth + 1) = depth + 1)
        by (unfold to_uint8; apply Z.mod_small; lia).
      rewrite Hu8. apply (IHr _ _ (depth + 1) a q k); assumption || lia.
Qed.

(** X17: [generate_codes] has no defined result on a tree in which some
    leaf is reached by a step to the right at depth 31 or more (below 256):
    there the shift [1 << depth] overflows the [int]. *)
Theorem deep_right_step_undefined (t : HuffNode) (codes : list HuffCode)
    (s : Z) (p : list bool) (k : nat) :
  (s, p) ∈ paths t → p !! k = Some true → (31 <= k < 256)%nat →
  generate_codes t codes 0 0 = None.
Proof.
  intros Hin Hk Hdeep.
  apply (deep_shift_fails t codes 0 0 s p k); [lia | exact Hin | exact Hk | lia].
Qed.

Lemma deep_right_step_undefined_witness :
  generate_codes (right_comb 32) [Huff.mk 0 0] 0 0 = None.
Proof.
  apply (deep_right_step_undefined (right_comb 32) [Huff.mk 0 0] 0 (replicate 32 true) 31).
  - apply (bool_decide_unpack _). vm_compute. reflexivity.
  - reflexivity.
  - lia.
Defined.

(** ** Codes of a built tree *)

Lemma leaves_parent_cases f s l r :
  l ≠ Null ∨ r ≠ Null → leaves (Node f s l r) = leaves l ++ leaves r.
Proof.
  intros Hcase. destruct l; [destruct r|]; try reflexivity.
  destruct Hcase; congruence.
Qed.

Lemma paths_leaves t : (paths t).*1 = (leaves t).*1.
Proof.
  induction t as [|f s l IHl r IHr]; [reflexivity|].
  destruct (node_cases l r) as [[-> ->] | Hcase]; [reflexivity|].
  rewrite (paths_parent f s l r Hcase), (leaves_parent_cases f s l r Hcase).
  rewrite !fmap_app, <- !list_fmap_compose, <- IHl, <- IHr. reflexivity.
Qed.

Lemma huff_ok_depth t :
  huff_ok t →
  (1 <= length (paths t))%nat ∧
  Forall (fun sp => (length sp.2 < length (paths t))%nat ∧
                    ((2 <= length (paths t))%nat → (1 <= length sp.2)%nat)) (paths t).
Proof.
  induction 1 as [f s Hf | l r Hl [IHl1 IHl] Hr [IHr1 IHr] Hle].
  - cbn [paths length]. split; [lia|]. repeat constructor; simpl; lia.
  - rewrite (paths_parent _ _ l r) by (left; destruct Hl; discriminate).
    rewrite length_app, !length_fmap. split; [lia|].
    apply Forall_app. split; apply Forall_fmap.
    + eapply Forall_impl; [exact IHl|]. intros sp [Hlt _]. simpl. lia.
    + eapply Forall_impl; [exact IHr|]. intros sp [Hlt _]. simpl. lia.
Qed.

Lemma symbols_from_lookup l : ∀ i s f,
  (s, f) ∈ symbols_from i l ↔ ∃ k : nat, s = i + Z.of_nat k ∧ l !! k = Some f ∧ 0 < f.
Proof.
  induction l as [|x l IH]; intros i s f; cbn [symbols_from].
  - split; [intros H; inversion H | intros (k & _ & Hk & _); discriminate].
  - rewrite elem_of_app, IH. split.
    + intros [Hin | (k & -> & Hk & Hf)].
      * destruct (Z.ltb_spec 0 x); [|inversion Hin].
        apply list_elem_of_singleton in Hin. injection Hin as -> ->.
        exists 0%nat. split; [lia|]. split; [reflexivity | assumption].
      * exists (S k). split; [lia|]. split; assumption.
    + intros ([|k] & -> & Hk & Hf).
      * left. injection Hk as ->. destruct (Z.ltb_spec 0 f); [|lia].
        rewrite Z.add_0_r. apply list_elem_of_here.
      * right. exists k. split; [lia|]. split; assumption.
Qed.

Lemma symbols_from_NoDup l : ∀ i, NoDup (symbols_from i l).*1.
Proof.
  induction l as [|x l IH]; intros i; cbn [symbols_from]; [constructor|].
  rewrite fmap_app. apply NoDup_app. split; [|split; [|apply IH]].
  - destruct (0 <? x); [apply NoDup_singleton | constructor].
  - intros s Hs Hin. destruct (0 <? x); [|inversion Hs].
    cbn [fmap list_fmap fst] in Hs. apply list_elem_of_singleton in Hs.
    apply list_elem_of_fmap in Hin as ([s' f] & Heq & Hin). cbn [fst] in Heq.
    pose proof (symbols_from_range l (i + 1)) as Hrange.
    rewrite Forall_forall in Hrange. specialize (Hrange _ Hin). simpl in Hrange. lia.
Qed.

Lemma positive_symbols_lookup freqs num_symbols s f :
  0 <= num_symbols <= Z.of_nat (length freqs) →
  (s, f) ∈ positive_symbols freqs num_symbols ↔
  0 <= s < num_symbols ∧ freqs !! Z.to_nat s = Some f ∧ 0 < f.
Proof.
  intros Hn. unfold positive_symbols. rewrite symbols_from_lookup. split.
  - intros (k & -> & Hk & Hf).
    apply lookup_take_Some in Hk as [Hk Hlt].
    rewrite Z.add_0_l, Nat2Z.id. split; [lia|]. split; assumption.
  - intros (Hs & Hk & Hf). exists (Z.to_nat s). split; [lia|].
    split; [|exact Hf]. rewrite lookup_take_lt by lia. exact Hk.
Qed.

(** The codes of a tree built from at most 32 used symbols. *)
Lemma built_tree_codes
    (qsort : (HuffNode → HuffNode → option Z) → list HuffNode → option (list HuffNode))
    (freqs : list Z) (num_symbols : Z) (codes : list HuffCode) :
  qsort_contract qsort →
  0 <= num_symbols <= Z.of_nat (length freqs) →
  Z.of_nat (length codes) = num_symbols →
  total_freq (positive_symbols freqs num_symbols) <= INT_MAX →
  (2 <= length (positive_symbols freqs num_symbols) <= 32)%nat →
  ∃ tree codes',
    build_huffman_tree qsort freqs num_symbols = Some tree ∧
    generate_codes tree codes 0 0 = Some codes' ∧
    length codes' = length codes ∧
    (∀ s f, 0 <= s < num_symbols → freqs !! Z.to_nat s = Some f → 0 < f →
            ∃ p, (s, p) ∈ paths tree ∧
                 codes' !! Z.to_nat s
                 = Some (Huff.mk (path_value p mod 65536) (Z.of_nat (length p))) ∧
                 (1 <= length p < length (positive_symbols freqs num_symbols))%nat) ∧
    (∀ s f, 0 <= s < num_symbols → freqs !! Z.to_nat s = Some f → f <= 0 →
            codes' !! Z.to_nat s = codes !! Z.to_nat s).
Proof.
  intros Hqsort Hn Hcodes Htotal Hcount.
  destruct (build_huffman_tree_spec qsort freqs num_symbols Hqsort Hn Htotal ltac:(lia))
    as (tree & Hbuild & Hok & Hleaves & _).
  assert (Hsyms : (paths tree).*1 ≡ₚ (positive_symbols freqs num_symbols).*1).
  { rewrite paths_leaves, Hleaves. reflexivity. }
  assert (Hlen : length (paths tree) = length (positive_symbols freqs num_symbols)).
  { apply Permutation_length in Hsyms. rewrite !length_fmap in Hsyms. exact Hsyms. }
  destruct (huff_ok_depth tree Hok) as [_ Hdepth]. rewrite Forall_forall in Hdepth.
  assert (Hin_range : ∀ sp, sp ∈ paths tree → 0 <= sp.1 < num_symbols).
  { intros [s p] Hin.
    assert (Hs : s ∈ (positive_symbols freqs num_symbols).*1).
    { rewrite <- Hsyms. apply (list_elem_of_fmap_2 fst _ (s, p)), Hin. }
    apply list_elem_of_fmap in Hs as ([s' f] & -> & Hs).
    apply positive_symbols_lookup in Hs as [Hs _]; [exact Hs | exact Hn]. }
  destruct (generate_codes_spec tree codes 0 0) as (codes' & Hgen & Hlen' & Hset & Hkeep).
  { lia. }
  { simpl. lia. }
  { apply Forall_forall. intros sp Hin. destruct (Hdepth sp Hin) as [Hlt _].
    specialize (Hin_range sp Hin). lia. }
  { rewrite Hsyms. apply symbols_from_NoDup. }
  exists tree, codes'. split; [exact Hbuild|]. split; [exact Hgen|]. split; [exact Hlen'|].
  split.
  - intros s f Hs Hf Hpos.
    assert (Hin : s ∈ (paths tree).*1).
    { rewrite Hsyms. apply (list_elem_of_fmap_2 fst _ (s, f)).
      apply positive_symbols_lookup; auto. }
    apply list_elem_of_fmap in Hin as ([s' p] & -> & Hin). cbn [fst] in *.
    exists p. split; [exact Hin|]. split.
    + rewrite (Hset _ _ Hin). unfold to_uint16.
      rewrite Z.pow_0_r, Z.mul_1_l, !Z.add_0_l. reflexivity.
    + destruct (Hdepth _ Hin) as [Hlt Hge]. cbn [snd] in *. lia.
  - intros s f Hs Hf Hzero.
    apply Hkeep. rewrite Z2Nat.id by lia. rewrite Hsyms.
    intros Hin. apply list_elem_of_fmap in Hin as ([s' f'] & -> & Hin).
    apply positive_symbols_lookup in Hin as (_ & Hf' & Hpos); [|exact Hn].
    cbn [fst] in *. rewrite Hf in Hf'. injection Hf' as <-. lia.
Qed.

(** X18: from frequencies with between 2 and 32 positive cells (summing to
    an [int]), [build_huffman_tree] followed by [generate_codes] succeeds;
    every symbol of positive frequency gets the code of its leaf, of a
    length from 1 to the number of such symbols minus one, and the cells of
    the other symbols are left as they were. *)
Theorem huffman_codes_of_frequencies
    (qsort : (HuffNode → HuffNode → option Z) → list HuffNode → option (list HuffNode))
    (freqs : list Z) (num_symbols : Z) (codes : list HuffCode) :
  qsort_contract qsort →
  0 <= num_symbols <= Z.of_nat (length freqs) →
  Z.of_nat (length codes) = num_symbols →
  total_freq (positive_symbols freqs num_symbols) <= INT_MAX →
  (2 <= length (positive_symbols freqs num_symbols) <= 32)%nat →
  ∃ tree codes',
    build_huffman_tree qsort freqs num_symbols = Some tree ∧
    generate_codes tree codes 0 0 = Some codes' ∧
    length codes' = length codes ∧
    (∀ s f, 0 <= s < num_symbols → freqs !! Z.to_nat s = Some f → 0 < f →
            ∃ p, (s, p) ∈ paths tree ∧
                 codes' !! Z.to_nat s
                 = Some (Huff.mk (path_value p mod 65536) (Z.of_nat (length p))) ∧
                 (1 <= length p < length (positive_symbols freqs num_symbols))%nat) ∧
    (∀ s f, 0 <= s < num_symbols → freqs !! Z.to_nat s = Some f → f <= 0 →
            codes' !! Z.to_nat s = codes !! Z.to_nat s).
Proof. apply built_tree_codes. Qed.

Lemma huffman_codes_of_frequencies_witness :
  ∃ tree codes',
    build_huffman_tree insertion_sort [5; 0; 2; 1; 0; 3] 6 = Some tree ∧
    generate_codes tree (replicate 6 (Huff.mk 0 0)) 0 0 = Some codes' ∧
    length codes' = length (replicate 6 (Huff.mk 0 0)) ∧
    (∀ s f, 0 <= s < 6 → [5; 0; 2; 1; 0; 3] !! Z.to_nat s = Some f → 0 < f →
            ∃ p, (s, p) ∈ paths tree ∧
                 codes' !! Z.to_nat s
                 = Some (Huff.mk (path_value p mod 65536) (Z.of_nat (length p))) ∧
                 (1 <= length p < length (positive_symbols [5; 0; 2; 1; 0; 3]%Z 6%Z))%nat) ∧
    (∀ s f, 0 <= s < 6 → [5; 0; 2; 1; 0; 3] !! Z.to_nat s = Some f → f <= 0 →
            codes' !! Z.to_nat s = replicate 6 (Huff.mk 0 0) !! Z.to_nat s).
Proof.
  apply (huffman_codes_of_frequencies insertion_sort [5; 0; 2; 1; 0; 3] 6
           (replicate 6 (Huff.mk 0 0))).
  - exact insertion_sort_contract.
  - vm_compute. split; congruence.
  - reflexivity.
  - vm_compute. congruence.
  - vm_compute. lia.
Defined.

(** ** The Huffman pass of [deflate_compress] *)

Lemma total_symbols_from l : ∀ i,
  Forall (fun f => 0 <= f) l → total_freq (symbols_from i l) = fold_right Z.add 0 l.
Proof.
  induction l as [|f l IH]; intros i Hall; [reflexivity|].
  apply Forall_cons in Hall as [Hf Hall].
  cbn [symbols_from fold_right]. rewrite total_app, (IH _ Hall).
  destruct (Z.ltb_spec 0 f); unfold total_freq; simpl; lia.
Qed.

Lemma sum_insert (l : list Z) : ∀ (i : nat) v w,
  l !! i = Some v →
  fold_right Z.add 0 (<[i := w]> l) = fold_right Z.add 0 l - v + w.
Proof.
  induction l as [|x l IH]; intros [|i] v w Hi; try discriminate.
  - injection Hi as ->. simpl. lia.
  - simpl in *. rewrite (IH i v w Hi). lia.
Qed.

Lemma tally_sum n : ∀ symbols freq,
  is_tally n symbols freq → fold_right Z.add 0 freq = Z.of_nat (length symbols).
Proof.
  induction symbols as [|x symbols IH]; intros freq (Hlen & Hcells & Hsyms).
  - assert (Hzero : Forall (fun f => f = 0) freq).
    { apply Forall_lookup. intros i f Hi.
      pose proof (lookup_lt_Some _ _ _ Hi) as Hlt.
      specialize (Hcells (Z.of_nat i) ltac:(lia)). rewrite Nat2Z.id, Hi in Hcells.
      cbn [count_occ] in Hcells. injection Hcells as ->. reflexivity. }
    clear Hlen Hcells. induction Hzero as [|f freq -> _ IH]; simpl in *; [reflexivity | lia].
  - apply Forall_cons in Hsyms as [Hx Hsyms].
    pose proof (Hcells x Hx) as Hcell. rewrite count_occ_cons_eq in Hcell by reflexivity.
    assert (Hsum : fold_right Z.add 0
                     (<[Z.to_nat x := Z.of_nat (count_occ Z.eq_dec symbols x)]> freq)
                   = Z.of_nat (length symbols)); [apply IH|].
    2: { rewrite (sum_insert _ _ _ _ Hcell) in Hsum. cbn [length]. lia. }
    { split; [rewrite length_insert; exact Hlen|]. split; [|exact Hsyms].
      intros s Hs. destruct (Z.eq_dec s x) as [->|Hne].
      * apply list_lookup_insert_eq. lia.
      * rewrite list_lookup_insert_ne by lia. rewrite (Hcells s Hs).
        rewrite count_occ_cons_neq by congruence. reflexivity. }
Qed.

Lemma tally_total n symbols freq :
  is_tally n symbols freq →
  total_freq (positive_symbols freq n) = Z.of_nat (length symbols) ∧
  Z.of_nat (length (positive_symbols freq n)) <= n.
Proof.
  intros Htally. pose proof Htally as (Hlen & Hcells & _).
  unfold positive_symbols. rewrite take_ge by lia. split.
  - rewrite total_symbols_from; [apply (tally_sum n), Htally|].
    apply Forall_lookup. intros i f Hi.
    pose proof (lookup_lt_Some _ _ _ Hi) as Hlt.
    specialize (Hcells (Z.of_nat i) ltac:(lia)). rewrite Nat2Z.id, Hi in Hcells.
    injection Hcells as ->. lia.
  - pose proof (symbols_from_length freq 0). lia.
Qed.

(** What [build_huffman_tree] returns for frequencies with a positive cell. *)
Lemma built_tree_weight
    (qsort : (HuffNode → HuffNode → option Z) → list HuffNode → option (list HuffNode))
    (freqs : list Z) (num_symbols : Z) :
  qsort_contract qsort →
  1 <= num_symbols <= Z.of_nat (length freqs) →
  total_freq (positive_symbols freqs num_symbols) <= INT_MAX →
  (1 <= length (positive_symbols freqs num_symbols))%nat →
  ∃ tree, build_huffman_tree qsort freqs num_symbols = Some tree ∧
          freq_of tree = total_freq (positive_symbols freqs num_symbols).
Proof.
  intros Hqsort Hn Htotal Hcount.
  destruct (positive_symbols freqs num_symbols) as [|[s f] [|sf2 symbols]] eqn:Esyms.
  - simpl in Hcount. lia.
  - destruct (degenerate_tree_spec qsort freqs num_symbols
                (replicate (Z.to_nat num_symbols) (Huff.mk 0 0)) Hn)
      as (tree & Hbuild & Hshape).
    { rewrite length_replicate. lia. }
    { rewrite Esyms. simpl. lia. }
    rewrite Esyms in Hshape. destruct Hshape as [-> _].
    exists (Node f (-1) (Node f s Null Null) Null). split; [exact Hbuild|].
    unfold total_freq. simpl. lia.
  - destruct (build_huffman_tree_spec qsort freqs num_symbols Hqsort ltac:(lia))
      as (tree & Hbuild & _ & _ & Hfreq).
    { rewrite Esyms. exact Htotal. }
    { rewrite Esyms. simpl. lia. }
    exists tree. rewrite <- Esyms. auto.
Qed.

(** X19: in [deflate_compress] both trees are always built and the
    distance codes are always generated: the literal/length tree weighs
    the number of tokens plus one, the distance tree the number of match
    tokens, or 1 when there is none (the dummy leaf). *)
Theorem huffman_pass_trees
    (qsort : (HuffNode → HuffNode → option Z) → list HuffNode → option (list HuffNode))
    (data : list byte) :
  qsort_contract qsort →
  Z.of_nat (length data) < INT_MAX →
  ∃ tokens lit_freq dist_freq lit_tree dist_tree dist_codes,
    deflate_tokens data = Some tokens ∧
    count_frequencies tokens = Some (lit_freq, dist_freq) ∧
    build_huffman_tree qsort lit_freq MAX_CODES = Some lit_tree ∧
    build_huffman_tree qsort dist_freq DIST_CODES = Some dist_tree ∧
    generate_codes dist_tree (replicate (Z.to_nat DIST_CODES) (Huff.mk 0 0)) 0 0
    = Some dist_codes ∧
    freq_of lit_tree = Z.of_nat (length tokens) + 1 ∧
    freq_of dist_tree = Z.max 1 (Z.of_nat (length (match_tokens tokens))).
Proof.
  intros Hqsort Hint.
  destruct (count_frequencies_spec data ltac:(lia))
    as (tokens & lit_freq & dist_freq & lsyms & dsyms
        & Htokens & Hlen & Hcount & Hls & Hds & Hlit & Hdist & H256).
  apply Forall2_length in Hls. apply Forall2_length in Hds.
  pose proof (match_tokens_length tokens) as Hmatches.
  destruct (tally_total _ _ _ Hlit) as [Hlt Hlc].
  destruct (tally_total _ _ _ Hdist) as [Hdt Hdc].
  rewrite length_app in Hlt. cbn [length] in Hlt.
  pose proof Hlit as (Hlitlen & _). pose proof Hdist as (Hdistlen & _).
  destruct (built_tree_weight qsort lit_freq MAX_CODES Hqsort) as (lit_tree & Hlb & Hlw).
  { change MAX_CODES with 286. lia. }
  { change MAX_CODES with 286. lia. }
  { change MAX_CODES with 286.
    assert (Hin : (256, 1) ∈ positive_symbols lit_freq 286).
    { apply positive_symbols_lookup; [lia|]. split; [lia|]. split; [exact H256 | lia]. }
    destruct (positive_symbols lit_freq 286); [inversion Hin | simpl; lia]. }
  change MAX_CODES with 286 in Hlw.
  assert (Hdistcase :
    ∃ dist_tree dist_codes,
      build_huffman_tree qsort dist_freq 30 = Some dist_tree ∧
      generate_codes dist_tree (replicate 30 (Huff.mk 0 0)) 0 0 = Some dist_codes ∧
      freq_of dist_tree = Z.max 1 (total_freq (positive_symbols dist_freq 30))).
  { destruct (le_lt_dec (length (positive_symbols dist_freq 30)) 1) as [Hfew|Hmany].
    - destruct (degenerate_tree_spec qsort dist_freq 30 (replicate 30 (Huff.mk 0 0)))
        as (tree & Hbuild & Hshape); [lia | reflexivity | exact Hfew |].
      pose proof (symbols_from_positive (take (Z.to_nat 30) dist_freq) 0) as Hpos.
      fold (positive_symbols dist_freq 30) in Hpos.
      destruct (positive_symbols dist_freq 30) as [|[s f] [|sf2 symbols]];
        [| |simpl in Hfew; lia].
      + destruct Hshape as [-> Hgen]. eexists _, _.
        split; [exact Hbuild|]. split; [exact Hgen|]. reflexivity.
      + destruct Hshape as [-> Hgen]. eexists _, _.
        split; [exact Hbuild|]. split; [exact Hgen|].
        apply Forall_cons in Hpos as [Hf _]. unfold total_freq. simpl in *. lia.
    - destruct (built_tree_codes qsort dist_freq 30 (replicate 30 (Huff.mk 0 0)) Hqsort)
        as (tree & codes' & Hbuild & Hgen & _); [lia | reflexivity | lia | lia |].
      destruct (built_tree_weight qsort dist_freq 30 Hqsort) as (tree' & Hbuild' & Hw);
        [lia | lia | lia |].
      rewrite Hbuild in Hbuild'. injection Hbuild' as <-.
      exists tree, codes'. split; [exact Hbuild|]. split; [exact Hgen|].
      rewrite Hw.
      pose proof (symbols_from_positive (take (Z.to_nat 30) dist_freq) 0) as Hpos.
      fold (positive_symbols dist_freq 30) in Hpos.
      destruct (positive_symbols dist_freq 30) as [|[s f] symbols]; [simpl in Hmany; lia|].
      apply Forall_cons in Hpos as [Hf Hpos'].
      assert (0 <= total_freq symbols).
      { clear -Hpos'. induction Hpos' as [|sf l Hsf _ IH]; unfold total_freq in *; simpl; lia. }
      unfold total_freq in *. simpl in *. lia. }
  destruct Hdistcase as (dist_tree & dist_codes & Hdb & Hdg & Hdw).
  exists tokens, lit_freq, dist_freq, lit_tree, dist_tree, dist_codes.
  change DIST_CODES with 30. change (Z.to_nat 30) with 30%nat.
  split_conj; auto; lia.
Qed.

Lemma huffman_pass_trees_witness :
  ∃ tokens lit_freq dist_freq lit_tree dist_tree dist_codes,
    deflate_tokens ["a"; "b"; "c"; "a"; "b"; "c"; "a"; "d"]%byte = Some tokens ∧
    count_frequencies tokens = Some (lit_freq, dist_freq) ∧
    build_huffman_tree insertion_sort lit_freq MAX_CODES = Some lit_tree ∧
    build_huffman_tree insertion_sort dist_freq DIST_CODES = Some dist_tree ∧
    generate_codes dist_tree (replicate (Z.to_nat DIST_CODES) (Huff.mk 0 0)) 0 0
    = Some dist_codes ∧
    freq_of lit_tree = Z.of_nat (length tokens) + 1 ∧
    freq_of dist_tree = Z.max 1 (Z.of_nat (length (match_tokens tokens))).
Proof.
  apply (huffman_pass_trees insertion_sort ["a"; "b"; "c"; "a"; "b"; "c"; "a"; "d"]%byte).
  - exact insertion_sort_contract.
  - vm_compute. reflexivity.
Defined.

(** ** The hash chains, exactly *)

Lemma bucket_range data h : ∀ n, Forall (fun q => 0 <= q < Z.of_nat n) (bucket data h n).
Proof.
  induction n as [|n IH]; cbn [bucket]; [constructor|].
  assert (Hrest : Forall (fun q => 0 <= q < Z.of_nat (S n)) (bucket data h n)).
  { eapply Forall_impl; [exact IH|]. simpl. intros q Hq. lia. }
  destruct (decide (hash3 data (Z.of_nat n) = Some h)); [|exact Hrest].
  constructor; [lia | exact Hrest].
Qed.

Lemma bucket_sorted data h : ∀ n, StronglySorted (fun a b => b < a) (bucket data h n).
Proof.
  induction n as [|n IH]; cbn [bucket]; [constructor|].
  destruct (decide (hash3 data (Z.of_nat n) = Some h)); [|exact IH].
  constructor; [exact IH|].
  eapply Forall_impl; [apply bucket_range|]. simpl. intros q Hq. lia.
Qed.

Lemma bucket_elem data h : ∀ (n : nat) q,
  q ∈ bucket data h n ↔ 0 <= q < Z.of_nat n ∧ hash3 data q = Some h.
Proof.
  induction n as [|n IH]; intros q; cbn [bucket].
  - split; [intros H; inversion H | lia].
  - destruct (decide (hash3 data (Z.of_nat n) = Some h)) as [Hh|Hh].
    + rewrite elem_of_cons, IH. split.
      * intros [->|[Hq Hhq]]; [split; [lia | exact Hh] | split; [lia | exact Hhq]].
      * intros [Hq Hhq]. destruct (decide (q = Z.of_nat n)) as [->|Hne]; [left; reflexivity|].
        right. split; [lia | exact Hhq].
    + rewrite IH. split.
      * intros [Hq Hhq]. split; [lia | exact Hhq].
      * intros [Hq Hhq]. split; [|exact Hhq].
        destruct (decide (q = Z.of_nat n)) as [->|Hne]; [contradiction | lia].
Qed.

Lemma hash3_None data q :
  0 <= q → Z.of_nat (length data) <= q + 2 → hash3 data q = None.
Proof.
  intros Hq Hsize. unfold hash3.
  assert (Hout : array_get data (q + 2) = None).
  { unfold array_get. destruct (Z.ltb_spec (q + 2) 0); [reflexivity|].
    apply lookup_ge_None. lia. }
  destruct (array_get data q); [|reflexivity]. cbn [mbind option_bind].
  destruct (array_get data (q + 1)); [|reflexivity]. cbn [mbind option_bind].
  rewrite Hout. reflexivity.
Qed.

Lemma bucket_hit data h (n : nat) :
  hash3 data (Z.of_nat n) = Some h →
  bucket data h (S n) = Z.of_nat n :: bucket data h n.
Proof. intros Hh. cbn [bucket]. destruct (decide _); [reflexivity | contradiction]. Qed.

Lemma bucket_miss data h (n : nat) :
  hash3 data (Z.of_nat n) ≠ Some h → bucket data h (S n) = bucket data h n.
Proof. intros Hh. cbn [bucket]. destruct (decide _); [contradiction | reflexivity]. Qed.

Lemma bucket_beyond data h (n : nat) : ∀ k : nat,
  Z.of_nat (length data) <= Z.of_nat n + 2 →
  bucket data h (n + k) = bucket data h n.
Proof.
  intros k Hsize. induction k as [|k IH]; [rewrite Nat.add_0_r; reflexivity|].
  rewrite Nat.add_succ_r, bucket_miss; [exact IH|].
  rewrite hash3_None by lia. discriminate.
Qed.

Lemma chain_is_frame prev p v : ∀ l m,
  0 <= p → chain_is prev m l → Forall (fun q => q < p) l →
  chain_is (<[Z.to_nat p := v]> prev) m l.
Proof.
  intros l m Hp Hchain. induction Hchain as [|m next l Hm Hnext _ IH]; intros Hall.
  - constructor.
  - apply Forall_cons in Hall as [Hlt Hall].
    apply chain_link with (next := next); [exact Hm | | exact (IH Hall)].
    unfold load_prev. rewrite array_get_set_ne by lia. exact Hnext.
Qed.

Lemma bucket_below data h (n : nat) p :
  Z.of_nat n <= p → Forall (fun q => q < p) (bucket data h n).
Proof.
  intros Hn. eapply Forall_impl; [apply bucket_range|]. simpl. intros q Hq. lia.
Qed.

Section InsertExact.
Variable data : list byte.
Hypothesis size_int : Z.of_nat (length data) <= INT_MAX.

Lemma insert_hash_exact hash_table prev p hash_table' prev' :
  0 <= p → chains_exact data hash_table prev p →
  insert_hash data hash_table prev p = Some (hash_table', prev') →
  chains_exact data hash_table' prev' (p + 1).
Proof.
  intros Hp Hexact Hins. unfold insert_hash in Hins.
  destruct (hash3 data p) as [h|] eqn:Hh; [|discriminate].
  cbn [mbind option_bind] in Hins.
  destruct (array_get hash_table h) as [old|] eqn:Hold; [|discriminate].
  cbn [mbind option_bind] in Hins.
  destruct (array_set prev p (Some old)) as [prev1|] eqn:Hprev; [|discriminate].
  cbn [mbind option_bind] in Hins.
  destruct (array_set hash_table h (to_int p)) as [ht1|] eqn:Hht; [|discriminate].
  cbn [mbind option_bind] in Hins. injection Hins as <- <-.
  apply array_set_Some in Hprev as [Hpr ->]. apply array_set_Some in Hht as [Hhr ->].
  assert (Hsize : p + 2 < Z.of_nat (length data)).
  { destruct (Z.lt_ge_cases (p + 2) (Z.of_nat (length data))) as [|Hge]; [assumption|].
    rewrite hash3_None in Hh by lia. discriminate. }
  rewrite to_int_id by (unfold INT_MAX in *; lia).
  unfold chains_exact. replace (Z.to_nat (p + 1)) with (S (Z.to_nat p)) by lia.
  assert (Hp' : hash3 data (Z.of_nat (Z.to_nat p)) = Some h) by (rewrite Z2Nat.id by lia; exact Hh).
  intros h' m Hm. destruct (decide (h = h')) as [<-|Hne].
  - rewrite array_get_set_eq in Hm by lia. injection Hm as <-.
    rewrite (bucket_hit _ _ _ Hp'), Z2Nat.id by lia.
    apply chain_link with (next := old); [exact Hp | apply load_prev_insert_eq; lia |].
    apply chain_is_frame; [exact Hp | exact (Hexact h old Hold) | apply bucket_below; lia].
  - rewrite array_get_set_ne in Hm by lia.
    rewrite bucket_miss by (rewrite Hp'; congruence).
    apply chain_is_frame; [exact Hp | exact (Hexact h' m Hm) | apply bucket_below; lia].
Qed.

Lemma chains_exact_beyond hash_table prev p p' :
  0 <= p <= p' → Z.of_nat (length data) <= p + 2 →
  chains_exact data hash_table prev p → chains_exact data hash_table prev p'.
Proof.
  intros Hp Hsize Hexact h m Hm.
  replace (Z.to_nat p') with (Z.to_nat p + Z.to_nat (p' - p))%nat by lia.
  rewrite bucket_beyond by lia. exact (Hexact h m Hm).
Qed.

Lemma insert_range_exact size pos best_length :
  size = Z.of_nat (length data) → 0 <= pos →
  ∀ (fuel : nat) (i : Z) hash_table prev hash_table' prev',
    chains_exact data hash_table prev (pos + i) → 0 <= i <= best_length →
    best_length - i <= Z.of_nat fuel →
    insert_range fuel data hash_table prev size pos best_length i
    = Some (hash_table', prev') →
    chains_exact data hash_table' prev' (pos + best_length).
Proof.
  intros -> Hpos. induction fuel as [|fuel IH];
    intros i hash_table prev hash_table' prev' Hexact Hi Hfuel Hins.
  - assert (i = best_length) as -> by lia. simpl in Hins.
    rewrite Z.ltb_irrefl in Hins. simpl in Hins. injection Hins as <- <-. exact Hexact.
  - cbn [insert_range] in Hins.
    destruct (Z.ltb_spec i best_length) as [Hlt|Hge]; cbn [andb] in Hins.
    2: { injection Hins as <- <-. assert (i = best_length) as -> by lia. exact Hexact. }
    destruct (Z.ltb_spec (pos + i + 2) (Z.of_nat (length data))) as [Hin|Hout].
    2: { injection Hins as <- <-.
         apply (chains_exact_beyond hash_table prev (pos + i)); [lia | lia | exact Hexact]. }
    destruct (insert_hash data hash_table prev (pos + i)) as [[ht1 prev1]|] eqn:Hone;
      [|discriminate].
    cbn [mbind option_bind] in Hins.
    apply (IH (i + 1) ht1 prev1); [|lia|lia|exact Hins].
    replace (pos + (i + 1)) with (pos + i + 1) by lia.
    apply (insert_hash_exact hash_table prev); [lia | exact Hexact | exact Hone].
Qed.
End InsertExact.

Lemma lz77_step_exact data st st' :
  Z.of_nat (length data) <= INT_MAX → 0 <= m_pos st →
  chains_exact data (m_hash_table st) (m_prev st) (m_pos st) →
  lz77_step data (Z.of_nat (length data)) st = Some st' →
  chains_exact data (m_hash_table st') (m_prev st') (m_pos st').
Proof.
  intros Hint Hpos Hexact Hstep. unfold lz77_step in Hstep.
  destruct (find_match data (m_hash_table st) (m_prev st) (Z.of_nat (length data)) (m_pos st))
    as [[bl bd]|]; [|discriminate].
  cbn [mbind option_bind] in Hstep.
  destruct (Z.leb_spec MIN_MATCH bl) as [Hm|Hl].
  - destruct (push_token _ _ _) as [tokens'|]; [|discriminate].
    cbn [mbind option_bind] in Hstep.
    destruct (insert_range _ data _ _ _ _ bl 0) as [[ht' prev']|] eqn:Hins; [|discriminate].
    cbn [mbind option_bind] in Hstep. injection Hstep as <-. cbn [m_hash_table m_prev m_pos].
    unfold MIN_MATCH in Hm.
    apply (insert_range_exact data Hint _ (m_pos st) bl eq_refl Hpos
             (Z.to_nat bl) 0 (m_hash_table st) (m_prev st)); [|lia|lia|exact Hins].
    rewrite Z.add_0_r. exact Hexact.
  - destruct (array_get data (m_pos st)) as [b|]; [|discriminate].
    cbn [mbind option_bind] in Hstep.
    destruct (push_token _ _ _) as [tokens'|]; [|discriminate].
    cbn [mbind option_bind] in Hstep.
    destruct (Z.ltb_spec (m_pos st + 2) (Z.of_nat (length data))) as [Hin|Hout].
    + destruct (insert_hash data _ _ (m_pos st)) as [[ht' prev']|] eqn:Hins; [|discriminate].
      cbn [mbind option_bind] in Hstep. injection Hstep as <-.
      cbn [m_hash_table m_prev m_pos].
      apply (insert_hash_exact data Hint (m_hash_table st) (m_prev st));
        [exact Hpos | exact Hexact | exact Hins].
    + cbn [mbind option_bind] in Hstep. injection Hstep as <-.
      cbn [m_hash_table m_prev m_pos].
      apply (chains_exact_beyond data _ _ (m_pos st)); [lia | lia | exact Hexact].
Qed.

Lemma lz77_reach_exact data st :
  Z.of_nat (length data) <= INT_MAX → lz77_reach data st →
  chains_exact data (m_hash_table st) (m_prev st) (m_pos st).
Proof.
  intros Hint Hreach. induction Hreach as [|st st' Hreach IH Hlt Hstep].
  - intros h m Hm. cbn [lz77_init m_hash_table m_prev m_pos] in *.
    apply array_get_Some in Hm as [_ Hm]. apply lookup_replicate in Hm as [-> _].
    constructor.
  - pose proof (lz77_reach_ok data st Hint Hreach) as (Hpos & _).
    apply (lz77_step_exact data st st' Hint); [lia | exact IH | exact Hstep].
Qed.

Section ChainCover.
Variables (data : list byte) (prev : list (option Z)) (size pos : Z).
Hypothesis size_eq : size = Z.of_nat (length data).
Hypothesis size_int : size <= INT_MAX.
Hypothesis pos_range : 0 <= pos <= size.

(** The walk examines every chain position within reach, and the length
    it records for one is the longest repeat that starts there. *)
Lemma chain_visits_cover : ∀ (links : nat) (match_pos : Z) (l : list Z) visits,
  chain_is prev match_pos l →
  StronglySorted (fun a b => b < a) l → Forall (fun q => 0 <= q < pos) l →
  chain_visits links data prev size pos match_pos = Some visits →
  ∀ q, q ∈ take links l → pos - q <= MAX_DIST →
  ∃ len, (pos - q, len) ∈ visits ∧
         ∀ k, 0 <= k <= Z.min 258 (size - pos) →
              (∀ j, 0 <= j < k →
                    data !! Z.to_nat (q + j) = data !! Z.to_nat (pos + j)) →
              k <= len.
Proof.
  induction links as [|links IH]; intros match_pos l visits Hchain Hsorted Hall Hvis q Hq Hdist.
  { rewrite take_0 in Hq. inversion Hq. }
  destruct Hchain as [|m next l Hm Hnext Hchain]; [inversion Hq|].
  apply StronglySorted_cons in Hsorted as [Hless Hsorted].
  apply Forall_cons in Hall as [Hmr Hall].
  cbn [chain_visits] in Hvis.
  destruct (Z.leb_spec 0 m); [|lia].
  rewrite to_int_id in Hvis by (unfold INT_MAX in *; lia).
  cbn [take] in Hq.
  destruct (Z.ltb_spec MAX_DIST (pos - m)) as [Hfar|Hnear].
  { exfalso. apply elem_of_cons in Hq as [->|Hq]; [lia|].
    apply subseteq_take in Hq. rewrite Forall_forall in Hless.
    specialize (Hless q Hq). lia. }
  destruct (Z.leb_spec (pos - m) 0); [lia|]. cbn [orb] in Hvis.
  set (max_len := to_int (if size - pos <? MAX_MATCH then size - pos else MAX_MATCH)) in *.
  assert (Hmax : max_len = Z.min 258 (size - pos)).
  { subst max_len. unfold MAX_MATCH.
    destruct (Z.ltb_spec (size - pos) 258);
      rewrite to_int_id by (unfold INT_MAX in *; lia); lia. }
  destruct (match_length (Z.to_nat max_len) data m pos max_len 0) as [len|] eqn:Hlen;
    [|discriminate].
  cbn [mbind option_bind] in Hvis. rewrite Hnext in Hvis. cbn [mbind option_bind] in Hvis.
  destruct (chain_visits links data prev size pos next) as [rest|] eqn:Hrest; [|discriminate].
  cbn [mbind option_bind] in Hvis. injection Hvis as <-.
  apply elem_of_cons in Hq as [->|Hq].
  - exists len. split; [apply list_elem_of_here|].
    intros k Hk Hsame. rewrite <- Hmax in Hk.
    destruct (match_length_spec data m pos max_len ltac:(lia) ltac:(lia) ltac:(lia)
                (Z.to_nat max_len) 0 ltac:(lia) ltac:(lia) ltac:(intros; lia))
      as (r & Hr & Hrange & _).
    rewrite Hlen in Hr. injection Hr as <-.
    destruct (match_length_maximal data m pos max_len ltac:(lia) ltac:(lia)
                (Z.to_nat max_len) 0 len ltac:(lia) Hlen) as [->|Hdiff]; [lia|].
    destruct (Z.le_gt_cases k len) as [|Hgt]; [assumption|].
    exfalso. apply Hdiff. apply Hsame. lia.
  - destruct (IH next l rest Hchain Hsorted Hall Hrest q Hq Hdist) as (len' & Hin & Hbest).
    exists len'. split; [apply list_elem_of_further, Hin | exact Hbest].
Qed.
End ChainCover.

Lemma candidates_spec data p q :
  q ∈ candidates data p →
  ∃ h, hash3 data p = Some h ∧ q ∈ take 128 (bucket data h (Z.to_nat p)) ∧
       p - q <= MAX_DIST.
Proof.
  unfold candidates. destruct (hash3 data p) as [h|]; [|intros H; inversion H].
  intros Hq. apply list_elem_of_In, filter_In in Hq as [Hq Hd].
  exists h. split; [reflexivity|]. split; [apply list_elem_of_In, Hq | lia].
Qed.

Lemma find_match_beats data st best q k :
  Z.of_nat (length data) <= INT_MAX → matcher_ok data st →
  chains_exact data (m_hash_table st) (m_prev st) (m_pos st) →
  find_match data (m_hash_table st) (m_prev st) (Z.of_nat (length data)) (m_pos st)
  = Some best →
  q ∈ candidates data (m_pos st) →
  3 <= k <= Z.min 258 (Z.of_nat (length data) - m_pos st) →
  (∀ j, 0 <= j < k → data !! Z.to_nat (q + j) = data !! Z.to_nat (m_pos st + j)) →
  k <= best.1.
Proof.
  intros Hint Hok Hexact Hfind Hq Hk Hsame.
  destruct (find_match_visits data st Hint Hok)
    as (h & mp & visits & Hh & Hmp & Hvis & Hfind' & _ & _ & _).
  { unfold MIN_MATCH. lia. }
  rewrite Hfind in Hfind'. injection Hfind' as ->.
  apply candidates_spec in Hq as (h' & Hh' & Hq & Hdist).
  rewrite Hh in Hh'. injection Hh' as <-.
  pose proof Hok as (Hpos & _).
  assert (Hrange : Forall (fun x => 0 <= x < m_pos st) (bucket data h (Z.to_nat (m_pos st)))).
  { eapply Forall_impl; [apply bucket_range|]. simpl. intros x Hx. lia. }
  destruct (chain_visits_cover data (m_prev st) (Z.of_nat (length data)) (m_pos st)
              eq_refl Hint Hpos 128 mp (bucket data h (Z.to_nat (m_pos st))) visits
              (Hexact h mp Hmp) (bucket_sorted data h _) Hrange Hvis q Hq Hdist)
    as (len & Hin & Hbest).
  specialize (Hbest k ltac:(lia) Hsame).
  destruct (fold_update_best_split visits (0, 0))
    as [[_ Hall] | (_ & _ & pre & post & Hsplit & Hpre & Hpost)].
  - rewrite Forall_forall in Hall. specialize (Hall _ Hin).
    unfold MIN_MATCH in Hall. simpl in Hall. lia.
  - remember (fold_left update_best visits (0, 0)) as r eqn:Er.
    rewrite Hsplit in Hin. apply elem_of_app in Hin as [Hin|Hin].
    + rewrite Forall_forall in Hpre. specialize (Hpre _ Hin). simpl in Hpre. lia.
    + apply elem_of_cons in Hin as [Hin|Hin].
      * injection Hin as _ ->. lia.
      * rewrite Forall_forall in Hpost. specialize (Hpost _ Hin). simpl in Hpost. lia.
Qed.

Lemma lz77_reach_beats data st :
  Z.of_nat (length data) <= INT_MAX → lz77_reach data st →
  Forall (fun pt => beats_candidates data pt.1 pt.2) (token_positions (m_tokens st)).
Proof.
  intros Hint Hreach. induction Hreach as [|st st' Hreach IH Hlt Hstep].
  - constructor.
  - pose proof (lz77_reach_ok data st Hint Hreach) as Hok.
    pose proof (lz77_reach_exact data st Hint Hreach) as Hexact.
    destruct (lz77_step_token _ _ _ _ Hstep) as (best & t & Hfind & Htoks & Hcase).
    rewrite Htoks. unfold token_positions in *. rewrite positions_from_app.
    apply Forall_app. split; [exact IH|].
    pose proof Hok as (_ & _ & _ & Hcov & _).
    cbn [positions_from]. rewrite Z.add_0_l, Hcov. constructor; [|constructor].
    cbn [fst snd]. intros q k Hq Hk Hsame.
    pose proof (find_match_beats data st best q k Hint Hok Hexact Hfind Hq Hk Hsame) as Hbest.
    destruct Hcase as [[Hm ->] | [Hl _]]; [|unfold MIN_MATCH in Hl; lia].
    split; [reflexivity | exact Hbest].
Qed.

(** X20: for every input of at most [INT_MAX] bytes the token emitted at a
    position is a match at least as long as every repeat of three or more
    bytes that starts at one of the candidates: the 128 most recent earlier
    positions with the same hash value and at most 32768 bytes back.  So a
    literal is emitted only when none of them repeats three bytes. *)
Theorem longest_candidate_match (data : list byte) :
  Z.of_nat (length data) <= INT_MAX →
  ∃ tokens, lz77_compress data = Some tokens ∧
    ∀ p t, (p, t) ∈ token_positions tokens → beats_candidates data p t.
Proof.
  intros Hint.
  destruct (lz77_loop_spec data Hint (length data) (lz77_init data) (reach_init data))
    as (st & Hloop & Hreach & _); [simpl; lia|].
  exists (m_tokens st). split; [exact Hloop|].
  intros p t Hin.
  pose proof (lz77_reach_beats data st Hint Hreach) as Hall.
  rewrite Forall_forall in Hall. exact (Hall (p, t) Hin).
Qed.

Lemma longest_candidate_match_witness :
  ∃ tokens, lz77_compress ["a"; "b"; "c"; "a"; "b"; "c"; "a"; "d"]%byte = Some tokens ∧
    ∀ p t, (p, t) ∈ token_positions tokens →
           beats_candidates ["a"; "b"; "c"; "a"; "b"; "c"; "a"; "d"]%byte p t.
Proof.
  apply (longest_candidate_match ["a"; "b"; "c"; "a"; "b"; "c"; "a"; "d"]%byte).
  vm_compute. congruence.
Defined.

(** X21: for every input of at most [INT_MAX] bytes, at the head of every
    iteration of the main loop, following [prev] from the head of a hash
    value passes through exactly the earlier positions with that hash value
    (those with three bytes to hash), the most recent first, and then
    reaches [-1]: no position is missing from its chain and none is listed
    twice. *)
Theorem hash_chains_exact (data : list byte) (st : Matcher) (h m : Z) :
  Z.of_nat (length data) <= INT_MAX → lz77_reach data st →
  array_get (m_hash_table st) h = Some m →
  chain_is (m_prev st) m (bucket data h (Z.to_nat (m_pos st))) ∧
  StronglySorted (fun a b => b < a) (bucket data h (Z.to_nat (m_pos st))) ∧
  ∀ q, q ∈ bucket data h (Z.to_nat (m_pos st)) ↔
       0 <= q < m_pos st ∧ hash3 data q = Some h.
Proof.
  intros Hint Hreach Hm.
  pose proof (lz77_reach_ok data st Hint Hreach) as (Hpos & _).
  split; [exact (lz77_reach_exact data st Hint Hreach h m Hm)|].
  split; [apply bucket_sorted|].
  intros q. rewrite bucket_elem. rewrite Z2Nat.id by lia. reflexivity.
Qed.

Lemma hash_chains_exact_witness :
  let data := ["a"; "b"; "c"; "X"; "a"; "b"; "c"; "Y"; "a"; "b"; "c"]%byte in
  let st := lz77_run 6 data (lz77_init data) in
  chain_is (m_prev st) 4 (bucket data 2083 (Z.to_nat (m_pos st))) ∧
  StronglySorted (fun a b => b < a) (bucket data 2083 (Z.to_nat (m_pos st))) ∧
  ∀ q, q ∈ bucket data 2083 (Z.to_nat (m_pos st)) ↔
       0 <= q < m_pos st ∧ hash3 data q = Some 2083.
Proof.
  intros data st. apply (hash_chains_exact data st 2083 4).
  - vm_compute. congruence.
  - apply lz77_run_reach, reach_init.
  - vm_compute. reflexivity.
Defined.

(** ** The matcher on inputs of any size *)

Lemma to_int_spec x :
  ∃ q, to_int x = x - 4294967296 * q ∧ -2147483648 <= to_int x < 2147483648.
Proof.
  unfold to_int. exists ((x + 2147483648) / 4294967296).
  pose proof (Z.div_mod (x + 2147483648) 4294967296 ltac:(lia)).
  pose proof (Z.mod_pos_bound (x + 2147483648) 4294967296 ltac:(lia)). lia.
Qed.

Lemma to_int_le x : 0 <= x → to_int x <= x.
Proof.
  intros Hx. unfold to_int.
  pose proof (Z.div_mod (x + 2147483648) 4294967296 ltac:(lia)).
  pose proof (Z.div_pos (x + 2147483648) 4294967296 ltac:(lia) ltac:(lia)). lia.
Qed.

Lemma hash3_Some_range data q h :
  hash3 data q = Some h → 0 <= q ∧ q + 2 < Z.of_nat (length data).
Proof.
  intros Hh.
  destruct (Z.lt_ge_cases q 0) as [Hneg|Hq].
  { unfold hash3, array_get in Hh. destruct (Z.ltb_spec q 0); [discriminate | lia]. }
  split; [exact Hq|].
  destruct (Z.lt_ge_cases (q + 2) (Z.of_nat (length data))) as [|Hge]; [assumption|].
  rewrite hash3_None in Hh by lia. discriminate.
Qed.

Lemma head_value_stored data h pos :
  0 <= pos → stored_ok data pos (head_value data h pos).
Proof.
  intros Hpos. unfold head_value.
  destruct (bucket data h (Z.to_nat pos)) as [|q l] eqn:Eb; [left; reflexivity|].
  assert (Hq : q ∈ bucket data h (Z.to_nat pos)) by (rewrite Eb; apply list_elem_of_here).
  apply bucket_elem in Hq as [Hq Hh].
  apply hash3_Some_range in Hh as [_ Hh].
  right. exists q. split; [lia|]. split; [exact Hh | reflexivity].
Qed.

Lemma head_value_hit data h p :
  0 <= p → hash3 data p = Some h → head_value data h (p + 1) = to_int p.
Proof.
  intros Hp Hh. unfold head_value.
  replace (Z.to_nat (p + 1)) with (S (Z.to_nat p)) by lia.
  rewrite bucket_hit by (rewrite Z2Nat.id by lia; exact Hh).
  rewrite Z2Nat.id by lia. reflexivity.
Qed.

Lemma head_value_miss data h p :
  0 <= p → hash3 data p ≠ Some h → head_value data h (p + 1) = head_value data h p.
Proof.
  intros Hp Hh. unfold head_value.
  replace (Z.to_nat (p + 1)) with (S (Z.to_nat p)) by lia.
  rewrite bucket_miss by (rewrite Z2Nat.id by lia; exact Hh). reflexivity.
Qed.

Lemma head_value_beyond data h p p' :
  0 <= p <= p' → Z.of_nat (length data) <= p + 2 →
  head_value data h p' = head_value data h p.
Proof.
  intros Hp Hsize. unfold head_value.
  replace (Z.to_nat p') with (Z.to_nat p + Z.to_nat (p' - p))%nat by lia.
  rewrite bucket_beyond by lia. reflexivity.
Qed.

Lemma stored_ok_mono data bound bound' m :
  bound <= bound' → stored_ok data bound m → stored_ok data bound' m.
Proof.
  intros Hb [->|(p & Hp & Hp2 & ->)]; [left; reflexivity|].
  right. exists p. split; [lia|]. split; [exact Hp2 | reflexivity].
Qed.

Lemma cells_safe_beyond data hash_table prev p p' :
  0 <= p <= p' → Z.of_nat (length data) <= p + 2 →
  cells_safe data hash_table prev p → cells_safe data hash_table prev p'.
Proof.
  intros Hp Hsize (Hlh & Hlp & Hheads & Hlinks & Hins).
  split; [exact Hlh|]. split; [exact Hlp|]. split; [|split].
  - intros h m Hm. rewrite (head_value_beyond data h p p') by assumption.
    exact (Hheads h m Hm).
  - intros q v Hv. apply (stored_ok_mono data p); [lia | exact (Hlinks q v Hv)].
  - intros q Hq Hq2. apply Hins; lia.
Qed.

Lemma max_len_value size pos :
  0 <= pos <= size →
  to_int (if size - pos <? MAX_MATCH then size - pos else MAX_MATCH)
  = Z.min 258 (size - pos).
Proof.
  intros Hpos. unfold MAX_MATCH. destruct (Z.ltb_spec (size - pos) 258);
    rewrite to_int_id by (unfold INT_MAX; lia); lia.
Qed.

Section SearchSafe.
Variables (data : list byte) (prev : list (option Z)) (size pos : Z).
Hypothesis size_eq : size = Z.of_nat (length data).
Hypothesis pos_range : 0 <= pos <= size.
Hypothesis links_stored : ∀ q v, load_prev prev q = Some v → stored_ok data pos v.
Hypothesis hashed_stored :
  ∀ q, 0 <= q < pos → q + 2 < size → ∃ v, load_prev prev q = Some v.

(** The walk returns, with the best it was given or a longer match that
    fits. *)
Lemma search_chain_safe : ∀ (links : nat) (match_pos bl bd : Z),
  stored_ok data pos match_pos →
  ∃ r, search_chain links data prev size pos match_pos bl bd = Some r ∧
       (r = (bl, bd) ∨
        (bl < r.1 ∧ MIN_MATCH <= r.1 ∧ r.1 <= Z.min 258 (size - pos))).
Proof.
  induction links as [|links IH]; intros match_pos bl bd Hst.
  { exists (bl, bd). split; [reflexivity | left; reflexivity]. }
  cbn [search_chain].
  destruct (Z.leb_spec 0 match_pos) as [Hmp|Hneg];
    [|exists (bl, bd); split; [reflexivity | left; reflexivity]].
  destruct Hst as [->|(p & Hp & Hp2 & ->)]; [lia|].
  pose proof (to_int_le p ltac:(lia)) as Hle.
  destruct ((MAX_DIST <? to_int (pos - to_int p)) || (to_int (pos - to_int p) <=? 0));
    [exists (bl, bd); split; [reflexivity | left; reflexivity]|].
  rewrite (max_len_value size pos pos_range).
  destruct (match_length_spec data (to_int p) pos (Z.min 258 (size - pos))
              Hmp ltac:(lia) ltac:(lia) (Z.to_nat (Z.min 258 (size - pos))) 0
              ltac:(lia) ltac:(lia) ltac:(intros; lia))
    as (len & Hlen & Hrange & _).
  rewrite Hlen. cbn [mbind option_bind].
  destruct (hashed_stored (to_int p) ltac:(lia) ltac:(lia)) as [next Hnext].
  rewrite Hnext. cbn [mbind option_bind].
  pose proof (links_stored _ _ Hnext) as Hnst.
  destruct (Z.leb_spec MIN_MATCH len) as [Hmin|Hshort];
    [destruct (Z.ltb_spec bl len) as [Hlonger|Hnot]|]; cbn [andb fst snd].
  - destruct (IH next len (to_int (pos - to_int p)) Hnst) as (r & Hr & Hcase).
    exists r. split; [exact Hr|]. right.
    destruct Hcase as [->|(H1 & H2 & H3)]; cbn [fst]; lia.
  - exact (IH next bl bd Hnst).
  - exact (IH next bl bd Hnst).
Qed.
End SearchSafe.

Lemma find_match_safe data hash_table prev pos :
  0 <= pos <= Z.of_nat (length data) → cells_safe data hash_table prev pos →
  ∃ best, find_match data hash_table prev (Z.of_nat (length data)) pos = Some best ∧
          (best = (0, 0) ∨
           (MIN_MATCH <= best.1 ∧ best.1 <= Z.min 258 (Z.of_nat (length data) - pos))).
Proof.
  intros Hpos (Hlh & Hlp & Hheads & Hlinks & Hins). unfold find_match.
  destruct (Z.leb_spec (pos + MIN_MATCH) (Z.of_nat (length data))) as [Hroom|Hnone];
    [|exists (0, 0); split; [reflexivity | left; reflexivity]].
  unfold MIN_MATCH in Hroom.
  destruct (hash3_spec data pos ltac:(lia) ltac:(lia)) as (h & Hh & Hhr).
  destruct (array_get_in_range hash_table h ltac:(lia)) as [m Hm].
  rewrite Hh. cbn [mbind option_bind]. rewrite Hm. cbn [mbind option_bind].
  destruct (search_chain_safe data prev (Z.of_nat (length data)) pos eq_refl Hpos
              Hlinks Hins 128 m 0 0) as (r & Hr & Hcase).
  { rewrite (Hheads h m Hm). apply head_value_stored. lia. }
  exists r. split; [exact Hr|].
  destruct Hcase as [->|(H1 & H2 & H3)]; [left; reflexivity | right; lia].
Qed.

Section InsertSafe.
Variable data : list byte.

Lemma insert_hash_safe hash_table prev p :
  cells_safe data hash_table prev p → 0 <= p → p + 2 < Z.of_nat (length data) →
  ∃ hash_table' prev',
    insert_hash data hash_table prev p = Some (hash_table', prev') ∧
    cells_safe data hash_table' prev' (p + 1).
Proof.
  intros (Hlh & Hlp & Hheads & Hlinks & Hins) Hp Hsize.
  destruct (hash3_spec data p Hp Hsize) as (h & Hh & Hhr).
  destruct (array_get_in_range hash_table h ltac:(lia)) as [old Hold].
  unfold insert_hash. rewrite Hh. cbn [mbind option_bind].
  rewrite Hold. cbn [mbind option_bind].
  rewrite array_set_in_range by lia. cbn [mbind option_bind].
  rewrite array_set_in_range by lia. cbn [mbind option_bind].
  eexists _, _. split; [reflexivity|].
  split; [rewrite length_insert; exact Hlh|].
  split; [rewrite length_insert; exact Hlp|]. split; [|split].
  - intros h' m Hm. destruct (decide (h = h')) as [<-|Hne].
    + rewrite array_get_set_eq in Hm by lia. injection Hm as <-.
      symmetry. apply head_value_hit; assumption.
    + rewrite array_get_set_ne in Hm by lia.
      rewrite head_value_miss by (try assumption; rewrite Hh; congruence).
      exact (Hheads h' m Hm).
  - intros q v Hv. destruct (decide (p = q)) as [<-|Hne].
    + rewrite load_prev_insert_eq in Hv by lia. injection Hv as <-.
      apply (stored_ok_mono data p); [lia|].
      rewrite (Hheads h old Hold). apply head_value_stored. exact Hp.
    + rewrite load_prev_insert_ne in Hv by lia.
      apply (stored_ok_mono data p); [lia | exact (Hlinks q v Hv)].
  - intros q Hq Hq2. destruct (decide (p = q)) as [<-|Hne].
    + exists old. apply load_prev_insert_eq. lia.
    + rewrite load_prev_insert_ne by lia. apply Hins; lia.
Qed.

Lemma insert_range_safe size pos best_length :
  size = Z.of_nat (length data) → 0 <= pos →
  ∀ (fuel : nat) (i : Z) hash_table prev,
    cells_safe data hash_table prev (pos + i) → 0 <= i <= best_length →
    best_length - i <= Z.of_nat fuel →
    ∃ hash_table' prev',
      insert_range fuel data hash_table prev size pos best_length i
      = Some (hash_table', prev') ∧
      cells_safe data hash_table' prev' (pos + best_length).
Proof.
  intros -> Hpos. induction fuel as [|fuel IH]; intros i hash_table prev Hc Hi Hfuel.
  - assert (i = best_length) as -> by lia. simpl.
    rewrite Z.ltb_irrefl. simpl. eauto.
  - cbn [insert_range].
    destruct (Z.ltb_spec i best_length) as [Hlt|Hge]; cbn [andb].
    2: { exists hash_table, prev. split; [reflexivity|].
         assert (i = best_length) as <- by lia. exact Hc. }
    destruct (Z.ltb_spec (pos + i + 2) (Z.of_nat (length data))) as [Hin|Hout].
    2: { exists hash_table, prev. split; [reflexivity|].
         apply (cells_safe_beyond data _ _ (pos + i)); [lia | lia | exact Hc]. }
    destruct (insert_hash_safe hash_table prev (pos + i) Hc ltac:(lia) Hin)
      as (ht1 & prev1 & Hins & Hc1).
    rewrite Hins. cbn [mbind option_bind].
    apply IH; [|lia|lia].
    replace (pos + (i + 1)) with (pos + i + 1) by lia. exact Hc1.
Qed.
End InsertSafe.

(** One iteration, on an input of any size. *)
Lemma lz77_step_safe data st :
  matcher_safe data st → m_pos st < Z.of_nat (length data) →
  ∃ st' best,
    lz77_step data (Z.of_nat (length data)) st = Some st' ∧
    matcher_safe data st' ∧
    find_match data (m_hash_table st) (m_prev st) (Z.of_nat (length data)) (m_pos st)
    = Some best ∧
    ((MIN_MATCH <= best.1 ∧ best.1 <= 258 ∧
      m_tokens st' = m_tokens st ++ [Token.mk (-1) best.1 best.2] ∧
      m_pos st' = m_pos st + best.1) ∨
     (best.1 < MIN_MATCH ∧
      (∃ t, m_tokens st' = m_tokens st ++ [t] ∧ is_literal t = true) ∧
      m_pos st' = m_pos st + 1)).
Proof.
  intros (Hpos & Hcells & Hcount & Hcov) Hlt.
  destruct (find_match_safe data _ _ _ Hpos Hcells) as ([bl bd] & Hfind & Hbest).
  unfold lz77_step. rewrite Hfind. cbn [mbind option_bind].
  assert (Hpush : ∀ t, push_token (Z.of_nat (length data)) (m_tokens st) t
                       = Some (m_tokens st ++ [t])).
  { intros t. unfold push_token.
    destruct (Z.ltb_spec (Z.of_nat (length (m_tokens st))) (Z.of_nat (length data) * 2));
      [reflexivity | lia]. }
  assert (Hlen : ∀ t, Z.of_nat (length (m_tokens st ++ [t])) = Z.of_nat (length (m_tokens st)) + 1).
  { intros t. rewrite length_app. simpl. lia. }
  unfold MIN_MATCH in *. cbn [fst snd] in *.
  destruct (Z.leb_spec 3 bl) as [Hmatch|Hlit].
  - destruct Hbest as [Hzero | [_ Hcap]]; [injection Hzero as -> ->; lia|].
    rewrite Hpush. cbn [mbind option_bind].
    destruct (insert_range_safe data (Z.of_nat (length data)) (m_pos st) bl
                eq_refl ltac:(lia) (Z.to_nat bl) 0 (m_hash_table st) (m_prev st))
      as (ht' & prev' & Hins & Hc'); [rewrite Z.add_0_r; exact Hcells | lia | lia |].
    rewrite Hins. cbn [mbind option_bind].
    eexists _, (bl, bd). split; [reflexivity|]. cbn [m_pos m_tokens m_hash_table m_prev fst snd].
    split; [|split; [reflexivity|left; split; [lia|split; [lia|split; reflexivity]]]].
    split; [cbn [m_pos]; lia|]. cbn [m_pos m_tokens m_hash_table m_prev].
    split; [exact Hc'|]. split; [rewrite Hlen; lia|].
    rewrite covered_app, Hcov. unfold covered, advance, is_literal. simpl. lia.
  - destruct (array_get_in_range data (m_pos st) ltac:(lia)) as [b Hb].
    rewrite Hb. cbn [mbind option_bind]. rewrite Hpush. cbn [mbind option_bind].
    pose proof (Z_of_byte_range b) as Hbr.
    assert (Hins : ∃ ht' prev',
      (if m_pos st + 2 <? Z.of_nat (length data)
       then insert_hash data (m_hash_table st) (m_prev st) (m_pos st)
       else Some (m_hash_table st, m_prev st)) = Some (ht', prev') ∧
      cells_safe data ht' prev' (m_pos st + 1)).
    { destruct (Z.ltb_spec (m_pos st + 2) (Z.of_nat (length data))) as [Hin|Hout].
      - apply insert_hash_safe; [exact Hcells | lia | exact Hin].
      - eexists _, _. split; [reflexivity|].
        apply (cells_safe_beyond data _ _ (m_pos st)); [lia | lia | exact Hcells]. }
    destruct Hins as (ht' & prev' & -> & Hc'). cbn [mbind option_bind].
    assert (Hlitb : is_literal (Token.mk (Z_of_byte b) 0 0) = true).
    { unfold is_literal. cbn [Token.literal]. apply Z.leb_le. lia. }
    eexists _, (bl, bd). split; [reflexivity|]. cbn [m_pos m_tokens m_hash_table m_prev fst snd].
    split; [|split; [reflexivity|right; split; [lia|split; [eauto | reflexivity]]]].
    split; [cbn [m_pos]; lia|]. cbn [m_pos m_tokens m_hash_table m_prev].
    split; [exact Hc'|]. split; [rewrite Hlen; lia|].
    rewrite covered_app, Hcov. unfold covered. cbn [fold_right]. unfold advance.
    rewrite Hlitb. lia.
Qed.

Lemma lz77_init_safe data : matcher_safe data (lz77_init data).
Proof.
  unfold matcher_safe, lz77_init. cbn [m_pos m_hash_table m_prev m_tokens].
  split; [lia|]. split; [|split; [simpl; lia | reflexivity]].
  split; [apply length_replicate|]. split; [apply length_replicate|]. split; [|split].
  - intros h m [_ Hm]%array_get_Some. apply lookup_replicate in Hm as [-> _]. reflexivity.
  - intros q v [_ Hv]%load_prev_Some%array_get_Some.
    apply lookup_replicate in Hv as [Hv _]. discriminate.
  - intros q Hq. lia.
Qed.

Lemma lz77_reach_safe data st : lz77_reach data st → matcher_safe data st.
Proof.
  intros Hreach. induction Hreach as [|st st' _ IH Hlt Hstep].
  - apply lz77_init_safe.
  - destruct (lz77_step_safe data st IH Hlt) as (st2 & best & Hstep2 & Hsafe & _).
    rewrite Hstep in Hstep2. injection Hstep2 as <-. exact Hsafe.
Qed.

(** A reached state is where the loop stands after some iterations. *)
Lemma reach_runs data st :
  lz77_reach data st →
  ∃ k : nat, Z.of_nat k <= m_pos st ∧
    ∀ fuel, lz77_loop (k + fuel) data (Z.of_nat (length data)) (lz77_init data)
            = lz77_loop fuel data (Z.of_nat (length data)) st.
Proof.
  intros Hreach. induction Hreach as [|st st' Hreach (k & Hk & IH) Hlt Hstep].
  - exists 0%nat. split; [simpl; lia | reflexivity].
  - pose proof (lz77_reach_safe data st Hreach) as Hsafe.
    destruct (lz77_step_safe data st Hsafe Hlt) as (st2 & best & Hstep2 & _ & _ & Hcase).
    rewrite Hstep in Hstep2. injection Hstep2 as <-.
    exists (S k). split.
    + unfold MIN_MATCH in Hcase. destruct Hcase as [(H1 & _ & _ & H2) | (_ & _ & H2)]; lia.
    + intros fuel. replace (S k + fuel)%nat with (k + S fuel)%nat by lia.
      rewrite IH. cbn [lz77_loop].
      destruct (Z.ltb_spec (m_pos st) (Z.of_nat (length data))); [|lia].
      rewrite Hstep. reflexivity.
Qed.

Lemma reach_end data st :
  lz77_reach data st → m_pos st = Z.of_nat (length data) →
  lz77_compress data = Some (m_tokens st).
Proof.
  intros Hreach Hend. destruct (reach_runs data st Hreach) as (k & Hk & Hrun).
  unfold lz77_compress.
  replace (length data) with (k + (length data - k))%nat at 1 by lia.
  rewrite Hrun.
  destruct (length data - k)%nat; cbn [lz77_loop];
    (destruct (Z.ltb_spec (m_pos st) (Z.of_nat (length data))); [lia | reflexivity]).
Qed.

(** The loop passes every position by at most 258. *)
Lemma reach_past data t :
  0 <= t < Z.of_nat (length data) →
  ∃ st, lz77_reach data st ∧ t < m_pos st <= t + 258.
Proof.
  intros Ht.
  assert (Hgen : ∀ (n : nat) st, lz77_reach data st → m_pos st <= t →
                   t - m_pos st < Z.of_nat n →
                   ∃ st', lz77_reach data st' ∧ t < m_pos st' <= t + 258).
  { induction n as [|n IH]; intros st Hreach Hle Hn.
    - pose proof (lz77_reach_safe data st Hreach) as (Hpos & _). lia.
    - pose proof (lz77_reach_safe data st Hreach) as Hsafe.
      destruct (lz77_step_safe data st Hsafe ltac:(lia)) as (st1 & best & Hstep & _ & _ & Hcase).
      assert (Hreach1 : lz77_reach data st1) by (eapply reach_step; eauto; lia).
      assert (Hadv : m_pos st < m_pos st1 <= m_pos st + 258).
      { unfold MIN_MATCH in Hcase.
        destruct Hcase as [(H1 & H2 & _ & H3) | (_ & _ & H3)]; lia. }
      destruct (Z.lt_ge_cases t (m_pos st1)) as [Hpast|Hnot].
      + exists st1. split; [exact Hreach1 | lia].
      + apply (IH st1 Hreach1); lia. }
  apply (Hgen (Z.to_nat (t + 1)) (lz77_init data) (reach_init data)); simpl; lia.
Qed.

(** From position 2^31 + 32768 to position 2^32 every stored candidate is
    negative as an [int] or lies further back than [MAX_DIST]: the search
    stops at the first link. *)
Lemma search_chain_far links data prev size pos m bl bd :
  stored_ok data pos m → 2147483648 + 32768 <= pos <= 4294967296 →
  search_chain links data prev size pos m bl bd = Some (bl, bd).
Proof.
  intros Hst Hpos. destruct links as [|links]; [reflexivity|].
  cbn [search_chain].
  destruct (Z.leb_spec 0 m) as [Hm|Hneg]; [|reflexivity].
  destruct Hst as [->|(p & Hp & _ & ->)]; [lia|].
  destruct (to_int_spec p) as (q & Hq & Hqr).
  destruct (to_int_spec (pos - to_int p)) as (q' & Hq' & Hqr').
  unfold MAX_DIST.
  destruct (Z.ltb_spec 32768 (to_int (pos - to_int p))) as [|Hd]; [reflexivity|].
  destruct (Z.leb_spec (to_int (pos - to_int p)) 0) as [|Hd']; [reflexivity|].
  lia.
Qed.

Lemma far_positions_literal data hash_table prev pos :
  cells_safe data hash_table prev pos →
  2147483648 + 32768 <= pos <= 4294967296 → pos <= Z.of_nat (length data) →
  find_match data hash_table prev (Z.of_nat (length data)) pos = Some (0, 0).
Proof.
  intros (Hlh & Hlp & Hheads & Hlinks & Hins) Hpos Hsize. unfold find_match.
  destruct (Z.leb_spec (pos + MIN_MATCH) (Z.of_nat (length data))) as [Hroom|];
    [|reflexivity].
  unfold MIN_MATCH in Hroom.
  destruct (hash3_spec data pos ltac:(lia) ltac:(lia)) as (h & Hh & Hhr).
  destruct (array_get_in_range hash_table h ltac:(lia)) as [m Hm].
  rewrite Hh. cbn [mbind option_bind]. rewrite Hm. cbn [mbind option_bind].
  apply search_chain_far; [|exact Hpos].
  rewrite (Hheads h m Hm). apply head_value_stored. lia.
Qed.

Lemma literal_walk data target :
  target <= 4294967296 + 1 → target <= Z.of_nat (length data) →
  ∀ (n : nat) st,
    lz77_reach data st → 2147483648 + 32768 <= m_pos st →
    target - m_pos st = Z.of_nat n →
    ∃ st', lz77_reach data st' ∧ m_pos st' = target.
Proof.
  intros Htarget Hsize. induction n as [|n IH]; intros st Hreach Hfar Hn.
  { exists st. split; [exact Hreach | lia]. }
  pose proof (lz77_reach_safe data st Hreach) as Hsafe.
  destruct (lz77_step_safe data st Hsafe ltac:(lia))
    as (st1 & best & Hstep & _ & Hfind & Hcase).
  destruct Hsafe as (Hpos & Hcells & _).
  rewrite (far_positions_literal data _ _ _ Hcells ltac:(lia) ltac:(lia)) in Hfind.
  injection Hfind as <-. unfold MIN_MATCH in Hcase. cbn [fst snd] in Hcase.
  destruct Hcase as [(Hbad & _) | (_ & _ & Hnext)]; [lia|].
  apply (IH st1); [|lia|lia].
  eapply reach_step; [exact Hreach | lia | exact Hstep].
Qed.

Lemma copy_match_one : ∀ (n : nat) out x r,
  last out = Some x → copy_match n 1 out = Some r → r = out ++ replicate n x.
Proof.
  induction n as [|n IH]; intros out x r Hlast Hcopy.
  { injection Hcopy as <-. cbn [replicate]. rewrite app_nil_r. reflexivity. }
  cbn [copy_match] in Hcopy.
  destruct ((1 <=? 1)%nat && (1 <=? length out)%nat); [|discriminate].
  rewrite last_lookup in Hlast.
  replace (length out - 1)%nat with (pred (length out)) in Hcopy by lia.
  rewrite Hlast in Hcopy. cbn [mbind option_bind] in Hcopy.
  rewrite (IH (out ++ [x]) x r (last_snoc _ _) Hcopy).
  rewrite <- app_assoc. reflexivity.
Qed.

Lemma copy_match_three out r :
  copy_match 3 1 out = Some r → ∃ x, last out = Some x ∧ r = out ++ [x; x; x].
Proof.
  intros Hcopy. destruct (last out) as [x|] eqn:Hlast.
  - exists x. split; [reflexivity|]. exact (copy_match_one 3 out x r Hlast Hcopy).
  - apply last_None in Hlast as ->. discriminate.
Qed.

Lemma replay_match_3_1 out :
  replay_from out [Token.mk (-1) 3 1] = copy_match 3 1 out.
Proof.
  assert (Htoken : replay_token out (Token.mk (-1) 3 1) = copy_match 3 1 out)
    by reflexivity.
  cbn [replay_from]. rewrite Htoken. destruct (copy_match 3 1 out); reflexivity.
Qed.

(** The run on an input of 2^32 + 4 bytes whose bytes at 0, 1, 2 and at
    2^32 + 1, 2^32 + 2, 2^32 + 3 are zero and whose byte at 2^32 is 0x20. *)
Section Wrapped.
Variables (data : list byte) (W : Z).
Hypothesis W_value : W = 4294967296.
Hypothesis size_value : Z.of_nat (length data) = W + 4.
Hypothesis low_bytes : ∀ i, 0 <= i < 3 → array_get data i = Some "000"%byte.
Hypothesis wrap_byte : array_get data W = Some " "%byte.
Hypothesis high_bytes : ∀ i, W < i < W + 4 → array_get data i = Some "000"%byte.

Lemma wrapped_reach : ∃ st, lz77_reach data st ∧ m_pos st = W + 1.
Proof.
  destruct (reach_past data (2147483648 + 32768) ltac:(lia)) as (st & Hreach & Hpos).
  apply (literal_walk data (W + 1) ltac:(lia) ltac:(lia)
           (Z.to_nat (W + 1 - m_pos st)) st Hreach); lia.
Qed.

Lemma wrapped_hash : hash3 data W = Some 0 ∧ hash3 data (W + 1) = Some 0.
Proof.
  unfold hash3. rewrite wrap_byte.
  rewrite (high_bytes (W + 1)), (high_bytes (W + 2)), (high_bytes (W + 1 + 1)),
    (high_bytes (W + 1 + 2)) by lia.
  split; reflexivity.
Qed.

Lemma wrapped_match_length :
  match_length (Z.to_nat 3) data 0 (W + 1) 3 0 = Some 3.
Proof.
  destruct (match_length_spec data 0 (W + 1) 3 ltac:(lia) ltac:(lia) ltac:(lia)
              (Z.to_nat 3) 0 ltac:(lia) ltac:(lia) ltac:(intros; lia))
    as (r & Hr & Hrange & _).
  rewrite Hr. f_equal.
  destruct (match_length_maximal data 0 (W + 1) 3 ltac:(lia) ltac:(lia)
              (Z.to_nat 3) 0 r ltac:(lia) Hr) as [->|Hdiff]; [reflexivity|].
  destruct (Z.eq_dec r 3) as [->|Hne]; [reflexivity|]. exfalso. apply Hdiff.
  pose proof (low_bytes (0 + r) ltac:(lia)) as [_ Hlow]%array_get_Some.
  pose proof (high_bytes (W + 1 + r) ltac:(lia)) as [_ Hhigh]%array_get_Some.
  rewrite Hlow, Hhigh. reflexivity.
Qed.

(** At position 2^32 + 1 the head of the chain is position 2^32 converted to
    [int], which is 0: the bytes at 0 are compared and the match of length 3
    gets the distance 1. *)
Lemma wrapped_search prev links :
  (∀ q v, load_prev prev q = Some v → stored_ok data (W + 1) v) →
  (∀ q, 0 <= q < W + 1 → q + 2 < Z.of_nat (length data) →
        ∃ v, load_prev prev q = Some v) →
  search_chain (S links) data prev (Z.of_nat (length data)) (W + 1) 0 0 0
  = Some (3, 1).
Proof.
  intros Hlinks Hins. cbn [search_chain].
  assert (Hd : to_int (W + 1 - 0) = 1) by (rewrite W_value; reflexivity).
  rewrite Hd.
  rewrite (max_len_value (Z.of_nat (length data)) (W + 1) ltac:(lia)).
  replace (Z.min 258 (Z.of_nat (length data) - (W + 1))) with 3 by lia.
  change (0 <=? 0) with true. change ((MAX_DIST <? 1) || (1 <=? 0)) with false.
  cbv iota. rewrite wrapped_match_length. cbn [mbind option_bind].
  destruct (Hins 0 ltac:(lia) ltac:(lia)) as [next Hnext].
  rewrite Hnext. cbn [mbind option_bind].
  change ((MIN_MATCH <=? 3) && (0 <? 3)) with true. cbv iota. cbn [fst snd].
  destruct (search_chain_safe data prev (Z.of_nat (length data)) (W + 1) eq_refl
              ltac:(lia) Hlinks Hins links next 3 1 (Hlinks _ _ Hnext))
    as (r & Hr & [->|Hlonger]); [exact Hr | lia].
Qed.

Lemma wrapped_find_match st :
  matcher_safe data st → m_pos st = W + 1 →
  find_match data (m_hash_table st) (m_prev st) (Z.of_nat (length data)) (m_pos st)
  = Some (3, 1).
Proof.
  intros (Hpos & (Hlh & Hlp & Hheads & Hlinks & Hins) & _) Hat.
  rewrite Hat in *. unfold find_match.
  destruct (Z.leb_spec (W + 1 + MIN_MATCH) (Z.of_nat (length data))) as [_|Hno];
    [|unfold MIN_MATCH in Hno; lia].
  destruct wrapped_hash as [HhW Hh1]. rewrite Hh1. cbn [mbind option_bind].
  assert (Hzero : 0 <= 0 < Z.of_nat (length (m_hash_table st)))
    by (rewrite Hlh; change HASH_SIZE with 32768; lia).
  destruct (array_get_in_range (m_hash_table st) 0 Hzero) as [m Hm].
  rewrite Hm. cbn [mbind option_bind].
  assert (m = 0) as ->.
  { rewrite (Hheads 0 m Hm), (head_value_hit data 0 W ltac:(lia) HhW).
    rewrite W_value. reflexivity. }
  apply wrapped_search; assumption.
Qed.

Lemma wrapped_run :
  ∃ T, lz77_compress data = Some (T ++ [Token.mk (-1) 3 1]) ∧ covered T = W + 1.
Proof.
  destruct wrapped_reach as (st & Hreach & Hat).
  pose proof (lz77_reach_safe data st Hreach) as Hsafe.
  destruct (lz77_step_safe data st Hsafe ltac:(lia))
    as (st1 & best & Hstep & _ & Hfind & Hcase).
  rewrite (wrapped_find_match st Hsafe Hat) in Hfind. injection Hfind as <-.
  unfold MIN_MATCH in Hcase. cbn [fst snd] in Hcase.
  destruct Hcase as [(_ & _ & Htokens & Hnext) | (Hbad & _)]; [|lia].
  exists (m_tokens st). split.
  - rewrite <- Htokens. apply reach_end; [|lia].
    eapply reach_step; [exact Hreach | lia | exact Hstep].
  - destruct Hsafe as (_ & _ & _ & Hcov). lia.
Qed.

(** No copy of 3 bytes from 1 byte back produces the input: it would repeat
    the byte 0x20 at 2^32. *)
Lemma wrapped_copy_fails out : copy_match 3 1 out ≠ Some data.
Proof.
  intros Hcopy. destruct (copy_match_three out data Hcopy) as (x & Hlast & Hdata).
  assert (Hlen : length data = (length out + 3)%nat).
  { rewrite Hdata at 1. rewrite length_app. reflexivity. }
  pose proof wrap_byte as [_ Hw]%array_get_Some.
  pose proof (high_bytes (W + 1) ltac:(lia)) as [_ Hh]%array_get_Some.
  rewrite Hdata in Hw, Hh. rewrite last_lookup in Hlast.
  rewrite lookup_app_l in Hw by lia.
  replace (pred (length out)) with (Z.to_nat W) in Hlast by lia.
  rewrite lookup_app_r in Hh by lia.
  replace (Z.to_nat (W + 1) - length out)%nat with 0%nat in Hh by lia.
  cbn [lookup list_lookup] in Hh. congruence.
Qed.

Lemma wrapped_replay T : replay (T ++ [Token.mk (-1) 3 1]) ≠ Some data.
Proof.
  unfold replay. rewrite replay_from_app.
  destruct (replay_from [] T) as [out|]; cbn [mbind option_bind]; [|discriminate].
  rewrite replay_match_3_1. apply wrapped_copy_fails.
Qed.

Lemma wrapped_invalid : ¬ valid_match data (W + 1) (Token.mk (-1) 3 1).
Proof.
  intros (_ & _ & Hcopy). cbn [Token.length Token.distance] in Hcopy.
  rewrite (take_ge data (Z.to_nat (W + 1 + 3))) in Hcopy by lia.
  change (Z.to_nat 3) with 3%nat in Hcopy. change (Z.to_nat 1) with 1%nat in Hcopy.
  exact (wrapped_copy_fails _ Hcopy).
Qed.
End Wrapped.

Lemma length_wrap_front : length wrap_front = Z.to_nat 4294967296.
Proof.
  unfold wrap_front. rewrite !length_app, !length_replicate. cbn [length]. lia.
Qed.

Lemma length_wrap_input : Z.of_nat (length wrap_input) = 4294967296 + 4.
Proof.
  unfold wrap_input. rewrite length_app, length_wrap_front. cbn [length]. lia.
Qed.

Lemma wrap_input_low i : 0 <= i < 3 → array_get wrap_input i = Some "000"%byte.
Proof.
  intros Hi. apply array_get_Some. split; [lia|]. unfold wrap_input.
  rewrite lookup_app_l by (rewrite length_wrap_front; lia).
  unfold wrap_front. rewrite lookup_app_l by (rewrite length_replicate; lia).
  apply lookup_replicate_2. lia.
Qed.

Lemma wrap_input_high (k : nat) :
  array_get wrap_input (4294967296 + Z.of_nat k)
  = [" "; "000"; "000"; "000"]%byte !! k.
Proof.
  unfold array_get.
  destruct (Z.ltb_spec (4294967296 + Z.of_nat k) 0) as [|_]; [lia|].
  unfold wrap_input.
  rewrite lookup_app_r by (rewrite length_wrap_front; lia).
  rewrite length_wrap_front. f_equal. lia.
Qed.

Lemma wrap_input_byte : array_get wrap_input 4294967296 = Some " "%byte.
Proof. exact (wrap_input_high 0). Qed.

Lemma wrap_input_zero i :
  4294967296 < i < 4294967296 + 4 → array_get wrap_input i = Some "000"%byte.
Proof.
  intros Hi.
  replace i with (4294967296 + Z.of_nat (Z.to_nat (i - 4294967296))) by lia.
  rewrite wrap_input_high.
  destruct (Z.to_nat (i - 4294967296)) as [|[|[|[|k]]]] eqn:Hk;
    [lia | reflexivity | reflexivity | reflexivity | lia].
Qed.

(** The matcher's run on [wrap_input] ends with a match of length 3 and
    distance 1 emitted at position 2^32 + 1. *)
Lemma wrap_input_run :
  ∃ T, lz77_compress wrap_input = Some (T ++ [Token.mk (-1) 3 1]) ∧
       covered T = 4294967296 + 1.
Proof.
  exact (wrapped_run wrap_input 4294967296 eq_refl length_wrap_input
           wrap_input_low wrap_input_byte wrap_input_zero).
Qed.

(** C2, as stated for every input, fails: the tokens the matcher emits for
    [wrap_input], an input of 2^32 + 4 bytes, do not replay to it.  The
    position 2^32 is stored in the [int] cell of the hash table as 0, so that
    at position 2^32 + 1 the search compares the bytes at 0 and emits a match
    of length 3 whose distance is 2^32 + 1 converted to [int], that is 1;
    replaying it repeats the byte 0x20 of position 2^32 where the input has
    zero bytes.  The byte 1 at position 2^31 - 1 keeps every index
    [match_pos + len] of the run within [int]. *)
Lemma replay_fails_beyond_int :
  ∃ T, lz77_compress wrap_input = Some (T ++ [Token.mk (-1) 3 1]) ∧
       replay (T ++ [Token.mk (-1) 3 1]) ≠ Some wrap_input.
Proof.
  destruct wrap_input_run as (T & Hrun & _). exists T. split; [exact Hrun|].
  exact (wrapped_replay wrap_input 4294967296 eq_refl length_wrap_input
           wrap_input_byte wrap_input_zero T).
Qed.

(** C3, as stated for every input, fails: for [wrap_input], an input of
    2^32 + 4 bytes, the matcher emits at position 2^32 + 1 a match token of
    length 3 and distance 1, and the 3 bytes that start 1 byte back (0x20
    repeated) are not the 3 zero bytes of the input at 2^32 + 1. *)
Lemma match_invalid_beyond_int :
  ∃ tokens, lz77_compress wrap_input = Some tokens ∧
    (4294967297, Token.mk (-1) 3 1) ∈ token_positions tokens ∧
    is_literal (Token.mk (-1) 3 1) = false ∧
    ¬ valid_match wrap_input 4294967297 (Token.mk (-1) 3 1).
Proof.
  destruct wrap_input_run as (T & Hrun & Hcov).
  exists (T ++ [Token.mk (-1) 3 1]). split; [exact Hrun|]. split; [|split].
  - unfold token_positions. rewrite positions_from_app, Hcov.
    apply elem_of_app. right. apply list_elem_of_here.
  - reflexivity.
  - exact (wrapped_invalid wrap_input 4294967296 eq_refl length_wrap_input
             wrap_input_byte wrap_input_zero).
Qed.

